(** * yammy-go: the YAML merge engine of [internal/yaml]

    A shallow embedding of the merge engine ([UpdateYAML],
    [updateYamlFromStruct], [updateField], [findNodes], [updateNode],
    [updateSequence], [createOrReuseNode], [updateMapping],
    [createOrReusePair], [adjustNodeColumns], [detectIndentation]) and the
    properties of it that the design document states.

    The engine works on [*yaml.Node] pointers and mutates the nodes in
    place.  Nodes therefore live in a store (an arena: a pointer is an index
    into it), every function is a computation over that store, and node
    identity is pointer equality. *)

From Stdlib Require Import ZArith String Ascii List Lia DecimalString DecimalZ DecimalPos.
From stdpp Require Import base tactics option list strings sets.

Set Warnings "-register-all".

Local Open Scope string_scope.
Local Open Scope list_scope.
Local Open Scope Z_scope.

(** ** Pointers and nodes (gopkg.in/yaml.v3 [Node]) *)

Abbreviation loc := nat (only parsing).

Inductive NodeKind :=
| ZeroKind        (* the zero value of a fresh [&yaml.Node{}] *)
| DocumentNode
| SequenceNode
| MappingNode
| ScalarNode
| AliasNode.

Record Node := mkNode {
  Kind : NodeKind;
  Style : Z;
  Tag : string;
  Value : string;
  Anchor : string;
  Alias : option loc;
  Content : list loc;
  HeadComment : string;
  LineComment : string;
  FootComment : string;
  Line : Z;
  Column : Z
}.

(** [&yaml.Node{}] *)
Definition zeroNode : Node :=
  mkNode ZeroKind 0 "" "" "" None [] "" "" "" 0 0.

Definition setKind (k : NodeKind) (n : Node) : Node :=
  mkNode k (Style n) (Tag n) (Value n) (Anchor n) (Alias n) (Content n)
         (HeadComment n) (LineComment n) (FootComment n) (Line n) (Column n).
Definition setStyle (s : Z) (n : Node) : Node :=
  mkNode (Kind n) s (Tag n) (Value n) (Anchor n) (Alias n) (Content n)
         (HeadComment n) (LineComment n) (FootComment n) (Line n) (Column n).
Definition setTag (t : string) (n : Node) : Node :=
  mkNode (Kind n) (Style n) t (Value n) (Anchor n) (Alias n) (Content n)
         (HeadComment n) (LineComment n) (FootComment n) (Line n) (Column n).
Definition setValue (v : string) (n : Node) : Node :=
  mkNode (Kind n) (Style n) (Tag n) v (Anchor n) (Alias n) (Content n)
         (HeadComment n) (LineComment n) (FootComment n) (Line n) (Column n).
Definition setContent (c : list loc) (n : Node) : Node :=
  mkNode (Kind n) (Style n) (Tag n) (Value n) (Anchor n) (Alias n) c
         (HeadComment n) (LineComment n) (FootComment n) (Line n) (Column n).
Definition setLine (l : Z) (n : Node) : Node :=
  mkNode (Kind n) (Style n) (Tag n) (Value n) (Anchor n) (Alias n) (Content n)
         (HeadComment n) (LineComment n) (FootComment n) l (Column n).
Definition setColumn (c : Z) (n : Node) : Node :=
  mkNode (Kind n) (Style n) (Tag n) (Value n) (Anchor n) (Alias n) (Content n)
         (HeadComment n) (LineComment n) (FootComment n) (Line n) c.

Definition NodeKind_eqb (a b : NodeKind) : bool :=
  match a, b with
  | ZeroKind, ZeroKind | DocumentNode, DocumentNode
  | SequenceNode, SequenceNode | MappingNode, MappingNode
  | ScalarNode, ScalarNode | AliasNode, AliasNode => true
  | _, _ => false
  end.

(** The store: [h !! l] is the node a pointer [l] points to; a pointer
    outside the store is nil. *)
Abbreviation heap := (list Node) (only parsing).

(** ** The merged value (package reflect) *)

Module reflect.

Inductive Kind :=
| Invalid | Bool | Int | Int8 | Int16 | Int32 | Int64
| Uint | Uint8 | Uint16 | Uint32 | Uint64 | Uintptr
| Float32 | Float64 | Complex64 | Complex128
| Array | Chan | Func | Interface | Map | Pointer | Slice
| String | Struct | UnsafePointer.

Definition Kind_eqb (a b : Kind) : bool :=
match a, b with
| Invalid, Invalid | Bool, Bool | Int, Int | Int8, Int8 | Int16, Int16
| Int32, Int32 | Int64, Int64 | Uint, Uint | Uint8, Uint8
| Uint16, Uint16 | Uint32, Uint32 | Uint64, Uint64 | Uintptr, Uintptr
| Float32, Float32 | Float64, Float64 | Complex64, Complex64
| Complex128, Complex128 | Array, Array | Chan, Chan | Func, Func
| Interface, Interface | Map, Map | Pointer, Pointer | Slice, Slice
| String, String | Struct, Struct | UnsafePointer, UnsafePointer => true
| _, _ => false
end.

(** [reflect.StructField]: the field's [Name] and the result of
[Tag.Get("yaml")] (empty when the field has no yaml tag). *)
Record StructField := mkField { Name : string; TagYaml : string }.

(** A [reflect.Value], by kind.
- [VInterface]: kind Interface; [None] is the nil interface,
[Some v] has [Elem() = v].
- [VPtr]: kind Ptr; [None] is the nil pointer; [text] is its [%v] form.
- [VStruct]: kind Struct, the fields in declaration order.
- [VSlice]: kind Slice or Array, the elements in index order.
- [VMap]: kind Map; [keyKind] is [Type().Key().Kind()]; the entries
in the order in which [MapKeys]/[MapRange] enumerate them, each key
given by its text ([key.String()] for a string key, which is also
its [%v] form).
- [VInt]: kinds Int, Int8, Int16, Int32, Int64.
- [VFloat]: kinds Float32, Float64, given by the [%g] text.
- [VBool], [VString].
- [VOther]: every other kind (the unsigned integers [Uint] ... [Uintptr],
complex numbers, channels, functions, ...), given by its kind and its
[%v] text.
- [VInvalid]: the zero [reflect.Value] ([reflect.ValueOf(nil)], or
[Elem()] of a nil pointer).
- [VReadOnly]: the value with the read-only flag set, as [Field] returns
it for an unexported field; the values taken out of it by [Elem],
[Index], [MapIndex] and the map iterator inherit the flag, and
[Interface()] panics on a value that has it.  [reflect.ValueOf] never
sets the flag. *)
#[local] Unset Elimination Schemes.
Inductive Value :=
| VInterface (elem : option Value)
| VPtr (elem : option Value) (text : string)
| VStruct (fields : list (StructField * Value))
| VSlice (elems : list Value)
| VMap (keyKind : Kind) (entries : list (string * Value))
| VInt (i : Z)
| VFloat (text : string)
| VBool (b : bool)
| VString (s : string)
| VOther (kind : Kind) (text : string)
| VInvalid
| VReadOnly (v : Value).
#[local] Set Elimination Schemes.

(** Induction over a value and the values nested in it. *)
Section Value_ind.
Variable P : Value -> Prop.
Hypothesis HInterfaceNil : P (VInterface None).
Hypothesis HInterface : forall elem, P elem -> P (VInterface (Some elem)).
Hypothesis HPtrNil : forall text, P (VPtr None text).
Hypothesis HPtr : forall elem text, P elem -> P (VPtr (Some elem) text).
Hypothesis HStruct :
forall fields, Forall (fun f => P (snd f)) fields -> P (VStruct fields).
Hypothesis HSlice : forall elems, Forall P elems -> P (VSlice elems).
Hypothesis HMap :
forall keyKind entries,
Forall (fun e => P (snd e)) entries -> P (VMap keyKind entries).
Hypothesis HInt : forall i, P (VInt i).
Hypothesis HFloat : forall text, P (VFloat text).
Hypothesis HBool : forall b, P (VBool b).
Hypothesis HString : forall s, P (VString s).
Hypothesis HOther : forall kind text, P (VOther kind text).
Hypothesis HInvalid : P VInvalid.
Hypothesis HReadOnly : forall v, P v -> P (VReadOnly v).

Fixpoint Value_ind (v : Value) : P v :=
match v with
| VInterface None => HInterfaceNil
| VInterface (Some e) => HInterface e (Value_ind e)
| VPtr None text => HPtrNil text
| VPtr (Some e) text => HPtr e text (Value_ind e)
| VStruct fields =>
HStruct fields
((fix all (fs : list (StructField * Value))
: Forall (fun f => P (snd f)) fs :=
match fs with
| [] => @List.Forall_nil _ _
| f :: rest => @List.Forall_cons _ _ f rest (Value_ind (snd f)) (all rest)
end) fields)
| VSlice elems =>
HSlice elems
((fix all (es : list Value) : Forall P es :=
match es with
| [] => @List.Forall_nil _ _
| e :: rest => @List.Forall_cons _ _ e rest (Value_ind e) (all rest)
end) elems)
| VMap keyKind entries =>
HMap keyKind entries
((fix all (es : list (string * Value))
: Forall (fun e => P (snd e)) es :=
match es with
| [] => @List.Forall_nil _ _
| e :: rest => @List.Forall_cons _ _ e rest (Value_ind (snd e)) (all rest)
end) entries)
| VInt i => HInt i
| VFloat text => HFloat text
| VBool b => HBool b
| VString s => HString s
| VOther kind text => HOther kind text
| VInvalid => HInvalid
| VReadOnly v => HReadOnly v (Value_ind v)
end.
End Value_ind.

(** [reflect.Indirect]: [if val.Kind() == reflect.Ptr { val = val.Elem() }] *)
Definition Indirect (v : Value) : Value :=
match v with
| VPtr (Some e) _ => e
| VPtr None _ => VInvalid
| _ => v
end.

End reflect.

(** ** Package fmt *)

(** [fmt.Sprintf("%d", i)] *)
Definition fmt_d (i : Z) : string := NilZero.string_of_int (Z.to_int i).

(** [fmt.Sprintf("%v", b)] for a bool *)
Definition fmt_bool (b : bool) : string := if b then "true" else "false".

(** ** The type [int]

    [Node.Line] and [Node.Column] are Go [int]s, 64 bits wide on the
    platforms the module is built for; sums and differences wrap around. *)

Definition int_min : Z := - 2 ^ 63.
Definition int_max : Z := 2 ^ 63 - 1.

(** [z] is the value of an [int]. *)
Definition is_int (z : Z) : Prop := int_min <= z <= int_max.

(** The [int] that holds the low 64 bits of [z]. *)
Definition wrap_int (z : Z) : Z := (z + 2 ^ 63) mod 2 ^ 64 - 2 ^ 63.

(** [a + b] and [a - b] on [int]s. *)
Definition int_add (a b : Z) : Z := wrap_int (a + b).
Definition int_sub (a b : Z) : Z := wrap_int (a - b).

(** ** Computations over the store

    A call returns normally, returns a Go [error], panics (a nil pointer
    dereference or an index out of range), or does not return (the
    recursion over a cyclic node graph); the store it leaves is kept in
    every case, since the nodes are mutated in place. *)

Inductive result (A : Type) :=
| Ret (a : A)
| Err (msg : string)
| Panic (msg : string)
| Diverge.
Arguments Ret {A} a.
Arguments Err {A} msg.
Arguments Panic {A} msg.
Arguments Diverge {A}.

Definition M (A : Type) := heap -> result A * heap.

Definition ret {A} (a : A) : M A := fun h => (Ret a, h).
Definition bind {A B} (m : M A) (k : A -> M B) : M B :=
  fun h =>
    match m h with
    | (Ret a, h') => k a h'
    | (Err e, h') => (Err e, h')
    | (Panic p, h') => (Panic p, h')
    | (Diverge, h') => (Diverge, h')
    end.
Definition fail {A} (msg : string) : M A := fun h => (Err msg, h).
Definition panic {A} (msg : string) : M A := fun h => (Panic msg, h).
Definition diverge {A} : M A := fun h => (Diverge, h).

Notation "'let*' x ':=' m 'in' k" := (bind m (fun x => k))
  (at level 10, x pattern, m at level 100, k at level 200).
Notation "m ;; k" := (bind m (fun _ => k))
  (at level 100, k at level 200, right associativity).

(** [fmt.Errorf(prefix + ": %w", err)] on the error path of [m]. *)
Definition wrapErr {A} (pre : string) (m : M A) : M A :=
  fun h =>
    match m h with
    | (Err e, h') => (Err (pre +:+ ": " +:+ e), h')
    | r => r
    end.

(** [*p] *)
Definition deref (p : loc) : M Node :=
  fun h =>
    match h !! p with
    | Some n => (Ret n, h)
    | None => (Panic "invalid memory address or nil pointer dereference", h)
    end.

(** [p.f = x] *)
Definition modify (p : loc) (f : Node -> Node) : M unit :=
  fun h =>
    match h !! p with
    | Some n => (Ret tt, <[p := f n]> h)
    | None => (Panic "invalid memory address or nil pointer dereference", h)
    end.

(** [&yaml.Node{...}] *)
Definition alloc (n : Node) : M loc :=
  fun h => (Ret (length h), h ++ [n]).

(** [s[i]] *)
Definition index (s : list loc) (i : nat) : M loc :=
  match s !! i with
  | Some x => ret x
  | None => panic "index out of range"
  end.

(** ** The merge engine *)

(** The panic of [reflect.Value.Interface] on a value with the read-only
    flag. *)
Definition unexportedPanic : string :=
  "reflect.Value.Interface: cannot return value obtained from unexported field or method".

(** The loop shared by [findNodes] and [createOrReusePair]:
    [for i := 0; i < len(content); i += 2 { if content[i].Value == key
    { return content[i], content[i+1] } }].  [content[i+1]] is out of range
    when the match is the last entry of a list of odd length. *)
Fixpoint scanPairs (key : string) (content : list loc) : M (option (loc * loc)) :=
  match content with
  | [] => ret None
  | k :: rest =>
      let* kn := deref k in
      if String.eqb (Value kn) key then
        match rest with
        | v :: _ => ret (Some (k, v))
        | [] => panic "index out of range"
        end
      else
        match rest with
        | _ :: rest' => scanPairs key rest'
        | [] => ret None
        end
  end.

Definition findNodes (mappingNode : loc) (key : string) : M (option (loc * loc)) :=
  let* m := deref mappingNode in
  scanPairs key (Content m).

(** The block of [updateField] (and, verbatim, of the map arm of
    [updateYamlFromStruct]) that runs when the key is not found: two fresh
    nodes, style and column from the first pair of the mapping if it has
    any content, else the mapping's column plus the constant 2, then
    appended to the mapping. *)
Definition appendNewPair (mappingNode : loc) (key : string) : M (loc * loc) :=
  let* keyNode := alloc (setValue key (setTag "!!str" (setKind ScalarNode zeroNode))) in
  let* valueNode := alloc zeroNode in
  let* m := deref mappingNode in
  (if (0 <? length (Content m))%nat then
     let* c0 := index (Content m) 0 in
     let* n0 := deref c0 in
     modify keyNode (setStyle (Style n0));;
     let* n0 := deref c0 in
     modify keyNode (setColumn (Column n0));;
     let* c1 := index (Content m) 1 in
     let* n1 := deref c1 in
     modify valueNode (setStyle (Style n1));;
     let* n1 := deref c1 in
     modify valueNode (setColumn (Column n1))
   else
     modify keyNode (setColumn (int_add (Column m) 2));;
     modify valueNode (setColumn (int_add (Column m) 2)));;
  modify mappingNode (fun m => setContent (Content m ++ [keyNode; valueNode]) m);;
  ret (keyNode, valueNode).

(** [for _, child := range children { f(child) }] *)
Definition forEach (f : loc -> M unit) :=
  fix each (children : list loc) : M unit :=
    match children with
    | [] => ret tt
    | child :: rest => f child;; each rest
    end.

Fixpoint adjustNodeColumns (fuel : nat) (node : loc) (offset : Z) : M unit :=
  match fuel with
  | O => diverge
  | S fuel' =>
      let* n := deref node in
      (if offset <? Column n then modify node (setColumn (int_sub (Column n) offset))
       else ret tt);;
      let* n := deref node in
      forEach (fun child => adjustNodeColumns fuel' child offset) (Content n)
  end.

Definition createOrReuseNode (node : loc) (index_ : nat) (originalContent : list loc)
    (baseIndent : Z) : M loc :=
  match originalContent !! index_ with
  | Some e => ret e
  | None =>
      let* elemNode := alloc zeroNode in
      (if (0 <? length originalContent)%nat then
         let* lastNode := index originalContent (length originalContent - 1) in
         let* ln := deref lastNode in
         modify elemNode (setStyle (Style ln));;
         let* ln := deref lastNode in
         modify elemNode (setColumn (Column ln));;
         let* ln := deref lastNode in
         modify elemNode (setLine (Line ln))
       else
         let* n := deref node in
         modify elemNode (setColumn (int_add (Column n) baseIndent)));;
      ret elemNode
  end.

Definition createOrReusePair (node : loc) (key : string) (originalContent : list loc)
    (baseIndent : Z) : M (loc * loc) :=
  let* found := scanPairs key originalContent in
  match found with
  | Some kv => ret kv
  | None =>
      let* keyNode := alloc (setTag "!!str" (setValue key (setKind ScalarNode zeroNode))) in
      let* valueNode := alloc zeroNode in
      (if (0 <? length originalContent)%nat then
         let* lastKey :=
           (if (2 <=? length originalContent)%nat
            then index originalContent (length originalContent - 2)
            else panic "index out of range") in
         let* lastValue := index originalContent (length originalContent - 1) in
         let* lk := deref lastKey in
         modify keyNode (setStyle (Style lk));;
         let* lk := deref lastKey in
         modify keyNode (setColumn (Column lk));;
         let* lk := deref lastKey in
         modify keyNode (setLine (Line lk));;
         let* lv := deref lastValue in
         modify valueNode (setStyle (Style lv));;
         let* lv := deref lastValue in
         modify valueNode (setColumn (Column lv));;
         let* lv := deref lastValue in
         modify valueNode (setLine (Line lv))
       else
         let* n := deref node in
         modify keyNode (setColumn (int_add (Column n) baseIndent));;
         let* n := deref node in
         modify valueNode (setColumn (int_add (Column n) baseIndent)));;
      ret (keyNode, valueNode)
  end.

(** The key of a field: [yamlTag := fieldType.Tag.Get("yaml"); if yamlTag == ""
    { yamlTag = fieldType.Name }]. *)
Definition yamlTagOf (fieldType : reflect.StructField) : string :=
  if String.eqb (reflect.TagYaml fieldType) ""
  then reflect.Name fieldType else reflect.TagYaml fieldType.

Section Engine.

(** The recursion depth available to [adjustNodeColumns]. *)
Variable fuel : nat.

Section Open.

(** [updateNode] and the functions below call each other; they are
first written over the recursive call, and their [for] loops are
named. *)
Variable updateNode : loc -> reflect.Value -> M unit.

Definition updateField_ (mappingNode : loc) (fieldType : reflect.StructField)
(fieldValue : reflect.Value) : M unit :=
let yamlTag := yamlTagOf fieldType in
let* found := findNodes mappingNode yamlTag in
let* kv := match found with
| Some kv => ret kv
| None => appendNewPair mappingNode yamlTag
end in
updateNode (snd kv) fieldValue.

(** [for i := 0; i < val.NumField(); i++ { updateField(...) }] *)
Definition structFields_ (mappingNode : loc) :=
fix each (fs : list (reflect.StructField * reflect.Value)) : M unit :=
match fs with
| [] => ret tt
| (fieldType, fieldValue) :: rest =>
wrapErr ("failed to update field " +:+ reflect.Name fieldType)
(updateField_ mappingNode fieldType fieldValue);;
each rest
end.

(** [for _, key := range val.MapKeys() { ... }] *)
Definition mapKeys_ (mappingNode : loc) :=
fix each (es : list (string * reflect.Value)) : M unit :=
match es with
| [] => ret tt
| (keyStr, elem) :: rest =>
let* found := findNodes mappingNode keyStr in
let* kv := match found with
| Some kv => ret kv
| None => appendNewPair mappingNode keyStr
end in
wrapErr ("failed to update map value for key " +:+ keyStr)
(updateNode (snd kv) elem);;
each rest
end.

(** The document arm of [updateYamlFromStruct]: the node the fields are
merged into. *)
Definition documentChild (node : loc) : M loc :=
let* n := deref node in
if NodeKind_eqb (Kind n) DocumentNode then
if negb (length (Content n) =? 1)%nat then
fail "invalid YAML structure: document node should have exactly one child"
else
let* mappingNode := index (Content n) 0 in
let* m := deref mappingNode in
let rootOffset := Column m in
modify node (setColumn 0);;
modify mappingNode (setColumn 0);;
adjustNodeColumns fuel mappingNode rootOffset;;
ret mappingNode
else ret node.

(** [if mappingNode.Kind != yaml.MappingNode { ... }]; the [Content == nil]
test that follows replaces a nil slice by an empty one, which are the
same list. *)
Definition ensureMapping (mappingNode : loc) : M unit :=
let* m := deref mappingNode in
if negb (NodeKind_eqb (Kind m) MappingNode) then
modify mappingNode (setKind MappingNode);;
modify mappingNode (setTag "!!map")
else ret tt.

(** [switch val.Kind() { case reflect.Struct: ... case reflect.Map: ...
default: ... }] *)
Definition mergeByKind_ (mappingNode : loc) (val : reflect.Value) : M unit :=
match val with
| reflect.VStruct fields => structFields_ mappingNode fields
| reflect.VMap keyKind entries =>
if negb (reflect.Kind_eqb keyKind reflect.String) then
fail "map key must be string"
else mapKeys_ mappingNode entries
| _ => fail "data must be a struct, pointer to struct, or map[string]interface{}"
end.

Definition updateYamlFromStruct_ (node : loc) (data : reflect.Value) : M unit :=
let val := reflect.Indirect data in
let* mappingNode := documentChild node in
ensureMapping mappingNode;;
mergeByKind_ mappingNode val.

(** [baseIndent] of [updateSequence] and [updateMapping] *)
Definition baseIndentOf (node : loc) (originalContent : list loc) : M Z :=
if (0 <? length originalContent)%nat then
let* c0 := index originalContent 0 in
let* n0 := deref c0 in
let* n := deref node in
ret (int_sub (Column n0) (Column n))
else ret 2.

(** [for i := 0; i < value.Len(); i++ { ... }] *)
Definition sequenceElems_ (node : loc) (originalContent : list loc) (baseIndent : Z) :=
fix each (i : nat) (es : list reflect.Value) (newContent : list loc)
: M (list loc) :=
match es with
| [] => ret newContent
| e :: rest =>
let* elemNode := createOrReuseNode node i originalContent baseIndent in
wrapErr ("error updating sequence element " +:+ fmt_d (Z.of_nat i))
(updateNode elemNode e);;
each (S i) rest (newContent ++ [elemNode])
end.

Definition updateSequence_ (node : loc) (elems : list reflect.Value) : M unit :=
let* n := deref node in
let originalStyle := Style n in
let originalColumn := Column n in
let originalContent := Content n in
modify node (setKind SequenceNode);;
modify node (setTag "!!seq");;
let* baseIndent := baseIndentOf node originalContent in
let* newContent := sequenceElems_ node originalContent baseIndent O elems [] in
modify node (setContent newContent);;
modify node (setStyle originalStyle);;
modify node (setColumn originalColumn).

(** [fmt.Sprintf("%v", iter.Key().Interface())]: the key of a map that has
the read-only flag has it too, and [Interface()] panics. *)
Definition keyText (ro : bool) (key : string) : M string :=
if ro then panic unexportedPanic else ret key.

(** [for iter.Next() { ... }]; [ro] is the read-only flag of the map. *)
Definition mappingEntries_ (ro : bool) (node : loc) (originalContent : list loc)
(baseIndent : Z) :=
fix each (es : list (string * reflect.Value)) (newContent : list loc)
: M (list loc) :=
match es with
| [] => ret newContent
| (key, elem) :: rest =>
let* key := keyText ro key in
let* kv := createOrReusePair node key originalContent baseIndent in
wrapErr "error updating map value" (updateNode (snd kv) elem);;
each rest (newContent ++ [fst kv; snd kv])
end.

Definition updateMapping_ (ro : bool) (node : loc)
(entries : list (string * reflect.Value)) : M unit :=
let* n := deref node in
let originalStyle := Style n in
let originalColumn := Column n in
let originalContent := Content n in
modify node (setKind MappingNode);;
modify node (setTag "!!map");;
let* baseIndent := baseIndentOf node originalContent in
let* newContent := mappingEntries_ ro node originalContent baseIndent entries [] in
modify node (setContent newContent);;
modify node (setStyle originalStyle);;
modify node (setColumn originalColumn).

(** The end of [updateNode]: [node.Style = originalStyle;
node.Column = originalColumn]. *)
Definition restore (node : loc) (originalStyle originalColumn : Z) : M unit :=
modify node (setStyle originalStyle);;
modify node (setColumn originalColumn).

(** The default arm of [updateNode]. *)
Definition setScalar (node : loc) (tag text : string) : M unit :=
modify node (setKind ScalarNode);;
modify node (setTag tag);;
modify node (setValue text).

End Open.

(** [updateNode(node, value)].  [ro] is the read-only flag that [value]
has inherited from the value it was taken out of; [VReadOnly] sets it. *)
Fixpoint updateNodeRO (ro : bool) (node : loc) (value : reflect.Value)
{struct value} : M unit :=
let* n := deref node in
let originalStyle := Style n in
let originalColumn := Column n in
match value with
| reflect.VReadOnly v => updateNodeRO true node v
| reflect.VInterface (Some elem) => updateNodeRO ro node elem
| reflect.VInterface None => restore node originalStyle originalColumn
| reflect.VStruct fields =>
  (* [value.Interface()] boxes the struct again *)
  (if ro then panic unexportedPanic
   else updateYamlFromStruct_ (updateNodeRO false) node (reflect.VStruct fields));;
  restore node originalStyle originalColumn
| reflect.VSlice elems =>
  updateSequence_ (updateNodeRO ro) node elems;;
  restore node originalStyle originalColumn
| reflect.VMap _ entries =>
  updateMapping_ (updateNodeRO ro) ro node entries;;
  restore node originalStyle originalColumn
| reflect.VInt i =>
  setScalar node "!!int" (fmt_d i);;
  restore node originalStyle originalColumn
| reflect.VFloat text =>
  setScalar node "!!float" text;;
  restore node originalStyle originalColumn
| reflect.VBool b =>
  setScalar node "!!bool" (fmt_bool b);;
  restore node originalStyle originalColumn
| reflect.VString s =>
  setScalar node "!!str" s;;
  restore node originalStyle originalColumn
| reflect.VPtr _ text | reflect.VOther _ text =>
  (* [fmt.Sprintf("%v", value.Interface())] *)
  (if ro then
     modify node (setKind ScalarNode);;
     modify node (setTag "!!str");;
     panic unexportedPanic
   else setScalar node "!!str" text);;
  restore node originalStyle originalColumn
| reflect.VInvalid =>
  modify node (setKind ScalarNode);;
  modify node (setTag "!!str");;
  panic "reflect: call of reflect.Value.Interface on zero Value"
end.

(** [updateNode] on a value that has inherited no read-only flag: a field
value, a map value, and what [Interface()] gives. *)
Definition updateNode := updateNodeRO false.

Definition updateField := updateField_ updateNode.
Definition updateYamlFromStruct := updateYamlFromStruct_ updateNode.
Definition updateSequence := updateSequence_ updateNode.
Definition updateMapping := updateMapping_ updateNode false.

End Engine.

(** ** The entry point *)

(** [bytes.Split(content, "\n")] *)
Fixpoint bytes_Split (content : string) : list string :=
  match content with
  | EmptyString => [EmptyString]
  | String ch rest =>
      if Ascii.eqb ch "010"%char then EmptyString :: bytes_Split rest
      else match bytes_Split rest with
           | line :: lines => String ch line :: lines
           | [] => [String ch EmptyString]
           end
  end.

(** The inner loop of [detectIndentation]: the number of leading spaces. *)
Fixpoint leadingSpaces (line : string) : Z :=
  match line with
  | String ch rest => if Ascii.eqb ch " "%char then 1 + leadingSpaces rest else 0
  | EmptyString => 0
  end.

Fixpoint detectIndentation_lines (lines : list string) : Z :=
  match lines with
  | [] => 2
  | line :: rest =>
      match line with
      | EmptyString => detectIndentation_lines rest
      | String ch _ =>
          if negb (Ascii.eqb ch " "%char) then detectIndentation_lines rest
          else
            let spaces := leadingSpaces line in
            if 0 <? spaces then spaces else detectIndentation_lines rest
      end
  end.

Definition detectIndentation (content : string) : Z :=
  detectIndentation_lines (bytes_Split content).

Section UpdateYAML.

Variable fuel : nat.

(** The collaborators from gopkg.in/yaml.v3, which this repository only
calls: [yaml.Unmarshal(content, &root)] gives the node store and the
root pointer, or an error; [Encoder.Encode(&root)] after
[SetIndent(indent)] gives the text, or an error. *)
Variable yaml_Unmarshal : string -> heap * loc + string.
Variable yaml_Encode : Z -> heap -> loc -> string + string.

(** [root.Column = 0; if len(root.Content) > 0 { root.Content[0].Column = 0 }] *)
Definition resetRootColumns (root : loc) : M unit :=
modify root (setColumn 0);;
let* r := deref root in
if (0 <? length (Content r))%nat then
let* c0 := index (Content r) 0 in
modify c0 (setColumn 0)
else ret tt.

(** The part of [UpdateYAML] between the parser and the encoder. *)
Definition UpdateYAML_nodes (root : loc) (newData : reflect.Value) : M unit :=
wrapErr "failed to update YAML" (updateYamlFromStruct fuel root newData);;
resetRootColumns root.

Definition UpdateYAML (content : string) (newData : reflect.Value) : result string :=
let indent := detectIndentation content in
match yaml_Unmarshal content with
| inr err => Err ("failed to parse YAML: " +:+ err)
| inl (h, root) =>
match UpdateYAML_nodes root newData h with
| (Ret _, h') =>
match yaml_Encode indent h' root with
| inl text => Ret text
| inr err => Err ("failed to encode YAML: " +:+ err)
end
| (Err e, _) => Err e
| (Panic p, _) => Panic p
| (Diverge, _) => Diverge
end
end.

End UpdateYAML.

(** ** A program logic for the engine

    The engine writes only into the nodes it reaches from its argument and
    into the nodes it allocates.  [R] is a region of the store that is closed
    under [Content] and holds every pointer that is not allocated yet; a call
    whose argument is in [R] stays in [R].  [C] stands for the assumption
    that no node of the region is a Document node: under it the document arm
    of [updateYamlFromStruct] is never taken in a nested call, so no call
    returns an error and no column of an existing node changes. *)

(** The fields no merge writes to, apart from writing back the same value. *)
Definition meta_eq (n' n : Node) : Prop :=
  Style n' = Style n /\ HeadComment n' = HeadComment n /\
  LineComment n' = LineComment n /\ FootComment n' = FootComment n /\
  Line n' = Line n /\ Anchor n' = Anchor n /\ Alias n' = Alias n.

Lemma meta_eq_refl n : meta_eq n n.
Proof. by repeat split. Qed.

Lemma meta_eq_trans n1 n2 n3 : meta_eq n1 n2 -> meta_eq n2 n3 -> meta_eq n1 n3.
Proof. unfold meta_eq. intuition congruence. Qed.

Section Logic.

Variable R : loc -> Prop.
Variable C : Prop.

Record pre (h : heap) : Prop := {
pre_closed : forall x n c, R x -> h !! x = Some n -> c ∈ Content n -> R c;
pre_fresh : forall x : loc, (length h <= x)%nat -> R x;
pre_nodoc : C -> forall x n, R x -> h !! x = Some n -> Kind n <> DocumentNode
}.

(** [MI h0 h]: [h] is a store reached from [h0] by the engine working in
the region. *)
Record MI (h0 h : heap) : Prop := {
mi_len : (length h0 <= length h)%nat;
mi_pre : pre h;
mi_new : forall x : loc, (length h0 <= x)%nat -> R x;
mi_frame : forall x : loc, ~ R x -> h !! x = h0 !! x;
mi_meta : forall (x : loc) n0, h0 !! x = Some n0 ->
exists n, h !! x = Some n /\ meta_eq n n0;
mi_col : C -> forall (x : loc) n0, h0 !! x = Some n0 ->
exists n, h !! x = Some n /\ Column n = Column n0
}.

Lemma MI_refl h : pre h -> MI h h.
Proof.
intros Hp. split; auto.
- apply Hp.
- intros x n0 Hx. exists n0. split; [done | apply meta_eq_refl].
- intros _ x n0 Hx. by exists n0.
Qed.

Lemma MI_trans h0 h1 h2 : MI h0 h1 -> MI h1 h2 -> MI h0 h2.
Proof.
intros [L1 P1 N1 F1 M1 C1] [L2 P2 N2 F2 M2 C2]. split.
- lia.
- done.
- done.
- intros x Hx. rewrite F2, F1; auto.
- intros x n0 Hx. destruct (M1 x n0 Hx) as (n1 & Hn1 & E1).
destruct (M2 x n1 Hn1) as (n2 & Hn2 & E2).
exists n2. split; [done | by eapply meta_eq_trans].
- intros HC x n0 Hx. destruct (C1 HC x n0 Hx) as (n1 & Hn1 & E1).
destruct (C2 HC x n1 Hn1) as (n2 & Hn2 & E2).
exists n2. split; [done | congruence].
Qed.

(** What a write [*l = n'] over [n] must respect. *)
Definition modok (hb : heap) (l : loc) (n n' : Node) : Prop :=
R l /\
(forall c, c ∈ Content n' -> R c) /\
(Kind n' = Kind n \/ Kind n' <> DocumentNode) /\
((l < length hb)%nat -> meta_eq n' n /\ (C -> Column n' = Column n)).

Lemma MI_modify hb h l n n' :
MI hb h -> h !! l = Some n -> modok hb l n n' -> MI hb (<[l := n']> h).
Proof.
intros [L P N F Me Co] Hl (HR & Hc & Hk & Hm).
assert (Hlt : (l < length h)%nat) by (by eapply lookup_lt_Some).
split.
- by rewrite length_insert.
- destruct P as [Pc Pf Pn]. split.
+ intros x m c Hx Hxm Hcm. destruct (decide (x = l)) as [->|Hne].
* rewrite list_lookup_insert_eq in Hxm by done. injection Hxm as <-. auto.
* rewrite list_lookup_insert_ne in Hxm by done. eauto.
+ intros x Hx. rewrite length_insert in Hx. auto.
+ intros HC x m Hx Hxm. destruct (decide (x = l)) as [->|Hne].
* rewrite list_lookup_insert_eq in Hxm by done. injection Hxm as <-.
destruct Hk as [-> | Hk]; [by eapply Pn | done].
* rewrite list_lookup_insert_ne in Hxm by done. eauto.
- done.
- intros x Hx. rewrite list_lookup_insert_ne; [auto | congruence].
- intros x n0 Hx. destruct (decide (x = l)) as [->|Hne].
+ rewrite list_lookup_insert_eq by done. exists n'. split; [done|].
destruct (Me l n0 Hx) as (m & Hm1 & Hm2).
assert (m = n) by congruence. subst m.
destruct Hm as [Hm _]; [by eapply lookup_lt_Some|].
by eapply meta_eq_trans.
+ rewrite list_lookup_insert_ne by done. auto.
- intros HC x n0 Hx. destruct (decide (x = l)) as [->|Hne].
+ rewrite list_lookup_insert_eq by done. exists n'. split; [done|].
destruct (Co HC l n0 Hx) as (m & Hm1 & Hm2).
assert (m = n) by congruence. subst m.
destruct Hm as [_ Hm]; [by eapply lookup_lt_Some|].
rewrite Hm by done. done.
+ rewrite list_lookup_insert_ne by done. auto.
Qed.

Lemma MI_alloc hb h n :
MI hb h -> (forall c, c ∈ Content n -> R c) -> Kind n <> DocumentNode ->
MI hb (h ++ [n]).
Proof.
intros [L P N F Me Co] Hc Hk. split.
- rewrite length_app. simpl. lia.
- destruct P as [Pc Pf Pn]. split.
+ intros x m c Hx Hxm Hcm.
destruct (decide (x < length h)%nat) as [Hlt|Hge].
* rewrite lookup_app_l in Hxm by done. eauto.
* rewrite lookup_app_r in Hxm by lia.
destruct (x - length h)%nat eqn:E; simpl in Hxm; [|done].
injection Hxm as <-. auto.
+ intros x Hx. rewrite length_app in Hx. simpl in Hx. apply Pf. lia.
+ intros HC x m Hx Hxm.
destruct (decide (x < length h)%nat) as [Hlt|Hge].
* rewrite lookup_app_l in Hxm by done. eauto.
* rewrite lookup_app_r in Hxm by lia.
destruct (x - length h)%nat eqn:E; simpl in Hxm; [|done].
by injection Hxm as <-.
- done.
- intros x Hx. rewrite <- F by done.
destruct (decide (x < length h)%nat) as [Hlt|Hge].
+ by rewrite lookup_app_l.
+ exfalso. apply Hx. destruct P as [_ Pf _]. apply Pf. lia.
- intros x n0 Hx. destruct (Me x n0 Hx) as (m & Hm1 & Hm2).
exists m. split; [|done]. rewrite lookup_app_l; [done | by eapply lookup_lt_Some].
- intros HC x n0 Hx. destruct (Co HC x n0 Hx) as (m & Hm1 & Hm2).
exists m. split; [|done]. rewrite lookup_app_l; [done | by eapply lookup_lt_Some].
Qed.

(** [sat hb m h Q]: run from [h], the computation [m] keeps the store
related to [hb]; when it returns, [Q] holds; it returns an error or
fails to return only when [C] is false. *)
Definition sat {A} (hb : heap) (m : M A) (h : heap) (Q : A -> heap -> Prop) : Prop :=
match m h with
| (r, h') =>
MI hb h' /\
match r with
| Ret a => Q a h'
| Panic _ => True
| Err _ | Diverge => ~ C
end
end.

Lemma sat_ret {A} hb (a : A) h (Q : A -> heap -> Prop) :
MI hb h -> Q a h -> sat hb (ret a) h Q.
Proof. by split. Qed.

Lemma sat_bind {A B} hb (m : M A) (k : A -> M B) h Q1 (Q : B -> heap -> Prop) :
sat hb m h Q1 ->
(forall a h1, MI hb h1 -> Q1 a h1 -> sat hb (k a) h1 Q) ->
sat hb (bind m k) h Q.
Proof.
unfold sat, bind. destruct (m h) as [[a|e|p|] h1]; intros [H1 H2] Hk; auto.
by apply Hk.
Qed.

Lemma sat_conseq {A} hb (m : M A) h (Q Q' : A -> heap -> Prop) :
sat hb m h Q -> (forall a h', MI hb h' -> Q a h' -> Q' a h') -> sat hb m h Q'.
Proof.
unfold sat. destruct (m h) as [[a|e|p|] h1]; intros [H1 H2] Hk; auto.
Qed.

(** Using the specification of a call inside a caller. *)
Lemma sat_call {A} hb (m : M A) h (Q : A -> heap -> Prop) :
MI hb h -> sat h m h Q -> sat hb m h (fun a h' => Q a h' /\ MI h h').
Proof.
unfold sat. destruct (m h) as [[a|e|p|] h1]; intros H0 [H1 H2];
(split; [by eapply MI_trans | auto]).
Qed.

Lemma sat_fail {A} hb msg h (Q : A -> heap -> Prop) :
MI hb h -> ~ C -> sat hb (fail msg) h Q.
Proof. by split. Qed.

Lemma sat_panic {A} hb msg h (Q : A -> heap -> Prop) :
MI hb h -> sat hb (panic msg) h Q.
Proof. by split. Qed.

Lemma sat_diverge {A} hb h (Q : A -> heap -> Prop) :
MI hb h -> ~ C -> sat hb diverge h Q.
Proof. by split. Qed.

Lemma sat_wrapErr {A} hb pre_ (m : M A) h (Q : A -> heap -> Prop) :
sat hb m h Q -> sat hb (wrapErr pre_ m) h Q.
Proof. unfold sat, wrapErr. by destruct (m h) as [[a|e|p|] h1]. Qed.

Lemma sat_deref hb l h :
MI hb h -> sat hb (deref l) h (fun n h' => h' = h /\ h !! l = Some n).
Proof. intros H. unfold sat, deref. by destruct (h !! l). Qed.

Lemma sat_index hb s i h :
MI hb h -> sat hb (index s i) h (fun x h' => h' = h /\ s !! i = Some x).
Proof. intros H. unfold sat, index. by destruct (s !! i). Qed.

Lemma sat_modify hb l f h :
MI hb h ->
(forall n, h !! l = Some n -> modok hb l n (f n)) ->
sat hb (modify l f) h
(fun _ h' => exists n, h !! l = Some n /\ h' = <[l := f n]> h).
Proof.
intros H Hf. unfold sat, modify. destruct (h !! l) as [n|] eqn:E; [|done].
split; [by eapply MI_modify; eauto | by exists n].
Qed.

Lemma sat_alloc hb n h :
MI hb h -> (forall c, c ∈ Content n -> R c) -> Kind n <> DocumentNode ->
sat hb (alloc n) h (fun x h' => x = length h /\ h' = h ++ [n]).
Proof. intros H Hc Hk. split; [by apply MI_alloc | done]. Qed.

End Logic.

(** ** The engine stays inside the region of its argument *)

Lemma list_pair_ind {A} (P : list A -> Prop) :
  P [] -> (forall x, P [x]) -> (forall x y l, P l -> P (x :: y :: l)) ->
  forall l, P l.
Proof.
  intros H0 H1 H2.
  assert (H : forall l, P l /\ forall x, P (x :: l)).
  { induction l as [|y l [IH1 IH2]]; split; auto. }
  intros l. apply H.
Qed.

Lemma setters_meta :
  (forall k n, meta_eq (setKind k n) n) /\ (forall t n, meta_eq (setTag t n) n) /\
  (forall v n, meta_eq (setValue v n) n) /\ (forall c n, meta_eq (setContent c n) n) /\
  (forall c n, meta_eq (setColumn c n) n).
Proof. by repeat split. Qed.

Ltac mderef n Hn :=
  eapply sat_bind; [by apply sat_deref | cbv beta; intros n ? _ [-> Hn]].
Ltac mindex x Hx :=
  eapply sat_bind; [by apply sat_index | cbv beta; intros x ? _ [-> Hx]].
Ltac mmodify Hmi n Hn :=
  eapply sat_bind;
  [apply sat_modify; [eassumption | intros n Hn]
  | cbv beta; intros [] ? Hmi (n & Hn & ->)].
Ltac malloc Hmi :=
  eapply sat_bind;
  [apply sat_alloc; [eassumption | simpl; by intros ? ?%elem_of_nil | simpl; discriminate]
  | cbv beta; intros ? ? Hmi [-> ->]].

Section Specs.

Variable R : loc -> Prop.
Variable C : Prop.
Variable fuel : nat.

Lemma sat_rebase {A} hb (m : M A) h (Q : A -> heap -> Prop) :
MI R C hb h -> sat R C h m h Q -> sat R C hb m h Q.
Proof.
intros H Hs. eapply sat_conseq; [by apply sat_call|]. by intros a h' _ [? _].
Qed.

Lemma MI_closed hb h x n c :
MI R C hb h -> R x -> h !! x = Some n -> c ∈ Content n -> R c.
Proof. intros [_ [Hc _ _] _ _ _ _]. apply Hc. Qed.

Lemma MI_fresh hb h (x : loc) : MI R C hb h -> (length h <= x)%nat -> R x.
Proof. intros [_ [_ Hf _] _ _ _ _]. apply Hf. Qed.

Lemma MI_nodoc hb h x n :
MI R C hb h -> R x -> h !! x = Some n -> Kind n = DocumentNode -> ~ C.
Proof. intros [_ [_ _ Hn] _ _ _ _] Hx Hl Hk HC. by eapply Hn. Qed.

(** A write that keeps [Content], the kind or a non-document kind, and the
untouched fields. *)
Lemma modok_same hb h l n n' :
MI R C hb h -> R l -> h !! l = Some n ->
Content n' = Content n ->
(Kind n' = Kind n \/ Kind n' <> DocumentNode) ->
meta_eq n' n -> (C -> Column n' = Column n) ->
modok R C hb l n n'.
Proof.
intros H Hl Hn Hc Hk Hm Hcol. repeat split; auto; try apply Hm.
intros c Hin. rewrite Hc in Hin. by eapply MI_closed.
Qed.

(** A write to a node allocated after [hb]. *)
Lemma modok_new hb h l n n' :
MI R C hb h -> (length hb <= l)%nat -> h !! l = Some n ->
Content n' = Content n ->
(Kind n' = Kind n \/ Kind n' <> DocumentNode) ->
modok R C hb l n n'.
Proof.
intros H Hl Hn Hc Hk.
assert (HR : R l) by (by eapply mi_new).
repeat split; auto; try lia.
intros c Hin. rewrite Hc in Hin. by eapply MI_closed.
Qed.

Lemma scanPairs_spec key content hb h :
MI R C hb h ->
sat R C hb (scanPairs key content) h
(fun o h' => h' = h /\ forall k v, o = Some (k, v) -> k ∈ content /\ v ∈ content).
Proof.
intros H. induction content as [|x|x y l IH] using list_pair_ind.
- simpl. apply sat_ret; [done|]. split; [done | by intros k v [=]].
- simpl. eapply sat_bind; [by apply sat_deref|].
intros n h1 _ [-> Hn]. simpl. destruct (String.eqb (Value n) key).
+ by apply sat_panic.
+ apply sat_ret; [done|]. split; [done | by intros k v [=]].
- simpl. eapply sat_bind; [by apply sat_deref|].
intros n h1 _ [-> Hn]. simpl. destruct (String.eqb (Value n) key).
+ apply sat_ret; [done|]. split; [done|]. intros k v [= <- <-].
rewrite !elem_of_cons. auto.
+ eapply sat_conseq; [apply IH|]. simpl. intros o h' _ [-> Ho].
split; [done|]. intros k v Hkv. destruct (Ho k v Hkv) as [? ?].
rewrite !elem_of_cons. auto.
Qed.

Lemma findNodes_spec mappingNode key hb h :
MI R C hb h -> R mappingNode ->
sat R C hb (findNodes mappingNode key) h
(fun o h' => h' = h /\ forall k v, o = Some (k, v) -> R k /\ R v).
Proof.
intros H Hm. unfold findNodes.
eapply sat_bind; [by apply sat_deref|]. intros n h1 _ [-> Hn]. simpl.
eapply sat_conseq; [by apply scanPairs_spec|]. simpl.
intros o h' _ [-> Ho]. split; [done|]. intros k v Hkv.
destruct (Ho k v Hkv) as [? ?]. split; by apply (MI_closed hb h mappingNode n).
Qed.

Lemma lookup_snoc (h : heap) n : (h ++ [n]) !! length h = Some n.
Proof. rewrite lookup_app_r by lia. by rewrite Nat.sub_diag. Qed.

Lemma modify_fresh hb h (l : loc) f (Q : unit -> heap -> Prop) :
MI R C hb h -> (length hb <= l)%nat ->
(forall n, Content (f n) = Content n) ->
(forall n, Kind (f n) = Kind n) ->
sat R C hb (modify l f) h
(fun _ h' => exists n, h !! l = Some n /\ h' = <[l := f n]> h).
Proof.
intros H Hl Hc Hk. apply sat_modify; [done|]. intros n Hn.
eapply modok_new; eauto.
Qed.

Lemma modify_keep hb h (l : loc) f :
MI R C hb h -> R l ->
(forall n, Content (f n) = Content n) ->
(forall n, Kind (f n) = Kind n \/ Kind (f n) <> DocumentNode) ->
(forall n, meta_eq (f n) n) ->
(forall n, Column (f n) = Column n) ->
sat R C hb (modify l f) h
(fun _ h' => exists n, h !! l = Some n /\ h' = <[l := f n]> h).
Proof.
intros H Hl Hc Hk Hm Hcol. apply sat_modify; [done|]. intros n Hn.
eapply modok_same; eauto.
Qed.

Lemma appendNewPair_spec mappingNode key hb h :
MI R C hb h -> R mappingNode ->
sat R C hb (appendNewPair mappingNode key) h (fun kv _ => R (snd kv)).
Proof.
intros H Hm. unfold appendNewPair.
pose proof (mi_len _ _ _ _ H) as Hlen.
malloc MIa. malloc MIb. mderef m Hmn.
set (k := length h). set (v := length (h ++ [_])).
assert (Hk : (length hb <= k)%nat) by (subst k; lia).
assert (Hv : (length hb <= v)%nat) by (subst v; rewrite length_app; simpl; lia).
assert (HRk : R k) by (by eapply mi_new).
assert (HRv : R v) by (by eapply mi_new).
eapply sat_bind with (Q1 := fun _ _ => True).
- destruct (0 <? length (Content m))%nat.
+ mindex c0 Hc0. mderef n0 Hn0.
eapply sat_bind; [by apply modify_fresh|]. cbv beta. intros [] ? MI3 (? & ? & ->).
mderef n0' Hn0'.
eapply sat_bind; [by apply modify_fresh|]. cbv beta. intros [] ? MI4 (? & ? & ->).
mindex c1 Hc1. mderef n1 Hn1.
eapply sat_bind; [by apply modify_fresh|]. cbv beta. intros [] ? MI5 (? & ? & ->).
mderef n1' Hn1'.
eapply sat_conseq; [by apply modify_fresh|]. done.
+ eapply sat_bind; [by apply modify_fresh|]. cbv beta. intros [] ? MI3 (? & ? & ->).
eapply sat_conseq; [by apply modify_fresh|]. done.
- intros [] h3 MI6 _.
mmodify MI7 m' Hm'.
+ repeat split; auto. simpl.
intros c [Hc|Hc]%elem_of_app; [by apply (MI_closed hb h3 mappingNode m' c)|].
rewrite !elem_of_cons, elem_of_nil in Hc. by destruct Hc as [->|[->|[]]].
+ by apply sat_ret.
Qed.

Lemma adjustNodeColumns_spec fuel' offset :
~ C -> forall node hb h, MI R C hb h -> R node ->
sat R C hb (adjustNodeColumns fuel' node offset) h (fun _ _ => True).
Proof.
intros HnC. induction fuel' as [|f IH]; intros node hb h H Hnode; simpl.
- by apply sat_diverge.
- mderef n Hn.
eapply sat_bind with (Q1 := fun _ h' => exists n', h' !! node = Some n' /\ Content n' = Content n).
+ destruct (offset <? Column n).
* eapply sat_conseq.
{ apply sat_modify; [done|]. intros n0 Hn0.
eapply modok_same; [done | done | done | done | by left | done | done]. }
simpl. intros [] h' _ (n0 & Hn0 & ->). exists (setColumn (int_sub (Column n) offset) n0).
split; [|simpl; congruence].
rewrite list_lookup_insert_eq; [done | by eapply lookup_lt_Some].
* apply sat_ret; eauto.
+ intros [] h1 H1 (n' & Hn' & Hc).
mderef n1 Hn1. assert (n1 = n') by congruence. subst n1. rewrite Hc.
assert (Hall : forall c, c ∈ Content n -> R c).
{ intros c Hin. rewrite <- Hc in Hin. by apply (MI_closed hb h1 node n' c). }
clear Hn Hn' Hn1 Hc H. revert h1 H1 Hall.
induction (Content n) as [|c cs IHc]; intros h1 H1 Hall; simpl.
* by apply sat_ret.
* eapply sat_bind.
{ apply IH; [done|]. apply Hall. rewrite elem_of_cons; auto. }
intros [] h2 H2 _. apply IHc; [done|].
intros c' Hin. apply Hall. rewrite elem_of_cons; auto.
Qed.

Lemma createOrReuseNode_spec node i originalContent baseIndent hb h :
MI R C hb h -> R node -> (forall c, c ∈ originalContent -> R c) ->
sat R C hb (createOrReuseNode node i originalContent baseIndent) h
(fun e _ => R e).
Proof.
intros H Hnode Ho. unfold createOrReuseNode.
pose proof (mi_len _ _ _ _ H) as Hlen.
destruct (originalContent !! i) as [e|] eqn:E.
- apply sat_ret; [done|]. apply Ho. by eapply list_elem_of_lookup_2.
- malloc MIa.
assert (Hk : (length hb <= length h)%nat) by lia.
assert (HRk : R (length h)) by (by eapply mi_new).
eapply sat_bind with (Q1 := fun _ _ => True).
+ destruct (0 <? length originalContent)%nat.
* mindex lastNode Hl. mderef ln Hln.
eapply sat_bind; [by apply modify_fresh|]. cbv beta. intros [] ? MI1 (? & ? & ->).
mderef ln' Hln'.
eapply sat_bind; [by apply modify_fresh|]. cbv beta. intros [] ? MI2 (? & ? & ->).
mderef ln'' Hln''.
eapply sat_conseq; [by apply modify_fresh|]. done.
* mderef n Hn.
eapply sat_conseq; [by apply modify_fresh|]. done.
+ intros [] h1 MI1 _. by apply sat_ret.
Qed.

Lemma createOrReusePair_spec node key originalContent baseIndent hb h :
MI R C hb h -> R node -> (forall c, c ∈ originalContent -> R c) ->
sat R C hb (createOrReusePair node key originalContent baseIndent) h
(fun kv _ => R (fst kv) /\ R (snd kv)).
Proof.
intros H Hnode Ho. unfold createOrReusePair.
pose proof (mi_len _ _ _ _ H) as Hlen.
eapply sat_bind; [by apply scanPairs_spec|]. cbv beta.
intros [[k v]|] h1 _ [-> Hf].
- apply sat_ret; [done|]. simpl. destruct (Hf k v eq_refl). auto.
- clear Hf. malloc MIa. malloc MIb.
set (k := length h). set (v := length (h ++ [_])).
assert (Hk : (length hb <= k)%nat) by (subst k; lia).
assert (Hv : (length hb <= v)%nat) by (subst v; rewrite length_app; simpl; lia).
assert (HRk : R k) by (by eapply mi_new).
assert (HRv : R v) by (by eapply mi_new).
eapply sat_bind with (Q1 := fun _ _ => True).
+ destruct (0 <? length originalContent)%nat.
* eapply sat_bind with (Q1 := fun _ h' => h' = (h ++ [_]) ++ [_]).
{ destruct (2 <=? length originalContent)%nat.
- eapply sat_conseq; [by apply sat_index|]. by intros ? ? _ [-> _].
- by apply sat_panic. }
intros lastKey ? _ ->.
mindex lastValue Hlv. mderef lk Hlk.
eapply sat_bind; [by apply modify_fresh|]. cbv beta. intros [] ? MI1 (? & ? & ->).
mderef lk1 Hlk1.
eapply sat_bind; [by apply modify_fresh|]. cbv beta. intros [] ? MI2 (? & ? & ->).
mderef lk2 Hlk2.
eapply sat_bind; [by apply modify_fresh|]. cbv beta. intros [] ? MI3 (? & ? & ->).
mderef lv Hlv0.
eapply sat_bind; [by apply modify_fresh|]. cbv beta. intros [] ? MI4 (? & ? & ->).
mderef lv1 Hlv1.
eapply sat_bind; [by apply modify_fresh|]. cbv beta. intros [] ? MI5 (? & ? & ->).
mderef lv2 Hlv2.
eapply sat_conseq; [by apply modify_fresh|]. done.
* mderef n Hn.
eapply sat_bind; [by apply modify_fresh|]. cbv beta. intros [] ? MI1 (? & ? & ->).
mderef n' Hn'.
eapply sat_conseq; [by apply modify_fresh|]. done.
+ intros [] h1 MI1 _. by apply sat_ret.
Qed.

(** Writing back the style and the column read when the call started. *)
Lemma restore_spec node n h0 h :
MI R C h0 h -> R node -> h0 !! node = Some n ->
sat R C h0 (restore node (Style n) (Column n)) h (fun _ _ => True).
Proof.
intros H Hnode Hn. unfold restore.
eapply sat_bind.
- apply sat_modify; [done|]. intros n1 Hn1.
destruct (mi_meta _ _ _ _ H node n Hn) as (n1' & Hn1' & Hm).
assert (n1' = n1) by congruence. subst n1'.
destruct Hm as (Hs & ?).
eapply modok_same; [done | done | done | done | by left | | done].
by repeat split.
- cbv beta. intros [] h1 H1 _.
eapply sat_conseq; [|done].
apply sat_modify; [done|]. intros n2 Hn2.
eapply modok_same; [done | done | done | done | by left | done |].
intros HC. destruct (mi_col _ _ _ _ H1 HC node n Hn) as (n2' & Hn2' & Hc).
simpl. congruence.
Qed.

Lemma NodeKind_eqb_eq a b : NodeKind_eqb a b = true <-> a = b.
Proof. destruct a, b; simpl; split; congruence. Qed.

Lemma documentChild_spec node hb h :
MI R C hb h -> R node ->
sat R C hb (documentChild fuel node) h (fun m _ => R m).
Proof.
intros H Hnode. unfold documentChild. mderef n Hn.
destruct (NodeKind_eqb (Kind n) DocumentNode) eqn:Ek; [|by apply sat_ret].
apply NodeKind_eqb_eq in Ek.
assert (HnC : ~ C) by (by eapply MI_nodoc).
destruct (negb _); [by apply sat_fail|].
mindex m Hm. mderef mn Hmn.
assert (HRm : R m).
{ apply (MI_closed hb h node n m); auto. by eapply list_elem_of_lookup_2. }
mmodify MI1 n1 Hn1.
{ eapply modok_same; [done | done | done | done | by left | done | done]. }
mmodify MI2 n2 Hn2.
{ eapply modok_same; [done | done | done | done | by left | done | done]. }
eapply sat_bind; [by apply adjustNodeColumns_spec|].
intros [] h3 MI3 _. by apply sat_ret.
Qed.

Lemma ensureMapping_spec mappingNode hb h :
MI R C hb h -> R mappingNode ->
sat R C hb (ensureMapping mappingNode) h (fun _ _ => True).
Proof.
intros H Hm. unfold ensureMapping. mderef m Hmn.
destruct (negb _); [|by apply sat_ret].
mmodify MI1 n1 Hn1.
{ eapply modok_same; [done | done | done | done | by right | done | done]. }
eapply sat_conseq; [|done]. apply sat_modify; [done|]. intros n2 Hn2.
eapply modok_same; [done | done | done | done | by left | done | done].
Qed.

Lemma baseIndentOf_spec node originalContent hb h :
MI R C hb h ->
sat R C hb (baseIndentOf node originalContent) h (fun _ h' => h' = h).
Proof.
intros H. unfold baseIndentOf.
destruct (0 <? length originalContent)%nat; [|by apply sat_ret].
mindex c0 Hc0. mderef n0 Hn0. mderef n Hn. by apply sat_ret.
Qed.

Section Rec.

Variable rec : loc -> reflect.Value -> M unit.

Definition rec_ok (v : reflect.Value) : Prop :=
forall node hb h, MI R C hb h -> R node ->
sat R C hb (rec node v) h (fun _ _ => True).

Lemma found_or_new_spec mappingNode key found hb h :
MI R C hb h -> R mappingNode ->
(forall k v, found = Some (k, v) -> R k /\ R v) ->
sat R C hb (match found with
| Some kv => ret kv
| None => appendNewPair mappingNode key
end) h (fun kv _ => R (snd kv)).
Proof.
intros H Hm Hf. destruct found as [[k v]|].
- apply sat_ret; [done|]. by apply (Hf k v).
- by apply appendNewPair_spec.
Qed.

Lemma updateField__spec mappingNode fieldType fieldValue hb h :
rec_ok fieldValue -> MI R C hb h -> R mappingNode ->
sat R C hb (updateField_ rec mappingNode fieldType fieldValue) h
(fun _ _ => True).
Proof.
intros Hrec H Hm. unfold updateField_.
eapply sat_bind; [by apply findNodes_spec|]. cbv beta.
intros found h1 _ [-> Hf].
eapply sat_bind; [by apply found_or_new_spec|]. cbv beta.
intros kv h1 MI1 Hkv. by apply Hrec.
Qed.

Lemma structFields__spec mappingNode fields :
Forall (fun f => rec_ok (snd f)) fields ->
forall hb h, MI R C hb h -> R mappingNode ->
sat R C hb (structFields_ rec mappingNode fields) h (fun _ _ => True).
Proof.
induction 1 as [|[ft fv] rest Hfv _ IH]; intros hb h H Hm; simpl.
- by apply sat_ret.
- eapply sat_bind.
+ apply sat_wrapErr. by apply updateField__spec.
+ intros [] h1 MI1 _. by apply IH.
Qed.

Lemma mapKeys__spec mappingNode entries :
Forall (fun e => rec_ok (snd e)) entries ->
forall hb h, MI R C hb h -> R mappingNode ->
sat R C hb (mapKeys_ rec mappingNode entries) h (fun _ _ => True).
Proof.
induction 1 as [|[key elem] rest Hfv _ IH]; intros hb h H Hm; simpl.
- by apply sat_ret.
- eapply sat_bind; [by apply findNodes_spec|]. cbv beta.
intros found h1 _ [-> Hf].
eapply sat_bind; [by apply found_or_new_spec|]. cbv beta.
intros kv h1 MI1 Hkv.
eapply sat_bind.
+ apply sat_wrapErr. by apply Hfv.
+ intros [] h2 MI2 _. by apply IH.
Qed.

Lemma updateYamlFromStruct__spec node fields hb h :
Forall (fun f => rec_ok (snd f)) fields ->
MI R C hb h -> R node ->
sat R C hb (updateYamlFromStruct_ fuel rec node (reflect.VStruct fields)) h
(fun _ _ => True).
Proof.
intros Hrec H Hnode. unfold updateYamlFromStruct_.
eapply sat_bind; [by apply documentChild_spec|]. cbv beta.
intros m h1 MI1 Hm.
eapply sat_bind; [by apply ensureMapping_spec|].
intros [] h2 MI2 _. simpl. by apply structFields__spec.
Qed.

Lemma sequenceElems__spec node originalContent baseIndent es :
Forall rec_ok es ->
forall i acc hb h, MI R C hb h -> R node ->
(forall c, c ∈ originalContent -> R c) ->
(forall c, c ∈ acc -> R c) ->
sat R C hb (sequenceElems_ rec node originalContent baseIndent i es acc) h
(fun newContent _ => forall c, c ∈ newContent -> R c).
Proof.
induction 1 as [|e rest He _ IH]; intros i acc hb h H Hnode Ho Hacc; simpl.
- by apply sat_ret.
- eapply sat_bind; [by apply createOrReuseNode_spec|]. cbv beta.
intros elemNode h1 MI1 He1.
eapply sat_bind.
+ apply sat_wrapErr. by apply He.
+ intros [] h2 MI2 _. apply IH; auto.
intros c [Hc|Hc]%elem_of_app; [auto|].
apply list_elem_of_singleton in Hc. by subst.
Qed.

Lemma mappingEntries__spec ro node originalContent baseIndent es :
Forall (fun e => rec_ok (snd e)) es ->
forall acc hb h, MI R C hb h -> R node ->
(forall c, c ∈ originalContent -> R c) ->
(forall c, c ∈ acc -> R c) ->
sat R C hb (mappingEntries_ rec ro node originalContent baseIndent es acc) h
(fun newContent _ => forall c, c ∈ newContent -> R c).
Proof.
induction 1 as [|[key elem] rest He _ IH]; intros acc hb h H Hnode Ho Hacc; simpl.
- by apply sat_ret.
- destruct ro; [by apply sat_panic|].
eapply sat_bind with (Q1 := fun a _ => a = key); [by apply sat_ret|]. cbv beta.
intros ? h0 MI0 ->.
eapply sat_bind; [by apply createOrReusePair_spec|]. cbv beta.
intros kv h1 MI1 [Hk Hv].
eapply sat_bind.
+ apply sat_wrapErr. by apply He.
+ intros [] h2 MI2 _. apply IH; auto.
intros c [Hc|Hc]%elem_of_app; [auto|].
rewrite !elem_of_cons, elem_of_nil in Hc. by destruct Hc as [->|[->|[]]].
Qed.

(** The three writes that end [updateSequence] and [updateMapping]. *)
Lemma install_spec node n newContent h0 h :
MI R C h0 h -> R node -> h0 !! node = Some n ->
(forall c, c ∈ newContent -> R c) ->
sat R C h0 (modify node (setContent newContent);;
modify node (setStyle (Style n));;
modify node (setColumn (Column n))) h (fun _ _ => True).
Proof.
intros H Hnode Hn Hc.
mmodify MI1 n1 Hn1.
{ repeat split; auto. }
by apply restore_spec.
Qed.

Lemma updateSequence__spec node elems hb h :
Forall rec_ok elems -> MI R C hb h -> R node ->
sat R C hb (updateSequence_ rec node elems) h (fun _ _ => True).
Proof.
intros Hrec H Hnode. apply sat_rebase; [done|].
assert (H0 : MI R C h h) by (apply MI_refl; apply H).
unfold updateSequence_. mderef n Hn.
assert (Ho : forall c, c ∈ Content n -> R c).
{ intros c Hc. by apply (MI_closed h h node n c). }
eapply sat_bind; [by apply modify_keep; auto|]. cbv beta.
intros [] ? MI1 (? & ? & ->).
eapply sat_bind; [by apply modify_keep; auto|]. cbv beta.
intros [] ? MI2 (? & ? & ->).
eapply sat_bind; [by apply baseIndentOf_spec|]. cbv beta.
intros baseIndent ? _ ->.
eapply sat_bind.
{ apply sequenceElems__spec; auto. by intros c ?%elem_of_nil. }
cbv beta. intros newContent h2 MI3 Hnew.
by apply install_spec.
Qed.

Lemma updateMapping__spec ro node entries hb h :
Forall (fun e => rec_ok (snd e)) entries -> MI R C hb h -> R node ->
sat R C hb (updateMapping_ rec ro node entries) h (fun _ _ => True).
Proof.
intros Hrec H Hnode. apply sat_rebase; [done|].
assert (H0 : MI R C h h) by (apply MI_refl; apply H).
unfold updateMapping_. mderef n Hn.
assert (Ho : forall c, c ∈ Content n -> R c).
{ intros c Hc. by apply (MI_closed h h node n c). }
eapply sat_bind; [by apply modify_keep; auto|]. cbv beta.
intros [] ? MI1 (? & ? & ->).
eapply sat_bind; [by apply modify_keep; auto|]. cbv beta.
intros [] ? MI2 (? & ? & ->).
eapply sat_bind; [by apply baseIndentOf_spec|]. cbv beta.
intros baseIndent ? _ ->.
eapply sat_bind.
{ apply mappingEntries__spec; auto. by intros c ?%elem_of_nil. }
cbv beta. intros newContent h2 MI3 Hnew.
by apply install_spec.
Qed.

Lemma setScalar_spec node tag text hb h :
MI R C hb h -> R node ->
sat R C hb (setScalar node tag text) h (fun _ _ => True).
Proof.
intros H Hnode. unfold setScalar.
mmodify MI1 n1 Hn1.
{ eapply modok_same; [done | done | done | done | by right | done | done]. }
mmodify MI2 n2 Hn2.
{ eapply modok_same; [done | done | done | done | by left | done | done]. }
eapply sat_conseq; [|done]. apply sat_modify; [done|]. intros n3 Hn3.
eapply modok_same; [done | done | done | done | by left | done | done].
Qed.

End Rec.

Lemma updateNodeRO_eq ro node value :
updateNodeRO fuel ro node value =
(let* n := deref node in
let originalStyle := Style n in
let originalColumn := Column n in
match value with
| reflect.VReadOnly v => updateNodeRO fuel true node v
| reflect.VInterface (Some elem) => updateNodeRO fuel ro node elem
| reflect.VInterface None => restore node originalStyle originalColumn
| reflect.VStruct fields =>
(if ro then panic unexportedPanic
 else updateYamlFromStruct_ fuel (updateNodeRO fuel false) node (reflect.VStruct fields));;
restore node originalStyle originalColumn
| reflect.VSlice elems =>
updateSequence_ (updateNodeRO fuel ro) node elems;;
restore node originalStyle originalColumn
| reflect.VMap _ entries =>
updateMapping_ (updateNodeRO fuel ro) ro node entries;;
restore node originalStyle originalColumn
| reflect.VInt i =>
setScalar node "!!int" (fmt_d i);;
restore node originalStyle originalColumn
| reflect.VFloat text =>
setScalar node "!!float" text;;
restore node originalStyle originalColumn
| reflect.VBool b =>
setScalar node "!!bool" (fmt_bool b);;
restore node originalStyle originalColumn
| reflect.VString s =>
setScalar node "!!str" s;;
restore node originalStyle originalColumn
| reflect.VPtr _ text | reflect.VOther _ text =>
(if ro then
   modify node (setKind ScalarNode);;
   modify node (setTag "!!str");;
   panic unexportedPanic
 else setScalar node "!!str" text);;
restore node originalStyle originalColumn
| reflect.VInvalid =>
modify node (setKind ScalarNode);;
modify node (setTag "!!str");;
panic "reflect: call of reflect.Value.Interface on zero Value"
end).
Proof. by destruct value as [[?|]| | | | | | | | | | |]. Qed.

(** [updateNode] on a value without the read-only flag. *)
Lemma updateNode_eq node value :
updateNode fuel node value =
(let* n := deref node in
let originalStyle := Style n in
let originalColumn := Column n in
match value with
| reflect.VReadOnly v => updateNodeRO fuel true node v
| reflect.VInterface (Some elem) => updateNode fuel node elem
| reflect.VInterface None => restore node originalStyle originalColumn
| reflect.VStruct fields =>
updateYamlFromStruct_ fuel (updateNode fuel) node (reflect.VStruct fields);;
restore node originalStyle originalColumn
| reflect.VSlice elems =>
updateSequence_ (updateNode fuel) node elems;;
restore node originalStyle originalColumn
| reflect.VMap _ entries =>
updateMapping_ (updateNode fuel) false node entries;;
restore node originalStyle originalColumn
| reflect.VInt i =>
setScalar node "!!int" (fmt_d i);;
restore node originalStyle originalColumn
| reflect.VFloat text =>
setScalar node "!!float" text;;
restore node originalStyle originalColumn
| reflect.VBool b =>
setScalar node "!!bool" (fmt_bool b);;
restore node originalStyle originalColumn
| reflect.VString s =>
setScalar node "!!str" s;;
restore node originalStyle originalColumn
| reflect.VPtr _ text | reflect.VOther _ text =>
setScalar node "!!str" text;;
restore node originalStyle originalColumn
| reflect.VInvalid =>
modify node (setKind ScalarNode);;
modify node (setTag "!!str");;
panic "reflect: call of reflect.Value.Interface on zero Value"
end).
Proof. by destruct value as [[?|]| | | | | | | | | | |]. Qed.

(** A value with the read-only flag where [Interface()] is called on it:
after the kind and the tag are written, the call panics. *)
Lemma noInterface_spec node hb h :
MI R C hb h -> R node ->
sat R C hb (modify node (setKind ScalarNode);;
      modify node (setTag "!!str");;
      panic unexportedPanic) h (fun (_ : unit) _ => True).
Proof.
intros H Hnode.
eapply sat_bind; [by apply modify_keep; auto|]. cbv beta.
intros [] ? MI1 (? & ? & ->).
eapply sat_bind; [by apply modify_keep; auto|]. cbv beta.
intros [] ? MI2 (? & ? & ->). by apply sat_panic.
Qed.

(** The specification of [updateNode]: it works inside the region,
whatever the read-only flag. *)
Lemma updateNodeRO_spec value : forall ro, rec_ok (updateNodeRO fuel ro) value.
Proof.
induction value as [|elem IHvalue| | | fields IHf | elems IHe
         | keyKind entries IHm | | | | | | |v IHv] using reflect.Value_ind;
intros ro node hb h HMI Hnode; rewrite updateNodeRO_eq;
(apply sat_rebase; [done|]);
assert (H0 : MI R C h h) by (apply MI_refl; apply HMI);
mderef n Hn; cbv zeta.
- by apply restore_spec.
- by apply IHvalue.
- eapply sat_bind; [destruct ro; [by apply noInterface_spec | by apply setScalar_spec]|].
intros [] h1 MI1 _. by apply restore_spec.
- eapply sat_bind; [destruct ro; [by apply noInterface_spec | by apply setScalar_spec]|].
intros [] h1 MI1 _. by apply restore_spec.
- eapply sat_bind.
+ destruct ro; [by apply sat_panic|]. apply updateYamlFromStruct__spec; [|done|done].
eapply Forall_impl; [exact IHf|]. intros f Hf. apply Hf.
+ intros [] h1 MI1 _. by apply restore_spec.
- eapply sat_bind.
+ apply updateSequence__spec; [|done|done].
eapply Forall_impl; [exact IHe|]. intros e He. apply He.
+ intros [] h1 MI1 _. by apply restore_spec.
- eapply sat_bind.
+ apply updateMapping__spec; [|done|done].
eapply Forall_impl; [exact IHm|]. intros e He. apply He.
+ intros [] h1 MI1 _. by apply restore_spec.
- eapply sat_bind; [by apply setScalar_spec|]. intros [] h1 MI1 _. by apply restore_spec.
- eapply sat_bind; [by apply setScalar_spec|]. intros [] h1 MI1 _. by apply restore_spec.
- eapply sat_bind; [by apply setScalar_spec|]. intros [] h1 MI1 _. by apply restore_spec.
- eapply sat_bind; [by apply setScalar_spec|]. intros [] h1 MI1 _. by apply restore_spec.
- eapply sat_bind; [destruct ro; [by apply noInterface_spec | by apply setScalar_spec]|].
intros [] h1 MI1 _. by apply restore_spec.
- eapply sat_bind; [by apply modify_keep; auto|]. cbv beta.
intros [] ? MI1 (? & ? & ->).
eapply sat_bind; [by apply modify_keep; auto|]. cbv beta.
intros [] ? MI2 (? & ? & ->). by apply sat_panic.
- by apply IHv.
Qed.

Lemma updateNode_spec value : rec_ok (updateNode fuel) value.
Proof. exact (updateNodeRO_spec value false). Qed.

End Specs.

(** ** No pointer is left dangling

    A pointer past the end of the store is not allocated.  The engine puts
    into the [Content] of a node only pointers it has read from the
    [Content] of that node or has allocated itself, so a merge leaves no
    pointer dangling that was not dangling in the same node before. *)

(** [grows hb h]: [h] is no shorter than [hb], and a pointer that a node
    of [h] holds and that is not allocated in [h] is held by the same node
    in [hb]. *)
Definition grows (hb h : heap) : Prop :=
  (length hb <= length h)%nat /\
  forall (x : loc) n (c : loc),
    h !! x = Some n -> c ∈ Content n -> (length h <= c)%nat ->
    exists n0, hb !! x = Some n0 /\ c ∈ Content n0.

Lemma grows_refl h : grows h h.
Proof. split; [done|]. intros x n c Hx Hc _. by exists n. Qed.

Lemma grows_trans h0 h1 h2 : grows h0 h1 -> grows h1 h2 -> grows h0 h2.
Proof.
  intros [L1 E1] [L2 E2]. split; [lia|]. intros x n c Hx Hc Hl.
  destruct (E2 x n c Hx Hc Hl) as (n1 & Hx1 & Hc1).
  apply (E1 x n1 c Hx1 Hc1). lia.
Qed.

Lemma grows_modify hb (h : heap) (l : loc) n n' :
  grows hb h -> h !! l = Some n ->
  (forall c : loc, c ∈ Content n' ->
     (c < length h)%nat \/ c ∈ Content n \/
     exists n0, hb !! l = Some n0 /\ c ∈ Content n0) ->
  grows hb (<[l := n']> h).
Proof.
  intros [L E] Hl Hc. split; [by rewrite length_insert|].
  intros x m c Hx Hcm Hlen. rewrite length_insert in Hlen.
  destruct (decide (x = l)) as [->|Hne].
  - rewrite list_lookup_insert_eq in Hx by (by eapply lookup_lt_Some).
    injection Hx as <-. destruct (Hc c Hcm) as [Hlt | [Hold | Hb]].
    + lia.
    + by apply (E l n c).
    + done.
  - rewrite list_lookup_insert_ne in Hx by done. by apply (E x m c).
Qed.

Lemma grows_alloc hb (h : heap) n : grows hb h -> Content n = [] -> grows hb (h ++ [n]).
Proof.
  intros [L E] Hc. split; [rewrite length_app; simpl; lia|].
  intros x m c Hx Hcm Hlen. rewrite length_app in Hlen. simpl in Hlen.
  destruct (decide (x < length h)%nat) as [Hlt|Hge].
  - rewrite lookup_app_l in Hx by done. apply (E x m c); [done | done | lia].
  - rewrite lookup_app_r in Hx by lia.
    destruct (x - length h)%nat eqn:Ex; simpl in Hx; [|done].
    injection Hx as <-. rewrite Hc in Hcm. by apply elem_of_nil in Hcm.
Qed.

(** [tidy hb m h Q]: run from [h], the computation [m] leaves a store that
    is no shorter and in which a pointer held by a node is allocated,
    unless the node held it in [hb] already; when it returns, [Q] holds. *)
Definition tidy {A} (hb : heap) (m : M A) (h : heap) (Q : A -> heap -> Prop) : Prop :=
  match m h with
  | (r, h') =>
      grows hb h' /\ (length h <= length h')%nat /\
      match r with
      | Ret a => Q a h'
      | _ => True
      end
  end.

Lemma tidy_ret {A} hb (a : A) h (Q : A -> heap -> Prop) :
  grows hb h -> Q a h -> tidy hb (ret a) h Q.
Proof. intros H HQ. unfold tidy, ret. by split; [|split; [lia|]]. Qed.

Lemma tidy_bind {A B} hb (m : M A) (k : A -> M B) h Q1 (Q : B -> heap -> Prop) :
  tidy hb m h Q1 ->
  (forall a h1, grows hb h1 -> (length h <= length h1)%nat -> Q1 a h1 ->
                tidy hb (k a) h1 Q) ->
  tidy hb (bind m k) h Q.
Proof.
  unfold tidy, bind. destruct (m h) as [[a|e|p|] h1]; intros (H1 & H2 & H3) Hk; auto.
  specialize (Hk a h1 H1 H2 H3). destruct (k a h1) as [r h'].
  destruct Hk as (? & ? & ?). split; [done|]. split; [lia | done].
Qed.

Lemma tidy_conseq {A} hb (m : M A) h (Q Q' : A -> heap -> Prop) :
  tidy hb m h Q ->
  (forall a h', grows hb h' -> (length h <= length h')%nat -> Q a h' -> Q' a h') ->
  tidy hb m h Q'.
Proof.
  unfold tidy. destruct (m h) as [[a|e|p|] h1]; intros (H1 & H2 & H3) Hk; auto.
Qed.

Lemma tidy_rebase {A} hb (m : M A) h (Q : A -> heap -> Prop) :
  grows hb h -> tidy h m h Q -> tidy hb m h Q.
Proof.
  unfold tidy. destruct (m h) as [r h1]. intros H0 (H1 & H2 & H3).
  split; [by eapply grows_trans | done].
Qed.

Lemma tidy_fail {A} hb msg h (Q : A -> heap -> Prop) :
  grows hb h -> tidy hb (fail msg) h Q.
Proof. intros H. by split; [|split; [simpl; lia|]]. Qed.

Lemma tidy_panic {A} hb msg h (Q : A -> heap -> Prop) :
  grows hb h -> tidy hb (panic msg) h Q.
Proof. intros H. by split; [|split; [simpl; lia|]]. Qed.

Lemma tidy_diverge {A} hb h (Q : A -> heap -> Prop) :
  grows hb h -> tidy hb diverge h Q.
Proof. intros H. by split; [|split; [simpl; lia|]]. Qed.

Lemma tidy_wrapErr {A} hb pre_ (m : M A) h (Q : A -> heap -> Prop) :
  tidy hb m h Q -> tidy hb (wrapErr pre_ m) h Q.
Proof. unfold tidy, wrapErr. by destruct (m h) as [[a|e|p|] h1]. Qed.

Lemma tidy_deref hb l h :
  grows hb h -> tidy hb (deref l) h (fun n h' => h' = h /\ h !! l = Some n).
Proof.
  intros H. unfold tidy, deref. destruct (h !! l); by split; [|split; [lia|]].
Qed.

Lemma tidy_index hb s i h :
  grows hb h -> tidy hb (index s i) h (fun x h' => h' = h /\ s !! i = Some x).
Proof.
  intros H. unfold tidy, index, ret, panic. destruct (s !! i); by split; [|split; [lia|]].
Qed.

Lemma tidy_modify hb l f h :
  grows hb h ->
  (forall n, h !! l = Some n -> forall c : loc, c ∈ Content (f n) ->
     (c < length h)%nat \/ c ∈ Content n \/
     exists n0, hb !! l = Some n0 /\ c ∈ Content n0) ->
  tidy hb (modify l f) h
    (fun _ h' => exists n, h !! l = Some n /\ h' = <[l := f n]> h).
Proof.
  intros H Hf. unfold tidy, modify. destruct (h !! l) as [n|] eqn:E; [|done].
  split; [by eapply grows_modify; eauto|]. rewrite length_insert. split; [done|].
  by exists n.
Qed.

(** A write that keeps [Content]. *)
Lemma tidy_set hb l f h :
  grows hb h -> (forall n, Content (f n) = Content n) ->
  tidy hb (modify l f) h
    (fun _ h' => exists n, h !! l = Some n /\ h' = <[l := f n]> h).
Proof.
  intros H Hf. apply tidy_modify; [done|]. intros n _ c Hc. rewrite Hf in Hc. auto.
Qed.

Lemma tidy_alloc hb n h :
  grows hb h -> Content n = [] ->
  tidy hb (alloc n) h (fun x h' => x = length h /\ h' = h ++ [n]).
Proof.
  intros H Hc. unfold tidy, alloc. split; [by apply grows_alloc|].
  rewrite length_app. simpl. split; [lia | done].
Qed.

Ltac tderef n Hn :=
  eapply tidy_bind; [by apply tidy_deref | cbv beta; intros n ? _ _ [-> Hn]].
Ltac tindex x Hx :=
  eapply tidy_bind; [by apply tidy_index | cbv beta; intros x ? _ _ [-> Hx]].
Ltac tset :=
  eapply tidy_bind;
  [by apply tidy_set | cbv beta; intros [] ? ? ? (? & ? & ->)].
Ltac talloc :=
  eapply tidy_bind;
  [by apply tidy_alloc | cbv beta; intros ? ? ? ? [-> ->]].

Section Tidy.

Variable fuel : nat.

Lemma scanPairs_tidy key content hb h :
  grows hb h ->
  tidy hb (scanPairs key content) h
    (fun o h' => h' = h /\ forall k v, o = Some (k, v) -> k ∈ content /\ v ∈ content).
Proof.
  intros H. induction content as [|x|x y l IH] using list_pair_ind.
  - simpl. apply tidy_ret; [done|]. split; [done | by intros k v [=]].
  - simpl. tderef n Hn. destruct (String.eqb (Value n) key).
    + by apply tidy_panic.
    + apply tidy_ret; [done|]. split; [done | by intros k v [=]].
  - simpl. tderef n Hn. destruct (String.eqb (Value n) key).
    + apply tidy_ret; [done|]. split; [done|]. intros k v [= <- <-].
      rewrite !elem_of_cons. auto.
    + eapply tidy_conseq; [apply IH|]. simpl. intros o h' _ _ [-> Ho].
      split; [done|]. intros k v Hkv. destruct (Ho k v Hkv) as [? ?].
      rewrite !elem_of_cons. auto.
Qed.

Lemma findNodes_tidy mappingNode key hb h :
  grows hb h -> tidy hb (findNodes mappingNode key) h (fun _ h' => h' = h).
Proof.
  intros H. unfold findNodes. tderef n Hn.
  eapply tidy_conseq; [by apply scanPairs_tidy|]. by intros o h' _ _ [-> _].
Qed.

Lemma appendNewPair_tidy mappingNode key hb h :
  grows hb h -> tidy hb (appendNewPair mappingNode key) h (fun _ _ => True).
Proof.
  intros H. unfold appendNewPair.
  talloc. talloc. tderef m Hmn.
  eapply tidy_bind with (Q1 := fun _ _ => True).
  - destruct (0 <? length (Content m))%nat.
    + tindex c0 Hc0. tderef n0 Hn0. tset. tderef n0' Hn0'. tset.
      tindex c1 Hc1. tderef n1 Hn1. tset. tderef n1' Hn1'.
      eapply tidy_conseq; [by apply tidy_set|]. done.
    + tset. eapply tidy_conseq; [by apply tidy_set|]. done.
  - intros [] h3 E6 Hlen _.
    eapply tidy_bind.
    + apply tidy_modify; [done|]. intros n Hn c Hc. simpl in Hc.
      apply elem_of_app in Hc as [Hc|Hc]; [auto|]. left.
      rewrite !length_app in Hlen. simpl in Hlen.
      rewrite !elem_of_cons, elem_of_nil in Hc.
      destruct Hc as [->|[->|[]]]; rewrite ?length_app; simpl; lia.
    + cbv beta. intros [] ? E7 ? _. by apply tidy_ret.
Qed.

Lemma adjustNodeColumns_tidy fuel' offset :
  forall node hb h, grows hb h ->
  tidy hb (adjustNodeColumns fuel' node offset) h (fun _ _ => True).
Proof.
  induction fuel' as [|f IH]; intros node hb h H; simpl.
  - by apply tidy_diverge.
  - tderef n Hn.
    eapply tidy_bind with (Q1 := fun _ _ => True).
    + destruct (offset <? Column n).
      * eapply tidy_conseq; [by apply tidy_set|]. done.
      * by apply tidy_ret.
    + intros [] h1 E1 _ _. tderef n1 Hn1.
      clear Hn1 H. revert h1 E1.
      induction (Content n1) as [|c cs IHc]; intros h1 E1; simpl.
      * by apply tidy_ret.
      * eapply tidy_bind; [by apply IH|]. intros [] h2 E2 _ _. by apply IHc.
Qed.

Lemma createOrReuseNode_tidy node i originalContent baseIndent hb h :
  grows hb h ->
  tidy hb (createOrReuseNode node i originalContent baseIndent) h
    (fun e h' => e ∈ originalContent \/ (e < length h')%nat).
Proof.
  intros H. unfold createOrReuseNode.
  destruct (originalContent !! i) as [e|] eqn:E.
  - apply tidy_ret; [done|]. left. by eapply list_elem_of_lookup_2.
  - talloc.
    eapply tidy_bind with (Q1 := fun _ _ => True).
    + destruct (0 <? length originalContent)%nat.
      * tindex lastNode Hl. tderef ln Hln. tset. tderef ln' Hln'. tset.
        tderef ln'' Hln''. eapply tidy_conseq; [by apply tidy_set|]. done.
      * tderef n Hn. eapply tidy_conseq; [by apply tidy_set|]. done.
    + intros [] h1 E1 Hlen _. apply tidy_ret; [done|]. right.
      rewrite length_app in Hlen. simpl in Hlen. lia.
Qed.

Lemma createOrReusePair_tidy node key originalContent baseIndent hb h :
  grows hb h ->
  tidy hb (createOrReusePair node key originalContent baseIndent) h
    (fun kv h' => (fst kv ∈ originalContent \/ (fst kv < length h')%nat) /\
                  (snd kv ∈ originalContent \/ (snd kv < length h')%nat)).
Proof.
  intros H. unfold createOrReusePair.
  eapply tidy_bind; [by apply scanPairs_tidy|]. cbv beta.
  intros [[k v]|] h1 _ _ [-> Hf].
  - apply tidy_ret; [done|]. simpl. destruct (Hf k v eq_refl). auto.
  - clear Hf. talloc. talloc.
    eapply tidy_bind with (Q1 := fun _ _ => True).
    + destruct (0 <? length originalContent)%nat.
      * eapply tidy_bind with (Q1 := fun _ h' => h' = (h ++ [_]) ++ [_]).
        { destruct (2 <=? length originalContent)%nat.
          - eapply tidy_conseq; [by apply tidy_index|]. by intros ? ? _ _ [-> _].
          - by apply tidy_panic. }
        intros lastKey ? _ _ ->.
        tindex lastValue Hlv. tderef lk Hlk. tset. tderef lk1 Hlk1. tset.
        tderef lk2 Hlk2. tset. tderef lv Hlv0. tset. tderef lv1 Hlv1. tset.
        tderef lv2 Hlv2. eapply tidy_conseq; [by apply tidy_set|]. done.
      * tderef n Hn. tset. tderef n' Hn'.
        eapply tidy_conseq; [by apply tidy_set|]. done.
    + intros [] h1 E1 Hlen _. apply tidy_ret; [done|]. simpl.
      rewrite !length_app in Hlen. simpl in Hlen. rewrite ?length_app. simpl.
      split; right; lia.
Qed.

Lemma restore_tidy node s c hb h :
  grows hb h -> tidy hb (restore node s c) h (fun _ _ => True).
Proof.
  intros H. unfold restore. tset. eapply tidy_conseq; [by apply tidy_set|]. done.
Qed.

Lemma setScalar_tidy node tag text hb h :
  grows hb h -> tidy hb (setScalar node tag text) h (fun _ _ => True).
Proof.
  intros H. unfold setScalar. tset. tset.
  eapply tidy_conseq; [by apply tidy_set|]. done.
Qed.

Lemma documentChild_tidy node hb h :
  grows hb h -> tidy hb (documentChild fuel node) h (fun _ _ => True).
Proof.
  intros H. unfold documentChild. tderef n Hn.
  destruct (NodeKind_eqb (Kind n) DocumentNode); [|by apply tidy_ret].
  destruct (negb _); [by apply tidy_fail|].
  tindex m Hm. tderef mn Hmn. tset. tset.
  eapply tidy_bind; [by apply adjustNodeColumns_tidy|].
  intros [] h3 E3 _ _. by apply tidy_ret.
Qed.

Lemma ensureMapping_tidy mappingNode hb h :
  grows hb h -> tidy hb (ensureMapping mappingNode) h (fun _ _ => True).
Proof.
  intros H. unfold ensureMapping. tderef m Hmn.
  destruct (negb _); [|by apply tidy_ret].
  tset. eapply tidy_conseq; [by apply tidy_set|]. done.
Qed.

Lemma baseIndentOf_tidy node originalContent hb h :
  grows hb h -> tidy hb (baseIndentOf node originalContent) h (fun _ h' => h' = h).
Proof.
  intros H. unfold baseIndentOf.
  destruct (0 <? length originalContent)%nat; [|by apply tidy_ret].
  tindex c0 Hc0. tderef n0 Hn0. tderef n Hn. by apply tidy_ret.
Qed.

Section Rec.

Variable rec : loc -> reflect.Value -> M unit.

Definition rec_tidy (v : reflect.Value) : Prop :=
  forall node hb h, grows hb h -> tidy hb (rec node v) h (fun _ _ => True).

Lemma found_or_new_tidy mappingNode key (found : option (loc * loc)) hb h :
  grows hb h ->
  tidy hb (match found with
           | Some kv => ret kv
           | None => appendNewPair mappingNode key
           end) h (fun _ _ => True).
Proof.
  intros H. destruct found as [[k v]|].
  - by apply tidy_ret.
  - by apply appendNewPair_tidy.
Qed.

Lemma updateField__tidy mappingNode fieldType fieldValue hb h :
  rec_tidy fieldValue -> grows hb h ->
  tidy hb (updateField_ rec mappingNode fieldType fieldValue) h (fun _ _ => True).
Proof.
  intros Hrec H. unfold updateField_.
  eapply tidy_bind; [by apply findNodes_tidy|]. cbv beta.
  intros found h1 _ _ ->.
  eapply tidy_bind; [by apply found_or_new_tidy|]. cbv beta.
  intros kv h1 E1 _ _. by apply Hrec.
Qed.

Lemma structFields__tidy mappingNode fields :
  Forall (fun f => rec_tidy (snd f)) fields ->
  forall hb h, grows hb h ->
  tidy hb (structFields_ rec mappingNode fields) h (fun _ _ => True).
Proof.
  induction 1 as [|[ft fv] rest Hfv _ IH]; intros hb h H; simpl.
  - by apply tidy_ret.
  - eapply tidy_bind.
    + apply tidy_wrapErr. by apply updateField__tidy.
    + intros [] h1 E1 _ _. by apply IH.
Qed.

Lemma mapKeys__tidy mappingNode entries :
  Forall (fun e => rec_tidy (snd e)) entries ->
  forall hb h, grows hb h ->
  tidy hb (mapKeys_ rec mappingNode entries) h (fun _ _ => True).
Proof.
  induction 1 as [|[key elem] rest Hfv _ IH]; intros hb h H; simpl.
  - by apply tidy_ret.
  - eapply tidy_bind; [by apply findNodes_tidy|]. cbv beta.
    intros found h1 _ _ ->.
    eapply tidy_bind; [by apply found_or_new_tidy|]. cbv beta.
    intros kv h1 E1 _ _.
    eapply tidy_bind.
    + apply tidy_wrapErr. by apply Hfv.
    + intros [] h2 E2 _ _. by apply IH.
Qed.

Lemma updateYamlFromStruct__tidy node fields hb h :
  Forall (fun f => rec_tidy (snd f)) fields -> grows hb h ->
  tidy hb (updateYamlFromStruct_ fuel rec node (reflect.VStruct fields)) h
    (fun _ _ => True).
Proof.
  intros Hrec H. unfold updateYamlFromStruct_.
  eapply tidy_bind; [by apply documentChild_tidy|]. cbv beta.
  intros m h1 E1 _ _.
  eapply tidy_bind; [by apply ensureMapping_tidy|].
  intros [] h2 E2 _ _. simpl. by apply structFields__tidy.
Qed.

Lemma sequenceElems__tidy node originalContent baseIndent es :
  Forall rec_tidy es ->
  forall i acc hb h, grows hb h ->
  (forall c : loc, c ∈ acc -> c ∈ originalContent \/ (c < length h)%nat) ->
  tidy hb (sequenceElems_ rec node originalContent baseIndent i es acc) h
    (fun newContent h' =>
       forall c : loc, c ∈ newContent -> c ∈ originalContent \/ (c < length h')%nat).
Proof.
  induction 1 as [|e rest He _ IH]; intros i acc hb h H Hacc; simpl.
  - by apply tidy_ret.
  - eapply tidy_bind; [by apply createOrReuseNode_tidy|]. cbv beta.
    intros elemNode h1 E1 L1 He1.
    eapply tidy_bind.
    + apply tidy_wrapErr. by apply He.
    + intros [] h2 E2 L2 _. apply IH; [done|].
      intros c [Hc|Hc]%elem_of_app.
      * destruct (Hacc c Hc); [auto | right; lia].
      * apply list_elem_of_singleton in Hc. subst.
        destruct He1; [auto | right; lia].
Qed.

Lemma mappingEntries__tidy ro node originalContent baseIndent es :
  Forall (fun e => rec_tidy (snd e)) es ->
  forall acc hb h, grows hb h ->
  (forall c : loc, c ∈ acc -> c ∈ originalContent \/ (c < length h)%nat) ->
  tidy hb (mappingEntries_ rec ro node originalContent baseIndent es acc) h
    (fun newContent h' =>
       forall c : loc, c ∈ newContent -> c ∈ originalContent \/ (c < length h')%nat).
Proof.
  induction 1 as [|[key elem] rest He _ IH]; intros acc hb h H Hacc; simpl.
  - by apply tidy_ret.
  - destruct ro; [by apply tidy_panic|].
    eapply tidy_bind with (Q1 := fun a h' => a = key /\ h' = h);
      [by apply tidy_ret|]. cbv beta.
    intros ? h0 _ _ [-> ->].
    eapply tidy_bind; [by apply createOrReusePair_tidy|]. cbv beta.
    intros kv h1 E1 L1 [Hk Hv].
    eapply tidy_bind.
    + apply tidy_wrapErr. by apply He.
    + intros [] h2 E2 L2 _. apply IH; [done|].
      intros c [Hc|Hc]%elem_of_app.
      * destruct (Hacc c Hc); [auto | right; lia].
      * rewrite !elem_of_cons, elem_of_nil in Hc.
        destruct Hc as [->|[->|[]]]; [destruct Hk | destruct Hv]; auto; right; lia.
Qed.

(** The three writes that end [updateSequence] and [updateMapping]. *)
Lemma install_tidy node n newContent s c h0 h :
  grows h0 h -> h0 !! node = Some n ->
  (forall x : loc, x ∈ newContent -> x ∈ Content n \/ (x < length h)%nat) ->
  tidy h0 (modify node (setContent newContent);;
           modify node (setStyle s);;
           modify node (setColumn c)) h (fun _ _ => True).
Proof.
  intros H Hn Hc.
  eapply tidy_bind.
  - apply tidy_modify; [done|]. intros n1 Hn1 x Hx. simpl in Hx.
    destruct (Hc x Hx); [|auto]. right. right. by exists n.
  - cbv beta. intros [] ? E1 _ _. by apply restore_tidy.
Qed.

Lemma updateSequence__tidy node elems hb h :
  Forall rec_tidy elems -> grows hb h ->
  tidy hb (updateSequence_ rec node elems) h (fun _ _ => True).
Proof.
  intros Hrec H. apply tidy_rebase; [done|].
  pose proof (grows_refl h) as E0.
  unfold updateSequence_. tderef n Hn. tset. tset.
  eapply tidy_bind; [by apply baseIndentOf_tidy|]. cbv beta.
  intros baseIndent ? _ _ ->.
  eapply tidy_bind.
  { apply sequenceElems__tidy; [done | done |]. by intros c ?%elem_of_nil. }
  cbv beta. intros newContent h2 E3 _ Hnew.
  by apply (install_tidy node n).
Qed.

Lemma updateMapping__tidy ro node entries hb h :
  Forall (fun e => rec_tidy (snd e)) entries -> grows hb h ->
  tidy hb (updateMapping_ rec ro node entries) h (fun _ _ => True).
Proof.
  intros Hrec H. apply tidy_rebase; [done|].
  pose proof (grows_refl h) as E0.
  unfold updateMapping_. tderef n Hn. tset. tset.
  eapply tidy_bind; [by apply baseIndentOf_tidy|]. cbv beta.
  intros baseIndent ? _ _ ->.
  eapply tidy_bind.
  { apply mappingEntries__tidy; [done | done |]. by intros c ?%elem_of_nil. }
  cbv beta. intros newContent h2 E3 _ Hnew.
  by apply (install_tidy node n).
Qed.

End Rec.

Lemma updateNodeRO_tidy value : forall ro, rec_tidy (updateNodeRO fuel ro) value.
Proof.
  induction value as [|elem IHvalue| | | fields IHf | elems IHe
                     | keyKind entries IHm | | | | | | |v IHv] using reflect.Value_ind;
    intros ro node hb h H; rewrite updateNodeRO_eq;
    tderef n Hn; cbv zeta.
  - by apply restore_tidy.
  - by apply IHvalue.
  - eapply tidy_bind with (Q1 := fun _ _ => True).
    + destruct ro; [|by apply setScalar_tidy].
      tset. tset. by apply tidy_panic.
    + intros [] h1 E1 _ _. by apply restore_tidy.
  - eapply tidy_bind with (Q1 := fun _ _ => True).
    + destruct ro; [|by apply setScalar_tidy].
      tset. tset. by apply tidy_panic.
    + intros [] h1 E1 _ _. by apply restore_tidy.
  - eapply tidy_bind with (Q1 := fun _ _ => True).
    + destruct ro; [by apply tidy_panic|]. apply updateYamlFromStruct__tidy; [|done].
      eapply Forall_impl; [exact IHf|]. intros f Hf. apply Hf.
    + intros [] h1 E1 _ _. by apply restore_tidy.
  - eapply tidy_bind.
    + apply updateSequence__tidy; [|done].
      eapply Forall_impl; [exact IHe|]. intros e He. apply He.
    + intros [] h1 E1 _ _. by apply restore_tidy.
  - eapply tidy_bind.
    + apply updateMapping__tidy; [|done].
      eapply Forall_impl; [exact IHm|]. intros e He. apply He.
    + intros [] h1 E1 _ _. by apply restore_tidy.
  - eapply tidy_bind; [by apply setScalar_tidy|]. intros [] h1 E1 _ _. by apply restore_tidy.
  - eapply tidy_bind; [by apply setScalar_tidy|]. intros [] h1 E1 _ _. by apply restore_tidy.
  - eapply tidy_bind; [by apply setScalar_tidy|]. intros [] h1 E1 _ _. by apply restore_tidy.
  - eapply tidy_bind; [by apply setScalar_tidy|]. intros [] h1 E1 _ _. by apply restore_tidy.
  - eapply tidy_bind with (Q1 := fun _ _ => True).
    + destruct ro; [|by apply setScalar_tidy].
      tset. tset. by apply tidy_panic.
    + intros [] h1 E1 _ _. by apply restore_tidy.
  - tset. tset. by apply tidy_panic.
  - by apply IHv.
Qed.

End Tidy.

(** Whatever the value and however the merge ends, [updateNode] leaves no
    pointer dangling that was not dangling in the same node before. *)
Lemma updateNode_grows fuel node value (h : heap) r h' :
  updateNode fuel node value h = (r, h') -> grows h h'.
Proof.
  intros E. pose proof (updateNodeRO_tidy fuel value false node h h (grows_refl h)) as H.
  unfold tidy in H. unfold updateNode in E. rewrite E in H. apply H.
Qed.

(** ** Runs of the engine *)

Lemma bind_Ret {A B} (m : M A) (k : A -> M B) h b h' :
  bind m k h = (Ret b, h') ->
  exists a h1, m h = (Ret a, h1) /\ k a h1 = (Ret b, h').
Proof.
  unfold bind. destruct (m h) as [[a|e|p|] h1]; intros H; try discriminate.
  by exists a, h1.
Qed.

Lemma bind_run {A B} (m : M A) (k : A -> M B) h a h1 :
  m h = (Ret a, h1) -> bind m k h = k a h1.
Proof. unfold bind. by intros ->. Qed.

Lemma ret_Ret {A} (a b : A) h h' : ret a h = (Ret b, h') -> b = a /\ h' = h.
Proof. by intros [= -> ->]. Qed.

Lemma deref_Ret l h n h' : deref l h = (Ret n, h') -> h' = h /\ h !! l = Some n.
Proof. unfold deref. destruct (h !! l); by intros [= -> ->]. Qed.

Lemma deref_run l (h : heap) n : h !! l = Some n -> deref l h = (Ret n, h).
Proof. unfold deref. by intros ->. Qed.

Lemma index_Ret s i h x h' : index s i h = (Ret x, h') -> h' = h /\ s !! i = Some x.
Proof. unfold index. destruct (s !! i); by intros [= -> ->]. Qed.

Lemma index_run (s : list loc) i (h : heap) x :
  s !! i = Some x -> index s i h = (Ret x, h).
Proof. unfold index. by intros ->. Qed.

Lemma modify_Ret l f h u h' :
  modify l f h = (Ret u, h') -> exists n, h !! l = Some n /\ h' = <[l := f n]> h.
Proof. unfold modify. destruct (h !! l) as [n|]; intros [= <-]. by exists n. Qed.

Lemma modify_run l f (h : heap) n :
  h !! l = Some n -> modify l f h = (Ret tt, <[l := f n]> h).
Proof. unfold modify. by intros ->. Qed.

Lemma alloc_Ret n h x h' : alloc n h = (Ret x, h') -> x = length h /\ h' = h ++ [n].
Proof. by intros [= <- <-]. Qed.

Lemma wrapErr_Ret {A} pre_ (m : M A) h a h' :
  wrapErr pre_ m h = (Ret a, h') -> m h = (Ret a, h').
Proof. unfold wrapErr. by destruct (m h) as [[?|?|?|] ?]. Qed.

Lemma wrapErr_run {A} pre_ (m : M A) h a h' :
  m h = (Ret a, h') -> wrapErr pre_ m h = (Ret a, h').
Proof. unfold wrapErr. by intros ->. Qed.

Lemma keyText_Ret ro key h key' h' :
  keyText ro key h = (Ret key', h') -> ro = false /\ key' = key /\ h' = h.
Proof. destruct ro; [done|]. by intros [= -> ->]. Qed.

Lemma sat_run {A} R C hb (m : M A) h Q r h' :
  sat R C hb m h Q -> m h = (r, h') ->
  MI R C hb h' /\
  match r with Ret a => Q a h' | Panic _ => True | Err _ | Diverge => ~ C end.
Proof. unfold sat. intros H E. by rewrite E in H. Qed.

(** With the whole store as the region, every store is fit for a call. *)
Lemma pre_all C (h : heap) :
  (C -> forall (x : loc) n, h !! x = Some n -> Kind n <> DocumentNode) ->
  pre (fun _ => True) C h.
Proof. intros H. split; auto. intros HC x n _. by apply H. Qed.

Lemma lookup_insert_same (h : heap) (l : loc) n n' :
  h !! l = Some n -> <[l := n']> h !! l = Some n'.
Proof. intros H. apply list_lookup_insert_eq. by eapply lookup_lt_Some. Qed.


Lemma restore_run node (h : heap) n s c :
  h !! node = Some n ->
  restore node s c h = (Ret tt, <[node := setColumn c (setStyle s n)]> h).
Proof.
  intros Hn. unfold restore.
  rewrite (bind_run _ _ _ _ _ (modify_run _ _ _ _ Hn)).
  rewrite (modify_run _ _ _ _ (lookup_insert_same _ _ _ _ Hn)).
  by rewrite list_insert_insert_eq.
Qed.

Lemma setScalar_run node (h : heap) n tag text :
  h !! node = Some n ->
  setScalar node tag text h =
  (Ret tt, <[node := setValue text (setTag tag (setKind ScalarNode n))]> h).
Proof.
  intros Hn. unfold setScalar.
  rewrite (bind_run _ _ _ _ _ (modify_run _ _ _ _ Hn)).
  rewrite (bind_run _ _ _ _ _ (modify_run _ _ _ _ (lookup_insert_same _ _ _ _ Hn))).
  rewrite list_insert_insert_eq.
  rewrite (modify_run _ _ _ _ (lookup_insert_same _ _ _ _ Hn)).
  by rewrite list_insert_insert_eq.
Qed.

(** [%d] prints the decimal numeral of the integer. *)
Lemma fmt_d_decimal i :
  option_map Z.of_int (NilZero.int_of_string (fmt_d i)) = Some i.
Proof.
  unfold fmt_d. rewrite NilZero.isi.
  - simpl. by rewrite DecimalZ.of_to.
  - destruct i; simpl; try discriminate.
    intros [= H]. by apply DecimalPos.Unsigned.to_uint_nonnil in H.
  - destruct i; simpl; try discriminate.
    intros [= H]. by apply DecimalPos.Unsigned.to_uint_nonnil in H.
Qed.

(** C5, as the code has it.  Merging an integer of a signed kind ([int],
    [int8], [int16], [int32], [int64]), read from an unexported field or
    not, into a node makes it a Scalar node with tag [!!int] whose value is
    the decimal text of the integer; the node's style and column are those
    it had before the merge, whatever its kind was.  Nothing else in the
    store changes. *)
Theorem updateNode_int_scalar fuel node i (h : heap) n :
  h !! node = Some n ->
  exists n',
    updateNode fuel node (reflect.VInt i) h = (Ret tt, <[node := n']> h) /\
    updateNode fuel node (reflect.VReadOnly (reflect.VInt i)) h =
    (Ret tt, <[node := n']> h) /\
    Kind n' = ScalarNode /\ Tag n' = "!!int" /\ Value n' = fmt_d i /\
    option_map Z.of_int (NilZero.int_of_string (Value n')) = Some i /\
    Style n' = Style n /\ Column n' = Column n.
Proof.
  intros Hn.
  exists (setColumn (Column n) (setStyle (Style n)
            (setValue (fmt_d i) (setTag "!!int" (setKind ScalarNode n))))).
  assert (Hrun : forall ro,
            updateNodeRO fuel ro node (reflect.VInt i) h =
            (Ret tt, <[node := setColumn (Column n) (setStyle (Style n)
                        (setValue (fmt_d i) (setTag "!!int" (setKind ScalarNode n))))]> h)).
  { intros ro. rewrite updateNodeRO_eq.
    rewrite (bind_run _ _ _ _ _ (deref_run _ _ _ Hn)). cbv zeta.
    rewrite (bind_run _ _ _ _ _ (setScalar_run _ _ _ _ _ Hn)).
    rewrite (restore_run _ _ _ _ _ (lookup_insert_same _ _ _ _ Hn)).
    by rewrite list_insert_insert_eq. }
  split; [exact (Hrun false)|].
  split; [|by repeat split; try apply fmt_d_decimal].
  rewrite updateNode_eq.
  rewrite (bind_run _ _ _ _ _ (deref_run _ _ _ Hn)). cbv zeta.
  exact (Hrun true).
Qed.

Definition sample_scalar (v : string) (tag : string) (line col : Z) : Node :=
  mkNode ScalarNode 0 tag v "" None [] "" "" "" line col.

Lemma updateNode_int_scalar_witness :
  exists n',
    updateNode 0 0%nat (reflect.VInt 21)
      [mkNode MappingNode 1 "!!map" "" "" None [] "" "" "" 2 6] =
      (Ret tt, [n']) /\
    Kind n' = ScalarNode /\ Tag n' = "!!int" /\ Value n' = "21" /\
    Style n' = 1 /\ Column n' = 6.
Proof.
  destruct (updateNode_int_scalar 0 0%nat 21
              [mkNode MappingNode 1 "!!map" "" "" None [] "" "" "" 2 6]
              (mkNode MappingNode 1 "!!map" "" "" None [] "" "" "" 2 6) eq_refl)
    as (n' & Hrun & _ & Hk & Ht & Hv & _ & Hs & Hc).
  exists n'. repeat split; assumption.
Defined.

(** C5 as stated fails: an integer of kind [uint] is written by the default
    arm of [updateNode], which tags it [!!str]. *)
Lemma unsigned_int_tagged_str :
  exists n',
    updateNode 0 0%nat (reflect.VOther reflect.Uint "7") [sample_scalar "1" "!!int" 1 1] =
    (Ret tt, [n']) /\
    Kind n' = ScalarNode /\ Value n' = "7" /\ Tag n' = "!!str" /\ Tag n' <> "!!int".
Proof. eexists. split; [vm_compute; reflexivity|]. by repeat split. Qed.

(** ** Specifications of the entry points *)

Lemma Forall_all {A} (P : A -> Prop) (l : list A) : (forall a, P a) -> Forall P l.
Proof. intros H. apply Forall_forall. auto. Qed.

(** [updateYamlFromStruct] on any data, with no assumption on the kinds of
    the nodes: errors are possible. *)
Lemma updateYamlFromStruct_spec_any R fuel node data hb h :
  MI R False hb h -> R node ->
  sat R False hb (updateYamlFromStruct fuel node data) h (fun _ _ => True).
Proof.
  intros H Hnode. unfold updateYamlFromStruct, updateYamlFromStruct_. cbv zeta.
  eapply sat_bind; [by apply documentChild_spec|]. cbv beta.
  intros m h1 MI1 Hm.
  eapply sat_bind; [by apply ensureMapping_spec|].
  intros [] h2 MI2 _.
  destruct (reflect.Indirect data); simpl; try (by apply sat_fail; auto).
  - apply structFields__spec; auto.
    apply Forall_all. intros f. apply updateNode_spec.
  - destruct (negb _); [by apply sat_fail; auto|].
    apply mapKeys__spec; auto.
    apply Forall_all. intros f. apply updateNode_spec.
Qed.

Lemma resetRootColumns_spec R root hb h :
  MI R False hb h -> R root ->
  sat R False hb (resetRootColumns root) h (fun _ _ => True).
Proof.
  intros H Hroot. unfold resetRootColumns.
  mmodify MI1 r0 Hr0.
  { eapply modok_same; [done | done | done | done | by left | done | done]. }
  mderef r Hr. destruct (0 <? length (Content r))%nat; [|by apply sat_ret].
  mindex c0 Hc0.
  eapply sat_conseq; [apply sat_modify; [done|]|done].
  intros n Hn.
  eapply modok_same; [done | | done | done | by left | done | done].
  eapply MI_closed; [done | exact Hroot | exact Hr |]. by eapply list_elem_of_lookup_2.
Qed.

Lemma UpdateYAML_nodes_spec R fuel root newData hb h :
  MI R False hb h -> R root ->
  sat R False hb (UpdateYAML_nodes fuel root newData) h (fun _ _ => True).
Proof.
  intros H Hroot. unfold UpdateYAML_nodes.
  eapply sat_bind.
  - apply sat_wrapErr. by apply updateYamlFromStruct_spec_any.
  - intros [] h1 MI1 _. by apply resetRootColumns_spec.
Qed.

(** The comments a node carries. *)
Definition comments (n : Node) : string * string * string :=
  (HeadComment n, LineComment n, FootComment n).

Definition keeps_comments (h h' : heap) : Prop :=
  forall (x : loc) n, h !! x = Some n ->
  exists n', h' !! x = Some n' /\ comments n' = comments n.

Lemma MI_keeps_comments R C h h' : MI R C h h' -> keeps_comments h h'.
Proof.
  intros H x n Hx. destruct (mi_meta _ _ _ _ H x n Hx) as (n' & Hn' & Hm).
  exists n'. split; [done|]. unfold comments.
  destruct Hm as (_ & -> & -> & -> & _). done.
Qed.

(** C1. Whatever value is merged and however the merge ends, every node of
    the store keeps its head, line and foot comments: this holds for
    [updateNode], for [updateYamlFromStruct] and for the whole of
    [UpdateYAML] between the parser and the encoder; in particular for the
    merge of a Record. *)
Theorem merge_keeps_comments fuel node value (h : heap) (x : loc) n :
  h !! x = Some n ->
  (exists n', snd (updateNode fuel node value h) !! x = Some n' /\
              comments n' = comments n) /\
  (exists n', snd (updateYamlFromStruct fuel node value h) !! x = Some n' /\
              comments n' = comments n) /\
  (exists n', snd (UpdateYAML_nodes fuel node value h) !! x = Some n' /\
              comments n' = comments n).
Proof.
  intros Hx.
  assert (Hp : pre (fun _ => True) False h) by (by apply pre_all).
  pose proof (MI_refl _ _ _ Hp) as H0.
  split; [|split].
  - pose proof (updateNode_spec (fun _ => True) False fuel value node h h H0 I) as Hs.
    destruct (updateNode fuel node value h) as [r h'] eqn:E.
    destruct (sat_run _ _ _ _ _ _ _ _ Hs E) as [Hs' _].
    by apply (MI_keeps_comments _ _ _ _ Hs').
  - pose proof (updateYamlFromStruct_spec_any (fun _ => True) fuel node value h h H0 I) as Hs.
    destruct (updateYamlFromStruct fuel node value h) as [r h'] eqn:E.
    destruct (sat_run _ _ _ _ _ _ _ _ Hs E) as [Hs' _].
    by apply (MI_keeps_comments _ _ _ _ Hs').
  - pose proof (UpdateYAML_nodes_spec (fun _ => True) fuel node value h h H0 I) as Hs.
    destruct (UpdateYAML_nodes fuel node value h) as [r h'] eqn:E.
    destruct (sat_run _ _ _ _ _ _ _ _ Hs E) as [Hs' _].
    by apply (MI_keeps_comments _ _ _ _ Hs').
Qed.

(** The document [name: Bob  # nickname] / [age: 20] as the parser builds it. *)
Definition sample_person : heap :=
  [ mkNode DocumentNode 0 "" "" "" None [1%nat] "" "" "" 1 1;
    mkNode MappingNode 0 "!!map" "" "" None [2; 3; 4; 5]%nat "" "" "" 1 1;
    sample_scalar "name" "!!str" 1 1;
    mkNode ScalarNode 0 "!!str" "Bob" "" None [] "" "# nickname" "" 1 7;
    sample_scalar "age" "!!str" 2 1;
    sample_scalar "20" "!!int" 2 6 ].

Definition sample_person_value : reflect.Value :=
  reflect.VStruct
    [ (reflect.mkField "Name" "name", reflect.VString "Bob");
      (reflect.mkField "Age" "age", reflect.VInt 21) ].

Lemma merge_keeps_comments_witness :
  exists n', snd (UpdateYAML_nodes 3 0%nat sample_person_value sample_person) !! 3%nat
             = Some n' /\
             comments n' = ("", "# nickname", "").
Proof.
  exact (proj2 (proj2 (merge_keeps_comments 3 0%nat sample_person_value sample_person
                         3%nat _ eq_refl))).
Defined.


(** ** Sequences: positional reuse *)

Ltac minv_step H :=
  lazymatch type of H with
  | bind (deref _) _ _ = (Ret _, _) =>
      let n := fresh "n" in let hx := fresh "hx" in let Hn := fresh "Hn" in
      apply bind_Ret in H as (n & hx & Hn & H); apply deref_Ret in Hn as [-> Hn]
  | bind (index _ _) _ _ = (Ret _, _) =>
      let c := fresh "c" in let hx := fresh "hx" in let Hc := fresh "Hc" in
      apply bind_Ret in H as (c & hx & Hc & H); apply index_Ret in Hc as [-> Hc]
  | bind (modify _ _) _ _ = (Ret _, _) =>
      let u := fresh "u" in let hx := fresh "hx" in let Hm := fresh "Hm" in
      let n := fresh "n" in
      apply bind_Ret in H as (u & hx & Hm & H); apply modify_Ret in Hm as (n & Hm & ->)
  | bind (alloc _) _ _ = (Ret _, _) =>
      let x := fresh "x" in let hx := fresh "hx" in let Ha := fresh "Ha" in
      apply bind_Ret in H as (x & hx & Ha & H); apply alloc_Ret in Ha as [-> ->]
  | bind (ret _) _ _ = (Ret _, _) =>
      let x := fresh "x" in let hx := fresh "hx" in let Ha := fresh "Ha" in
      apply bind_Ret in H as (x & hx & Ha & H); apply ret_Ret in Ha as [-> ->]
  | deref _ _ = (Ret _, _) => apply deref_Ret in H as [-> H]
  | index _ _ _ = (Ret _, _) => apply index_Ret in H as [-> H]
  | modify _ _ _ = (Ret _, _) =>
      let n := fresh "n" in apply modify_Ret in H as (n & H & ->)
  | ret _ _ = (Ret _, _) => apply ret_Ret in H as [-> ->]
  end.
Ltac minv H := repeat (cbv beta zeta in H; minv_step H).

(** A read after a write to the same pointer gives what was written. *)
Ltac read_writes :=
  repeat match goal with
         | H : <[?l := ?v]> ?h !! ?l = Some ?n |- _ =>
             rewrite list_lookup_insert_eq in H
               by (rewrite ?length_insert; eapply lookup_lt_Some; eassumption);
             injection H as <-
         end.

(** Two reads of the same pointer in the same store give the same node. *)
Ltac same_reads :=
  repeat match goal with
         | H1 : ?h !! ?l = Some ?a, H2 : ?h !! ?l = Some ?b |- _ =>
             assert (a = b) by congruence; subst a; clear H1
         end.

Lemma length_mono_run {A} (m : M A) h r h' :
  sat (fun _ => True) False h m h (fun _ _ => True) -> m h = (r, h') ->
  (length h <= length h')%nat.
Proof. intros Hs E. destruct (sat_run _ _ _ _ _ _ _ _ Hs E) as [Hs' _]. apply Hs'. Qed.

Lemma updateNode_length fuel node value (h : heap) r h' :
  updateNode fuel node value h = (r, h') -> (length h <= length h')%nat.
Proof.
  apply length_mono_run. apply updateNode_spec; [|done].
  apply MI_refl. by apply pre_all.
Qed.

Lemma createOrReuseNode_Ret node i originalContent baseIndent (h : heap) e h' :
  createOrReuseNode node i originalContent baseIndent h = (Ret e, h') ->
  (originalContent !! i = Some e /\ h' = h) \/
  (originalContent !! i = None /\ e = length h /\ length h' = S (length h)).
Proof.
  unfold createOrReuseNode. destruct (originalContent !! i) as [x|] eqn:E.
  - intros [= -> ->]. by left.
  - intros H. right. split; [done|].
    minv H. apply bind_Ret in H as ([] & h1 & H1 & H). minv H. split; [done|].
    destruct (0 <? length originalContent)%nat; minv H1;
      rewrite ?length_insert, length_app; simpl; lia.
Qed.

Section Sequence.

Variable fuel : nat.

(** The loop of [updateSequence]: the new children are the original ones
from index [i] on, as far as they go, followed by nodes that the loop
allocates, pairwise distinct. *)
Lemma sequenceElems_Ret node originalContent baseIndent es :
forall i acc (h : heap) newContent h',
sequenceElems_ (updateNode fuel) node originalContent baseIndent i es acc h
= (Ret newContent, h') ->
(length h <= length h')%nat /\
exists fresh,
newContent = acc ++ take (length es) (drop i originalContent) ++ fresh /\
length fresh = (length es - (length originalContent - i))%nat /\
Forall (fun l => (length h <= l < length h')%nat) fresh /\
NoDup fresh.
Proof.
induction es as [|e rest IH]; intros i acc h newContent h' H; simpl in H.
- apply ret_Ret in H as [-> ->]. split; [done|]. exists []. simpl.
rewrite app_nil_r. repeat split; auto. apply NoDup_nil_2.
- apply bind_Ret in H as (elemNode & h1 & Hc & H).
apply bind_Ret in H as ([] & h2 & Hu & H).
apply wrapErr_Ret in Hu. apply updateNode_length in Hu.
apply IH in H as (Hlen & fresh & -> & Hfl & Hfr & Hnd).
apply createOrReuseNode_Ret in Hc as [[Hi ->] | (Hi & -> & Hl1)].
+ split; [lia|]. exists fresh. repeat split.
* rewrite <- app_assoc. simpl. f_equal.
rewrite (drop_S _ _ _ Hi). done.
* apply lookup_lt_Some in Hi. simpl. lia.
* eapply Forall_impl; [exact Hfr|]. simpl. lia.
* done.
+ split; [lia|]. apply lookup_ge_None in Hi.
exists (length h :: fresh). repeat split.
* rewrite <- app_assoc. simpl.
rewrite !drop_ge by lia. by rewrite !take_nil.
* simpl. lia.
* apply Forall_cons. split; [lia|].
eapply Forall_impl; [exact Hfr|]. simpl. lia.
* apply NoDup_cons. split; [|done].
intros Hin. eapply Forall_forall in Hfr; [|exact Hin]. simpl in Hfr. lia.
Qed.

Lemma baseIndentOf_Ret node originalContent (h : heap) b h' :
baseIndentOf node originalContent h = (Ret b, h') -> h' = h.
Proof.
unfold baseIndentOf. destruct (0 <? length originalContent)%nat; intros H.
- by minv H.
- by apply ret_Ret in H as [_ ->].
Qed.

(** C4. A Sequence merge of [N] elements into a node with [M] children
leaves the node with [N] children: the first [min N M] are the
original children at the same indices (the same pointers, whatever
they hold), followed by [N - M] nodes that did not exist before the
merge and are pairwise distinct; the original children from index [N]
on are no longer children. *)
Theorem updateNode_sequence_positional node elems (h : heap) n h' :
h !! node = Some n ->
updateNode fuel node (reflect.VSlice elems) h = (Ret tt, h') ->
exists n' fresh,
h' !! node = Some n' /\
Content n' = take (length elems) (Content n) ++ fresh /\
length (Content n') = length elems /\
(forall i, (i < length elems)%nat -> (i < length (Content n))%nat ->
   Content n' !! i = Content n !! i) /\
length fresh = (length elems - length (Content n))%nat /\
Forall (fun l => (length h <= l < length h')%nat) fresh /\
NoDup fresh.
Proof.
intros Hn H. rewrite updateNode_eq in H. minv H.
assert (n0 = n) by congruence. subst n0.
apply bind_Ret in H as ([] & h1 & Hs & H).
unfold updateSequence_ in Hs. minv Hs.
apply bind_Ret in Hs as (baseIndent & h2 & Hb & Hs).
apply baseIndentOf_Ret in Hb as ->.
apply bind_Ret in Hs as (newContent & h3 & Hl & Hs).
apply sequenceElems_Ret in Hl as (Hlen & fresh & -> & Hfl & Hfr & Hnd).
minv Hs. unfold restore in H. minv H. same_reads. read_writes.
rewrite !length_insert in *. simpl in *. rewrite drop_0, Nat.sub_0_r in *.
assert (Hlt : (length (take (length elems) (Content n) ++ fresh) = length elems)%nat).
{ rewrite length_app, length_take. lia. }
eexists _, fresh. split; [|split; [|split; [|split; [|split; [|split]]]]].
- apply list_lookup_insert_eq. rewrite !length_insert. by eapply lookup_lt_Some.
- done.
- done.
- intros i Hi1 Hi2. simpl. rewrite lookup_app_l by (rewrite length_take; lia).
by rewrite lookup_take_lt.
- done.
- done.
- done.
Qed.

End Sequence.

(** The sequence [[a, b]] under node 0. *)
Definition sample_seq : heap :=
  [ mkNode SequenceNode 0 "!!seq" "" "" None [1; 2]%nat "" "" "" 1 1;
    sample_scalar "a" "!!str" 1 3;
    sample_scalar "b" "!!str" 2 3 ].

Lemma updateNode_sequence_positional_witness :
  exists n' fresh,
    snd (updateNode 0 0%nat
           (reflect.VSlice [reflect.VInt 7; reflect.VInt 8; reflect.VInt 9])
           sample_seq) !! 0%nat = Some n' /\
    Content n' = [1; 2]%nat ++ fresh /\
    length (Content n') = 3%nat /\
    length fresh = 1%nat /\
    Forall (fun l => (3 <= l < 4)%nat) fresh.
Proof.
  destruct (updateNode_sequence_positional 0 0%nat
              [reflect.VInt 7; reflect.VInt 8; reflect.VInt 9] sample_seq _
              (snd (updateNode 0 0%nat
                      (reflect.VSlice [reflect.VInt 7; reflect.VInt 8; reflect.VInt 9])
                      sample_seq)) eq_refl eq_refl)
    as (n' & fresh & H1 & H2 & H3 & _ & H5 & H6 & _).
  exists n', fresh. repeat split; assumption.
Defined.

(** ** Trees in the store

    The parser builds a tree: every node has one parent.  [tree_ok h t]
    says that the pointers of [t] are laid out in the store [h] as the tree
    [t], no pointer occurring twice. *)

#[local] Unset Elimination Schemes.
Inductive tree := TNode (l : loc) (kids : list tree).
#[local] Set Elimination Schemes.

Section tree_ind.
Variable P : tree -> Prop.
Hypothesis HNode : forall l kids, Forall P kids -> P (TNode l kids).

Fixpoint tree_ind (t : tree) : P t :=
match t with
| TNode l kids =>
HNode l kids
((fix all (ks : list tree) : Forall P ks :=
match ks with
| [] => @List.Forall_nil _ _
| k :: rest => @List.Forall_cons _ _ k rest (tree_ind k) (all rest)
end) kids)
end.
End tree_ind.

Definition root (t : tree) : loc := match t with TNode l _ => l end.

Fixpoint locs (t : tree) : list loc :=
  match t with TNode l kids => l :: flat_map locs kids end.

Fixpoint depth (t : tree) : nat :=
  match t with TNode _ kids => S (list_max (map depth kids)) end.

Fixpoint shape (h : heap) (t : tree) : Prop :=
  match t with
  | TNode l kids =>
      (exists n, h !! l = Some n /\ Content n = map root kids) /\
      (fix all (ks : list tree) : Prop :=
         match ks with
         | [] => True
         | k :: rest => shape h k /\ all rest
         end) kids
  end.

Definition tree_ok (h : heap) (t : tree) : Prop := shape h t /\ NoDup (locs t).

Lemma shape_unfold h l kids :
  shape h (TNode l kids) <->
  (exists n, h !! l = Some n /\ Content n = map root kids) /\ Forall (shape h) kids.
Proof.
  simpl. apply and_iff_compat_l. induction kids as [|k rest IH].
  - split; [by constructor | done].
  - rewrite Forall_cons. by rewrite IH.
Qed.

Lemma root_in_locs t : root t ∈ locs t.
Proof. destruct t. simpl. apply elem_of_cons. by left. Qed.

Lemma elem_of_flat_map_locs (x : loc) kids :
  x ∈ flat_map locs kids <-> exists k, k ∈ kids /\ x ∈ locs k.
Proof.
  rewrite list_elem_of_In, in_flat_map. split; intros (k & Hk & Hx); exists k.
  - by rewrite !list_elem_of_In.
  - by rewrite <- !list_elem_of_In.
Qed.

Lemma shape_lookup h t x : shape h t -> x ∈ locs t -> is_Some (h !! x).
Proof.
  revert x. induction t as [l kids IH] using tree_ind. intros x Hs Hx.
  apply shape_unfold in Hs as [(n & Hn & _) Hk].
  simpl in Hx. apply elem_of_cons in Hx as [-> | Hx]; [by eexists|].
  apply elem_of_flat_map_locs in Hx as (k & Hk1 & Hk2).
  rewrite Forall_forall in IH, Hk. apply (IH k Hk1 x); [by apply Hk | done].
Qed.

Lemma shape_closed h t x n c :
  shape h t -> x ∈ locs t -> h !! x = Some n -> c ∈ Content n -> c ∈ locs t.
Proof.
  revert x n c. induction t as [l kids IH] using tree_ind. intros x n c Hs Hx Hn Hc.
  apply shape_unfold in Hs as [(n0 & Hn0 & Hc0) Hk].
  simpl. apply elem_of_cons. right. apply elem_of_flat_map_locs.
  simpl in Hx. apply elem_of_cons in Hx as [-> | Hx].
  - assert (n0 = n) by congruence. subst n0. rewrite Hc0 in Hc.
    apply list_elem_of_fmap in Hc as (k & -> & Hk1).
    exists k. split; [done | apply root_in_locs].
  - apply elem_of_flat_map_locs in Hx as (k & Hk1 & Hk2). exists k. split; [done|].
    rewrite Forall_forall in IH, Hk. apply (IH k Hk1 x n c); auto.
Qed.

(** The region of a tree: its pointers and the pointers not allocated yet. *)
Definition region (h : heap) (t : tree) : loc -> Prop :=
  fun x => x ∈ locs t \/ (length h <= x)%nat.

Lemma pre_region C h t :
  shape h t ->
  (C -> forall x n, x ∈ locs t -> h !! x = Some n -> Kind n <> DocumentNode) ->
  pre (region h t) C h.
Proof.
  intros Hs Hd. split.
  - intros x n c [Hx | Hx] Hn Hc.
    + left. by eapply shape_closed.
    + apply lookup_lt_Some in Hn. lia.
  - intros x Hx. by right.
  - intros HC x n [Hx | Hx] Hn.
    + by eapply Hd.
    + apply lookup_lt_Some in Hn. lia.
Qed.

(** Stores that differ only in fields other than [Content], and in which no
    node has become a Document. *)
Definition same_links (h h' : heap) : Prop :=
  length h' = length h /\
  forall (x : loc) n, h !! x = Some n ->
    exists n', h' !! x = Some n' /\ Content n' = Content n /\
               (Kind n' = Kind n \/ Kind n' <> DocumentNode).

Lemma same_links_refl h : same_links h h.
Proof. split; [done|]. intros x n Hn. exists n. auto. Qed.

Lemma same_links_trans h1 h2 h3 :
  same_links h1 h2 -> same_links h2 h3 -> same_links h1 h3.
Proof.
  intros [L1 H1] [L2 H2]. split; [congruence|]. intros x n Hn.
  destruct (H1 x n Hn) as (n2 & Hn2 & Hc2 & Hk2).
  destruct (H2 x n2 Hn2) as (n3 & Hn3 & Hc3 & Hk3).
  exists n3. split; [done|]. split; [congruence|].
  destruct Hk3 as [Hk3|Hk3]; [|by right].
  destruct Hk2 as [Hk2|Hk2]; [left; congruence | right; congruence].
Qed.

Lemma same_links_insert (h : heap) (l : loc) n n' :
  h !! l = Some n -> Content n' = Content n ->
  (Kind n' = Kind n \/ Kind n' <> DocumentNode) ->
  same_links h (<[l := n']> h).
Proof.
  intros Hn Hc Hk. split; [by rewrite length_insert|]. intros x nx Hx.
  destruct (decide (x = l)) as [->|Hne].
  - rewrite list_lookup_insert_eq by (by eapply lookup_lt_Some).
    assert (nx = n) by congruence. subst nx. eauto.
  - rewrite list_lookup_insert_ne by done. exists nx. auto.
Qed.

Lemma same_links_shape h h' t : same_links h h' -> shape h t -> shape h' t.
Proof.
  intros [_ Hl]. induction t as [l kids IH] using tree_ind. intros Hs.
  apply shape_unfold in Hs as [(n & Hn & Hc) Hk]. apply shape_unfold. split.
  - destruct (Hl l n Hn) as (n' & Hn' & Hc' & _). exists n'. split; [done | congruence].
  - rewrite Forall_forall in IH, Hk. apply Forall_forall. intros k Hin.
    apply IH; auto.
Qed.

Lemma same_links_pre R C h h' :
  same_links h h' -> pre R C h -> pre R C h'.
Proof.
  intros [Hlen Hl] [Pc Pf Pn].
  assert (Hback : forall (x : loc) n', h' !! x = Some n' ->
            exists n, h !! x = Some n /\ Content n' = Content n /\
                      (Kind n' = Kind n \/ Kind n' <> DocumentNode)).
  { intros x n' Hx. destruct (h !! x) as [n|] eqn:E.
    - destruct (Hl x n E) as (n2 & Hn2 & ? & ?).
      assert (n2 = n') by congruence. subst n2. eauto.
    - apply lookup_lt_Some in Hx. apply lookup_ge_None in E. lia. }
  split.
  - intros x n' c Hx Hn' Hc. destruct (Hback x n' Hn') as (n & Hn & Hcn & _).
    rewrite Hcn in Hc. eauto.
  - intros x Hx. apply Pf. lia.
  - intros HC x n' Hx Hn'. destruct (Hback x n' Hn') as (n & Hn & _ & [Hk|Hk]); [|done].
    rewrite Hk. eauto.
Qed.

(** ** [adjustNodeColumns] on a tree *)

(** "subtract offset if greater than it" *)
Definition adj (offset c : Z) : Z := if offset <? c then int_sub c offset else c.

(** [h'] is [h] with the column of every node of [ls] adjusted. *)
Definition adjusted (offset : Z) (h h' : heap) (ls : list loc) : Prop :=
  length h' = length h /\
  (forall x : loc, x ∉ ls -> h' !! x = h !! x) /\
  (forall (x : loc) n, x ∈ ls -> h !! x = Some n ->
     h' !! x = Some (setColumn (adj offset (Column n)) n)).

Lemma adjusted_same_links offset h h' ls : adjusted offset h h' ls -> same_links h h'.
Proof.
  intros (Hlen & Hout & Hin). split; [done|]. intros x n Hn.
  destruct (decide (x ∈ ls)) as [Hx|Hx].
  - rewrite (Hin x n Hx Hn). eexists. split; [done|]. simpl. auto.
  - rewrite (Hout x Hx). exists n. auto.
Qed.

Lemma setColumn_id (n : Node) : setColumn (Column n) n = n.
Proof. by destruct n. Qed.

Lemma NoDup_flat_map_cons k (rest : list tree) :
  NoDup (flat_map locs (k :: rest)) ->
  NoDup (locs k) /\ NoDup (flat_map locs rest) /\
  (forall x, x ∈ locs k -> x ∈ flat_map locs rest -> False).
Proof.
  simpl. intros (H1 & H2 & H3)%NoDup_app. repeat split; auto.
Qed.

Section Adjust.

Variable offset : Z.

(** The outcome of [adjustNodeColumns] at the root of a tree: it returns
with every column of the tree adjusted, unless the recursion depth is
smaller than the depth of the tree. *)
Definition adjust_outcome (fuel : nat) (t : tree) (h : heap) : Prop :=
match adjustNodeColumns fuel (root t) offset h with
| (Ret _, h') => adjusted offset h h' (locs t)
| (Diverge, _) => (fuel < depth t)%nat
| _ => False
end.

Lemma adjust_kids fuel :
(forall t h, tree_ok h t -> adjust_outcome fuel t h) ->
forall kids h, Forall (shape h) kids -> NoDup (flat_map locs kids) ->
match forEach (fun c => adjustNodeColumns fuel c offset) (map root kids) h with
| (Ret _, h') => adjusted offset h h' (flat_map locs kids)
| (Diverge, _) => (fuel < list_max (map depth kids))%nat
| _ => False
end.
Proof.
intros IH. induction kids as [|k rest IHk]; intros h Hs Hnd.
- simpl. repeat split; auto. intros x n Hx. by apply elem_of_nil in Hx.
- apply Forall_cons in Hs as [Hk Hrest].
apply NoDup_flat_map_cons in Hnd as (Hnk & Hnr & Hdis).
simpl. unfold bind.
pose proof (IH k h (conj Hk Hnk)) as Ho. unfold adjust_outcome in Ho.
destruct (adjustNodeColumns fuel (root k) offset h) as [[[]|e|p|] h1];
try done; [|lia].
assert (Hsl : same_links h h1) by (by eapply adjusted_same_links).
assert (Hs1 : Forall (shape h1) rest).
{ eapply Forall_impl; [exact Hrest|]. intros t. by apply same_links_shape. }
specialize (IHk h1 Hs1 Hnr).
destruct (forEach _ (map root rest) h1) as [[[]|e|p|] h2]; try done; [|lia].
destruct Ho as (L1 & O1 & I1). destruct IHk as (L2 & O2 & I2).
split; [congruence|]. split.
+ intros x Hx. rewrite elem_of_app in Hx.
rewrite O2, O1; auto.
+ intros x n Hx Hn. apply elem_of_app in Hx.
destruct (decide (x ∈ locs k)) as [Hk1|Hk1].
* rewrite O2; [by apply I1|]. intros Hr. by apply (Hdis x).
* destruct Hx as [Hx|Hx]; [done|]. apply I2; [done|]. by rewrite O1.
Qed.

Lemma adjust_tree fuel : forall t h, tree_ok h t -> adjust_outcome fuel t h.
Proof.
induction fuel as [|f IH]; intros [l kids] h [Hs Hnd]; unfold adjust_outcome.
- simpl. lia.
- apply shape_unfold in Hs as [(n & Hn & Hc) Hk].
simpl in Hnd. apply NoDup_cons in Hnd as [Hl Hnd].
simpl root. simpl adjustNodeColumns.
rewrite (bind_run _ _ _ _ _ (deref_run _ _ _ Hn)).
set (n1 := setColumn (adj offset (Column n)) n).
assert (Hstep : (if offset <? Column n
         then modify l (setColumn (int_sub (Column n) offset))
         else ret tt) h = (Ret tt, <[l := n1]> h)).
{ subst n1. unfold adj. destruct (offset <? Column n).
- by apply modify_run.
- by rewrite setColumn_id, list_insert_id. }
rewrite (bind_run _ _ _ _ _ Hstep).
assert (Hn1 : <[l := n1]> h !! l = Some n1) by (by eapply lookup_insert_same).
rewrite (bind_run _ _ _ _ _ (deref_run _ _ _ Hn1)).
assert (Hsl : same_links h (<[l := n1]> h)).
{ eapply same_links_insert; eauto. }
assert (Hk1 : Forall (shape (<[l := n1]> h)) kids).
{ eapply Forall_impl; [exact Hk|]. intros t. by apply same_links_shape. }
replace (Content n1) with (map root kids) by done.
pose proof (adjust_kids f IH kids _ Hk1 Hnd) as Ho.
destruct (forEach _ (map root kids) (<[l := n1]> h)) as [[[]|e|p|] h2];
try done; [|simpl; lia].
destruct Ho as (L & O & I). split; [by rewrite L, length_insert|]. split.
+ intros x Hx. simpl in Hx. rewrite not_elem_of_cons in Hx. destruct Hx as [Hxl Hx].
rewrite O by done. by rewrite list_lookup_insert_ne.
+ intros x nx Hx Hnx. simpl in Hx. apply elem_of_cons in Hx as [-> | Hx].
* rewrite O by done. by assert (nx = n) as -> by congruence.
* apply I; [done|]. rewrite list_lookup_insert_ne; [done|]. by intros ->.
Qed.

End Adjust.
(** ** The start of [updateYamlFromStruct] on a tree *)

#[global] Instance NodeKind_eq_dec : EqDecision NodeKind.
Proof. solve_decision. Defined.

Lemma documentChild_other fuel node (h : heap) n :
  h !! node = Some n -> Kind n <> DocumentNode ->
  documentChild fuel node h = (Ret node, h).
Proof.
  intros Hn Hk. unfold documentChild.
  rewrite (bind_run _ _ _ _ _ (deref_run _ _ _ Hn)).
  destruct (NodeKind_eqb (Kind n) DocumentNode) eqn:E; [|done].
  by apply NodeKind_eqb_eq in E.
Qed.

Lemma documentChild_bad fuel node (h : heap) n :
  h !! node = Some n -> Kind n = DocumentNode -> length (Content n) <> 1%nat ->
  documentChild fuel node h =
  (Err "invalid YAML structure: document node should have exactly one child", h).
Proof.
  intros Hn Hk Hl. unfold documentChild.
  rewrite (bind_run _ _ _ _ _ (deref_run _ _ _ Hn)).
  rewrite Hk. simpl. apply Nat.eqb_neq in Hl. by rewrite Hl.
Qed.

(** The store after the document arm: the document and its child at column
    0, every other node of the child's tree adjusted by the child's
    original column. *)
Definition unwrapped (h h' : heap) (node : loc) (tc : tree) (offset : Z) : Prop :=
  length h' = length h /\
  (forall x : loc, x ≠ node -> x ∉ locs tc -> h' !! x = h !! x) /\
  (forall n, h !! node = Some n -> h' !! node = Some (setColumn 0 n)) /\
  (forall m, h !! root tc = Some m ->
     h' !! root tc = Some (setColumn (adj offset 0) m)) /\
  (forall (x : loc) n, x ∈ locs tc -> x ≠ root tc -> h !! x = Some n ->
     h' !! x = Some (setColumn (adj offset (Column n)) n)).

Lemma documentChild_doc fuel node tc (h : heap) n m :
  tree_ok h (TNode node [tc]) ->
  h !! node = Some n -> Kind n = DocumentNode -> h !! root tc = Some m ->
  match documentChild fuel node h with
  | (Ret c, h') => c = root tc /\ unwrapped h h' node tc (Column m)
  | (Diverge, _) => (fuel < depth tc)%nat
  | _ => False
  end.
Proof.
  intros [Hs Hnd] Hn Hk Hm.
  apply shape_unfold in Hs as [(n0 & Hn0 & Hc) Hks].
  assert (n0 = n) by congruence. subst n0.
  apply Forall_cons in Hks as [Hstc _].
  simpl in Hnd. rewrite app_nil_r in Hnd. apply NoDup_cons in Hnd as [Hnode Hndc].
  assert (Hne : node <> root tc).
  { intros ->. apply Hnode. apply root_in_locs. }
  unfold documentChild.
  rewrite (bind_run _ _ _ _ _ (deref_run _ _ _ Hn)).
  rewrite Hk, Hc. simpl.
  rewrite (bind_run _ _ _ _ _ (index_run [root tc] 0 _ (root tc) eq_refl)).
  rewrite (bind_run _ _ _ _ _ (deref_run _ _ _ Hm)). cbv zeta.
  rewrite (bind_run _ _ _ _ _ (modify_run _ _ _ _ Hn)).
  assert (Hm1 : <[node := setColumn 0 n]> h !! root tc = Some m).
  { by rewrite list_lookup_insert_ne. }
  rewrite (bind_run _ _ _ _ _ (modify_run _ _ _ _ Hm1)).
  set (h1 := <[root tc := setColumn 0 m]> (<[node := setColumn 0 n]> h)).
  assert (Hsl : same_links h h1).
  { eapply same_links_trans; eapply same_links_insert; eauto. }
  pose proof (adjust_tree (Column m) fuel tc h1
                (conj (same_links_shape _ _ _ Hsl Hstc) Hndc)) as Ho.
  unfold adjust_outcome in Ho. unfold bind.
  destruct (adjustNodeColumns fuel (root tc) (Column m) h1) as [[[]|e|p|] h2];
    try done.
  split; [done|]. destruct Ho as (L & O & I).
  assert (Hh1 : forall x : loc, x ≠ node -> x ≠ root tc -> h1 !! x = h !! x).
  { intros x H1 H2. subst h1. by rewrite !list_lookup_insert_ne. }
  assert (Hh1c : h1 !! root tc = Some (setColumn 0 m)).
  { subst h1. by eapply lookup_insert_same. }
  split; [|split; [|split; [|split]]].
  - subst h1. by rewrite L, !length_insert.
  - intros x H1 H2. rewrite O by done. apply Hh1; [done|].
    intros ->. apply H2, root_in_locs.
  - intros n0 Hn0'. assert (n0 = n) by congruence. subst n0.
    rewrite O by done. subst h1. rewrite list_lookup_insert_ne by done.
    by eapply lookup_insert_same.
  - intros m0 Hm0. assert (m0 = m) by congruence. subst m0.
    by rewrite (I _ _ (root_in_locs tc) Hh1c).
  - intros x nx Hx Hxr Hnx. apply I; [done|]. rewrite Hh1; [done | | done].
    by intros ->.
Qed.

Lemma ensureMapping_run mappingNode (h : heap) m :
  h !! mappingNode = Some m ->
  exists m', ensureMapping mappingNode h = (Ret tt, <[mappingNode := m']> h) /\
    Kind m' = MappingNode /\ Content m' = Content m /\ Column m' = Column m /\
    Style m' = Style m.
Proof.
  intros Hm. unfold ensureMapping.
  rewrite (bind_run _ _ _ _ _ (deref_run _ _ _ Hm)).
  destruct (NodeKind_eqb (Kind m) MappingNode) eqn:E; simpl.
  - apply NodeKind_eqb_eq in E. exists m. by rewrite list_insert_id.
  - exists (setTag "!!map" (setKind MappingNode m)).
    rewrite (bind_run _ _ _ _ _ (modify_run _ _ _ _ Hm)).
    rewrite (modify_run _ _ _ _ (lookup_insert_same _ _ _ _ Hm)).
    by rewrite list_insert_insert_eq.
Qed.

(** ** When the merge returns an error *)

Lemma bind_Err {A B} (m : M A) (k : A -> M B) h e h' :
  m h = (Err e, h') -> bind m k h = (Err e, h').
Proof. unfold bind. by intros ->. Qed.

(** The values [updateYamlFromStruct] rejects: after one pointer
    indirection, anything but a struct or a map with string keys. *)
Definition rejectedAtTop (data : reflect.Value) : bool :=
  match reflect.Indirect data with
  | reflect.VStruct _ => false
  | reflect.VMap keyKind _ => negb (reflect.Kind_eqb keyKind reflect.String)
  | _ => true
  end.

(** A map with a key type other than string, anywhere in the value. *)
Fixpoint hasNonStringKey (v : reflect.Value) : bool :=
  match v with
  | reflect.VInterface (Some e) | reflect.VPtr (Some e) _ | reflect.VReadOnly e =>
      hasNonStringKey e
  | reflect.VStruct fields => existsb (fun f => hasNonStringKey (snd f)) fields
  | reflect.VSlice elems => existsb hasNonStringKey elems
  | reflect.VMap keyKind entries =>
      negb (reflect.Kind_eqb keyKind reflect.String)
      || existsb (fun e => hasNonStringKey (snd e)) entries
  | _ => false
  end.

(** The kind switch of [updateYamlFromStruct], run inside a region none of
    whose nodes is a Document node. *)
Lemma mergeByKind_error fuel R mappingNode data (h : heap) :
  pre R True h -> R mappingNode ->
  ((exists msg,
      fst (mergeByKind_ (updateNode fuel) mappingNode (reflect.Indirect data) h)
      = Err msg) <-> rejectedAtTop data = true) /\
  fst (mergeByKind_ (updateNode fuel) mappingNode (reflect.Indirect data) h)
  <> Diverge.
Proof.
  intros Hp Hm. unfold rejectedAtTop. pose proof (MI_refl _ _ _ Hp) as H0.
  assert (Hloop : forall m : M unit,
            sat R True h m h (fun _ _ => True) ->
            ((exists msg, fst (m h) = Err msg) <-> false = true) /\
            fst (m h) <> Diverge).
  { intros m Hs. destruct (m h) as [r h'] eqn:E.
    destruct (sat_run _ _ _ _ _ _ _ _ Hs E) as [_ Hr].
    destruct r; simpl; try tauto; (split; [|done]);
      (split; [by intros [? [=]] | done]). }
  destruct (reflect.Indirect data); simpl;
    try (split; [split; [done | by eexists] | done]).
  - apply Hloop. apply structFields__spec; auto.
    apply Forall_all. intros f. apply updateNode_spec.
  - destruct (negb _); [split; [split; [done | by eexists] | done]|].
    apply Hloop. apply mapKeys__spec; auto.
    apply Forall_all. intros f. apply updateNode_spec.
Qed.


(** The store in which the fields are merged, for a Document root with its
    single child: the child has become the mapping node, its tree is a
    region without Document nodes, and the columns are those the document
    arm has set. *)
Lemma document_setup fuel node tc (h : heap) n m :
  tree_ok h (TNode node [tc]) ->
  h !! node = Some n -> Kind n = DocumentNode -> h !! root tc = Some m ->
  (forall x nx, x ∈ locs tc -> h !! x = Some nx -> Kind nx <> DocumentNode) ->
  match documentChild fuel node h with
  | (Ret c, h1) =>
      c = root tc /\
      exists m', ensureMapping c h1 = (Ret tt, <[c := m']> h1) /\
        Kind m' = MappingNode /\
        pre (region (<[c := m']> h1) tc) True (<[c := m']> h1) /\
        length (<[c := m']> h1) = length h /\
        <[c := m']> h1 !! node = Some (setColumn 0 n) /\
        (forall (x : loc) nx, x ∈ locs tc -> x <> root tc -> h !! x = Some nx ->
           <[c := m']> h1 !! x = Some (setColumn (adj (Column m) (Column nx)) nx))
  | (Diverge, _) => (fuel < depth tc)%nat
  | _ => False
  end.
Proof.
  intros Hok Hn Hk Hm Hnodoc.
  pose proof (documentChild_doc fuel node tc h n m Hok Hn Hk Hm) as Hd.
  destruct (documentChild fuel node h) as [[c|e|p|] h1] eqn:Ed; try done.
  destruct Hd as [-> Hu]. split; [done|].
  destruct Hu as (L & O & Hun & Hum & Hux).
  destruct (ensureMapping_run (root tc) h1 _ (Hum m Hm)) as (m' & He & Hkm & Hcm & _).
  exists m'. split; [done|]. split; [done|].
  destruct Hok as [Hs Hnd].
  apply shape_unfold in Hs as [_ Hks]. apply Forall_cons in Hks as [Hstc _].
  simpl in Hnd. rewrite app_nil_r in Hnd. apply NoDup_cons in Hnd as [Hnode Hndc].
  assert (Hne : node <> root tc).
  { intros ->. apply Hnode. apply root_in_locs. }
  set (h2 := <[root tc := m']> h1).
  assert (Hsl : same_links h h2).
  { split; [subst h2; by rewrite length_insert|].
    intros x nx Hx. subst h2.
    destruct (decide (x = root tc)) as [->|Hxr].
    - assert (nx = m) as -> by congruence.
      rewrite (lookup_insert_same _ _ _ _ (Hum m Hm)).
      exists m'. split; [done|]. split; [done|]. right. by rewrite Hkm.
    - rewrite list_lookup_insert_ne by done.
      destruct (decide (x = node)) as [->|Hxn].
      + assert (nx = n) as -> by congruence. rewrite (Hun n Hn). eauto.
      + destruct (decide (x ∈ locs tc)) as [Hxt|Hxt].
        * rewrite (Hux x nx Hxt Hxr Hx). eauto.
        * rewrite O by done. eauto. }
  split; [|split; [|split]].
  - apply pre_region; [by eapply same_links_shape|].
    intros _ x nx Hx Hnx.
    destruct (h !! x) as [nx0|] eqn:E.
    + destruct (proj2 Hsl x nx0 E) as (nx' & Hnx' & _ & Hkk).
      assert (nx' = nx) as -> by congruence.
      destruct (decide (x = root tc)) as [->|Hxr].
      * subst h2. rewrite (lookup_insert_same _ _ _ _ (Hum m Hm)) in Hnx.
        injection Hnx as <-. by rewrite Hkm.
      * destruct Hkk as [Hkk|Hkk]; [|done]. rewrite Hkk. by apply (Hnodoc x nx0).
    + apply lookup_lt_Some in Hnx. apply lookup_ge_None in E.
      destruct Hsl as [Hlen _]. lia.
  - apply Hsl.
  - subst h2. rewrite list_lookup_insert_ne by done. by apply Hun.
  - intros x nx Hx Hxr Hnx. subst h2. rewrite list_lookup_insert_ne by done.
    by apply Hux.
Qed.

(** C7, as the code has it.  On a tree none of whose nodes below the root
    is a Document node, and with enough recursion depth for
    [adjustNodeColumns], the merge returns an error exactly when the call
    target is a Document node whose child count is not one, or the value,
    after one pointer indirection, is neither a struct nor a map whose key
    type is string; and it does not fail to return.  A map nested in the
    value is merged whatever its key type. *)
Theorem updateYamlFromStruct_error_iff fuel t data (h : heap) n :
  tree_ok h t -> h !! root t = Some n -> (depth t <= fuel)%nat ->
  (forall x nx, x ∈ locs t -> x <> root t -> h !! x = Some nx ->
                Kind nx <> DocumentNode) ->
  ((exists msg, fst (updateYamlFromStruct fuel (root t) data h) = Err msg) <->
   (Kind n = DocumentNode /\ length (Content n) <> 1%nat) \/
   rejectedAtTop data = true) /\
  fst (updateYamlFromStruct fuel (root t) data h) <> Diverge.
Proof.
  intros Hok Hn Hfuel Hnodoc. destruct t as [node kids]. simpl root in *.
  pose proof Hok as [Hs Hnd].
  apply shape_unfold in Hs as [(n0 & Hn0 & Hc) Hks].
  assert (n0 = n) by congruence. subst n0. clear Hn0.
  unfold updateYamlFromStruct, updateYamlFromStruct_. cbv zeta.
  destruct (decide (Kind n = DocumentNode)) as [Hk|Hk].
  - destruct (decide (length (Content n) = 1%nat)) as [Hl|Hl].
    + (* a document with its single child *)
      rewrite Hc, length_map in Hl.
      destruct kids as [|tc [|]]; try done. simpl in Hc.
      assert (Hin : root tc ∈ locs (TNode node [tc])).
      { simpl. rewrite app_nil_r. apply elem_of_cons. right. apply root_in_locs. }
      destruct (shape_lookup _ _ _ (proj1 Hok) Hin) as [m Hm].
      assert (Hnd' : forall x nx, x ∈ locs tc -> h !! x = Some nx ->
                                  Kind nx <> DocumentNode).
      { intros x nx Hx Hnx. apply (Hnodoc x nx); [|  |done].
        - simpl. rewrite app_nil_r. apply elem_of_cons. by right.
        - intros ->. simpl in Hnd. rewrite app_nil_r in Hnd.
          by apply NoDup_cons in Hnd as [? _]. }
      pose proof (document_setup fuel node tc h n m Hok Hn Hk Hm Hnd') as Hd.
      destruct (documentChild fuel node h) as [[c|e|p|] h1] eqn:Ed; try done;
        [|simpl in Hfuel; lia].
      destruct Hd as (-> & m' & He & _ & Hp & _).
      rewrite (bind_run _ _ _ _ _ Ed), (bind_run _ _ _ _ _ He).
      destruct (mergeByKind_error fuel _ (root tc) data _ Hp
                  (or_introl (root_in_locs tc))) as [Hiff Hdiv].
      split; [|exact Hdiv]. rewrite Hiff. split; [by right|].
      intros [[_ Hbad]|Hr]; [|done]. rewrite Hc in Hbad. done.
    + (* a document whose child count is not one *)
      rewrite (bind_Err _ _ _ _ _ (documentChild_bad _ _ _ _ Hn Hk Hl)). simpl.
      split; [|done]. split; [intros _; by left | by eexists].
  - (* any other node *)
    rewrite (bind_run _ _ _ _ _ (documentChild_other _ _ _ _ Hn Hk)).
    destruct (ensureMapping_run node h _ Hn) as (m' & He & Hkm & Hcm & _).
    rewrite (bind_run _ _ _ _ _ He).
    set (h2 := <[node := m']> h).
    assert (Hsl : same_links h h2).
    { eapply same_links_insert; eauto. right. by rewrite Hkm. }
    assert (Hp : pre (region h2 (TNode node kids)) True h2).
    { apply pre_region; [by eapply same_links_shape; [|apply Hok]|].
      intros _ x nx Hx Hnx. subst h2.
      destruct (decide (x = node)) as [->|Hxr].
      - rewrite (lookup_insert_same _ _ _ _ Hn) in Hnx. injection Hnx as <-.
        by rewrite Hkm.
      - rewrite list_lookup_insert_ne in Hnx by done. by apply (Hnodoc x nx). }
    destruct (mergeByKind_error fuel _ node data h2 Hp
                (or_introl (root_in_locs (TNode node kids)))) as [Hiff Hdiv].
    split; [|exact Hdiv]. rewrite Hiff. split; [by right|].
    intros [[Hbad _]|Hr]; done.
Qed.

(** ** Checking a concrete tree *)

Fixpoint shapeb (h : heap) (t : tree) : bool :=
  match t with
  | TNode l kids =>
      match h !! l with
      | Some n => bool_decide (Content n = map root kids)
      | None => false
      end && forallb (shapeb h) kids
  end.

Definition tree_okb (h : heap) (t : tree) : bool :=
  shapeb h t && bool_decide (NoDup (locs t)).

Lemma shapeb_shape h t : shapeb h t = true -> shape h t.
Proof.
  induction t as [l kids IH] using tree_ind. simpl shapeb.
  intros [H1 H2]%andb_prop. apply shape_unfold. split.
  - destruct (h !! l) as [n|]; [|done]. exists n. split; [done|].
    by apply bool_decide_eq_true in H1.
  - rewrite forallb_forall in H2. rewrite Forall_forall in IH.
    apply Forall_forall. intros k Hk. apply IH; [done|].
    apply H2. by apply list_elem_of_In.
Qed.

Lemma tree_okb_ok h t : tree_okb h t = true -> tree_ok h t.
Proof.
  intros [H1 H2]%andb_prop. split; [by apply shapeb_shape|].
  by apply bool_decide_eq_true in H2.
Qed.

(** No node of [ls], apart from [skip], is a Document node. *)
Definition nodocb (h : heap) (skip : option loc) (ls : list loc) : bool :=
  forallb (fun x =>
             bool_decide (skip = Some x) ||
             match h !! x with
             | Some n => negb (NodeKind_eqb (Kind n) DocumentNode)
             | None => true
             end) ls.

Lemma nodocb_below h r ls :
  nodocb h (Some r) ls = true ->
  forall x nx, x ∈ ls -> x <> r -> h !! x = Some nx -> Kind nx <> DocumentNode.
Proof.
  unfold nodocb. rewrite forallb_forall. intros H x nx Hx Hne Hnx Hk.
  apply list_elem_of_In in Hx. apply H in Hx. rewrite Hnx, Hk in Hx.
  apply orb_prop in Hx as [Hx|Hx]; [|done].
  apply bool_decide_eq_true in Hx. congruence.
Qed.


(** The tree of [sample_person]. *)
Definition sample_person_tree : tree :=
  TNode 0 [TNode 1 [TNode 2 []; TNode 3 []; TNode 4 []; TNode 5 []]].

Lemma updateYamlFromStruct_error_iff_witness :
  ((exists msg,
      fst (updateYamlFromStruct 3 0%nat sample_person_value sample_person) = Err msg) <->
   (DocumentNode = DocumentNode /\ 1%nat <> 1%nat) \/
   rejectedAtTop sample_person_value = true) /\
  fst (updateYamlFromStruct 3 0%nat sample_person_value sample_person) <> Diverge.
Proof.
  apply (updateYamlFromStruct_error_iff 3 sample_person_tree sample_person_value
           sample_person _
           (tree_okb_ok sample_person sample_person_tree eq_refl) eq_refl).
  - vm_compute. lia.
  - apply nodocb_below. reflexivity.
Defined.

(** A struct with a field of type [map[int]string]. *)
Definition sample_int_keys : reflect.Value :=
  reflect.VStruct
    [ (reflect.mkField "Grades" "grades",
       reflect.VMap reflect.Int [("1", reflect.VString "A")]) ].

(** C7 as stated fails: a map with a non-string key type nested in the
    merged value is merged, and the merge returns normally. *)
Lemma nested_int_keys_no_error :
  hasNonStringKey sample_int_keys = true /\
  exists h', updateYamlFromStruct 3 0%nat sample_int_keys sample_person = (Ret tt, h').
Proof. split; [reflexivity | eexists; vm_compute; reflexivity]. Qed.

(** ** Columns after the top-level merge *)

(** Sums and differences that fit an [int] do not wrap. *)
Lemma wrap_int_id z : is_int z -> wrap_int z = z.
Proof.
  unfold is_int, int_min, int_max, wrap_int. intros Hz.
  rewrite Z.mod_small; lia.
Qed.

Lemma wrap_int_is_int z : is_int (wrap_int z).
Proof.
  unfold is_int, int_min, int_max, wrap_int.
  pose proof (Z.mod_pos_bound (z + 2 ^ 63) (2 ^ 64)). lia.
Qed.







(** ** New pairs *)

Lemma lookup_snoc2_l (h : heap) a b (x : loc) :
  (x < length h)%nat -> ((h ++ [a]) ++ [b]) !! x = h !! x.
Proof.
  intros Hx. rewrite lookup_app_l by (rewrite length_app; simpl; lia).
  by rewrite lookup_app_l.
Qed.

Lemma lookup_snoc2_k (h : heap) a b : ((h ++ [a]) ++ [b]) !! length h = Some a.
Proof.
  rewrite lookup_app_l by (rewrite length_app; simpl; lia).
  rewrite lookup_app_r by lia. by rewrite Nat.sub_diag.
Qed.

Lemma lookup_snoc2_v (h : heap) a b : ((h ++ [a]) ++ [b]) !! S (length h) = Some b.
Proof.
  rewrite lookup_app_r by (rewrite length_app; simpl; lia).
  rewrite length_app. simpl. by replace (S (length h) - (length h + 1))%nat with 0%nat by lia.
Qed.

(** What [appendNewPair] leaves: two nodes at the end of the store, the key
    a [!!str] scalar, both without children; style and column from the
    first pair of the mapping, or the mapping's column plus 2. *)
Record newPair (h h2 : heap) (mappingNode : loc) (m : Node) (key : string)
    (k v : loc) : Prop := {
  np_k : k = length h;
  np_v : v = S (length h);
  np_len : length h2 = S (S (length h));
  np_old : forall x : loc, (x < length h)%nat -> x <> mappingNode -> h2 !! x = h !! x;
  np_map : h2 !! mappingNode = Some (setContent (Content m ++ [k; v]) m);
  np_nodes : exists kn vn,
    h2 !! k = Some kn /\ h2 !! v = Some vn /\
    Kind kn = ScalarNode /\ Tag kn = "!!str" /\ Value kn = key /\ Content kn = [] /\
    Kind vn = ZeroKind /\ Content vn = [] /\
    match Content m with
    | [] => Style kn = 0 /\ Column kn = int_add (Column m) 2 /\
            Style vn = 0 /\ Column vn = int_add (Column m) 2
    | c0 :: rest =>
        exists c1 n0 n1, rest !! 0%nat = Some c1 /\
          h !! c0 = Some n0 /\ h !! c1 = Some n1 /\
          Style kn = Style n0 /\ Column kn = Column n0 /\
          Style vn = Style n1 /\ Column vn = Column n1
    end
}.

(** Reads through writes at pointers that [lia] tells apart. *)
Ltac simp_lookups :=
  repeat match goal with
         | H : <[?a := _]> _ !! ?b = Some _ |- _ =>
             first [ rewrite list_lookup_insert_ne in H by lia
                   | rewrite list_lookup_insert_eq in H
                       by (rewrite ?length_insert; lia);
                     injection H as <- ]
         end.

Lemma appendNewPair_Ret mappingNode key (h : heap) m k v h2 :
  h !! mappingNode = Some m ->
  (forall c, c ∈ Content m -> (c < length h)%nat) ->
  appendNewPair mappingNode key h = (Ret (k, v), h2) ->
  newPair h h2 mappingNode m key k v.
Proof.
  intros Hm Hcl H. unfold appendNewPair in H. minv H.
  assert (Hlt : (mappingNode < length h)%nat) by (by eapply lookup_lt_Some).
  rewrite lookup_snoc2_l in Hn by done.
  assert (n = m) as -> by congruence.
  apply bind_Ret in H as ([] & h1 & Hinit & H). minv H.
  replace (length (h ++ [setValue key (setTag "!!str" (setKind ScalarNode zeroNode))]))
    with (S (length h)) in * by (rewrite length_app; simpl; lia).
  set (h0 := (h ++ [_]) ++ [zeroNode]) in *.
  assert (Hk0 : h0 !! length h = Some (setValue key (setTag "!!str" (setKind ScalarNode zeroNode))))
    by apply lookup_snoc2_k.
  assert (Hv0 : h0 !! S (length h) = Some zeroNode) by apply lookup_snoc2_v.
  assert (Hl0 : length h0 = S (S (length h))).
  { subst h0. rewrite !length_app. simpl. lia. }
  assert (Hold : forall x : loc, (x < length h)%nat -> h0 !! x = h !! x).
  { intros x Hx. by apply lookup_snoc2_l. }
  assert (Hinit' : exists kn vn,
    h1 = <[S (length h) := vn]> (<[length h := kn]> h0) /\
    Kind kn = ScalarNode /\ Tag kn = "!!str" /\ Value kn = key /\ Content kn = [] /\
    Kind vn = ZeroKind /\ Content vn = [] /\
    match Content m with
    | [] => Style kn = 0 /\ Column kn = int_add (Column m) 2 /\
            Style vn = 0 /\ Column vn = int_add (Column m) 2
    | c0 :: rest =>
        exists c1 n0 n1, rest !! 0%nat = Some c1 /\
          h !! c0 = Some n0 /\ h !! c1 = Some n1 /\
          Style kn = Style n0 /\ Column kn = Column n0 /\
          Style vn = Style n1 /\ Column vn = Column n1
    end).
  { clear H Hm0. destruct (Content m) as [|c0 rest] eqn:Ec.
    - simpl in Hinit. minv Hinit. simp_lookups. same_reads.
      eexists _, _. split; [reflexivity|]. by repeat split.
    - simpl in Hinit. minv Hinit.
      repeat match goal with
             | Hx : (_ :: _) !! 0%nat = Some _ |- _ => injection Hx as <-
             | Hx : (_ :: _) !! (S _) = Some _ |- _ => simpl in Hx
             end.
      match goal with
      | Hx : rest !! 0%nat = Some ?c1 |- _ =>
          assert (Hc1lt : (c1 < length h)%nat)
            by (apply Hcl, elem_of_cons; right; by eapply list_elem_of_lookup_2)
      end.
      assert (Hc0lt : (c0 < length h)%nat) by (apply Hcl, elem_of_cons; by left).
      simp_lookups.
      repeat match goal with
             | Hx : h0 !! ?x = Some _, Hlx : (?x < length h)%nat |- _ =>
                 rewrite (Hold x Hlx) in Hx
             end.
      same_reads.
      rewrite !list_insert_insert_eq.
      eexists _, _. split; [reflexivity|].
      repeat (split; [done|]). eexists _, _, _.
      split; [eassumption|]. split; [eassumption|]. split; [eassumption|]. done. }
  destruct Hinit' as (kn & vn & -> & Hkn).
  apply ret_Ret in H as [[= -> ->] ->].
  rewrite !list_lookup_insert_ne in Hm0 by lia. rewrite Hold in Hm0 by done.
  assert (n = m) as -> by congruence.
  split.
  - done.
  - done.
  - by rewrite !length_insert.
  - intros x Hx Hne. rewrite !list_lookup_insert_ne by lia. by apply Hold.
  - apply list_lookup_insert_eq. rewrite !length_insert. lia.
  - exists kn, vn. split; [|split; [|exact Hkn]].
    + rewrite !list_lookup_insert_ne by lia.
      apply list_lookup_insert_eq. lia.
    + rewrite list_lookup_insert_ne by lia.
      apply list_lookup_insert_eq. rewrite length_insert. lia.
Qed.

(** What the pair loop returns: the first pair whose key node holds the
    key; the store is only read. *)
Lemma scanPairs_Ret key content (h : heap) o h' :
  scanPairs key content h = (Ret o, h') ->
  h' = h /\
  match o with
  | Some (k, v) =>
      exists j kn, content !! (2 * j)%nat = Some k /\
        content !! S (2 * j) = Some v /\ h !! k = Some kn /\ Value kn = key /\
        forall j' k' kn', (j' < j)%nat -> content !! (2 * j')%nat = Some k' ->
                          h !! k' = Some kn' -> Value kn' <> key
  | None =>
      forall j k kn, content !! (2 * j)%nat = Some k -> h !! k = Some kn ->
                     Value kn <> key
  end.
Proof.
  revert o. induction content as [|x|x y l IH] using list_pair_ind; intros o H.
  - apply ret_Ret in H as [-> ->]. split; [done|]. by intros j k kn.
  - simpl in H. minv H. destruct (String.eqb (Value n) key) eqn:E; [done|].
    apply ret_Ret in H as [-> ->]. split; [done|]. intros [|j] k kn Hk Hkn.
    + injection Hk as <-. assert (kn = n) as -> by congruence.
      by apply String.eqb_neq in E.
    + by simpl in Hk.
  - simpl in H. minv H. destruct (String.eqb (Value n) key) eqn:E.
    + apply ret_Ret in H as [-> ->]. split; [done|]. exists 0%nat, n.
      apply String.eqb_eq in E. repeat split; try done. intros j' k' kn' Hj. lia.
    + apply IH in H as [-> Ho]. split; [done|]. destruct o as [[k v]|].
      * destruct Ho as (j & kn & H1 & H2 & H3 & H4 & H5). exists (S j), kn.
        replace (2 * S j)%nat with (S (S (2 * j))) by lia.
        repeat split; try done. intros [|j'] k' kn' Hj Hk' Hkn'.
        -- injection Hk' as <-. assert (kn' = n) as -> by congruence.
           by apply String.eqb_neq in E.
        -- apply (H5 j' k' kn'); [lia | | done].
           by replace (2 * S j')%nat with (S (S (2 * j'))) in Hk' by lia.
      * intros [|j] k kn Hk Hkn.
        -- injection Hk as <-. assert (kn = n) as -> by congruence.
           by apply String.eqb_neq in E.
        -- apply (Ho j k kn); [|done].
           by replace (2 * S j)%nat with (S (S (2 * j))) in Hk by lia.
Qed.

Lemma findNodes_Ret mappingNode key (h : heap) m o h' :
  h !! mappingNode = Some m ->
  findNodes mappingNode key h = (Ret o, h') ->
  h' = h /\
  match o with
  | Some (k, v) =>
      exists j kn, Content m !! (2 * j)%nat = Some k /\
        Content m !! S (2 * j) = Some v /\ h !! k = Some kn /\ Value kn = key /\
        forall j' k' kn', (j' < j)%nat -> Content m !! (2 * j')%nat = Some k' ->
                          h !! k' = Some kn' -> Value kn' <> key
  | None =>
      forall j k kn, Content m !! (2 * j)%nat = Some k -> h !! k = Some kn ->
                     Value kn <> key
  end.
Proof.
  intros Hm H. unfold findNodes in H. minv H.
  assert (n = m) as -> by congruence. by apply scanPairs_Ret.
Qed.

(** C6, as the code has it.  When [updateField] finds no pair for the
    field's key, it appends a new key node (a [!!str] scalar holding the
    key) and a new value node to the mapping.  If the mapping has children,
    the key node takes the style and column of the mapping's first child
    and the value node those of its second child; if it has none, both
    nodes get the mapping's column plus the constant 2 in the arithmetic of
    [int] (the detected indent width plays no part), which is the exact sum
    when that fits an [int], and the zero style. *)
Theorem updateField_new_pair fuel mappingNode fieldType fieldValue (h : heap) m h' :
  h !! mappingNode = Some m ->
  (forall c, c ∈ Content m -> (c < length h)%nat) ->
  findNodes mappingNode (yamlTagOf fieldType) h = (Ret None, h) ->
  updateField fuel mappingNode fieldType fieldValue h = (Ret tt, h') ->
  exists m' kn vn,
    h' !! mappingNode = Some m' /\
    Content m' = Content m ++ [length h; S (length h)] /\
    h' !! length h = Some kn /\ h' !! S (length h) = Some vn /\
    Kind kn = ScalarNode /\ Tag kn = "!!str" /\ Value kn = yamlTagOf fieldType /\
    match Content m with
    | [] => Style kn = 0 /\ Column kn = int_add (Column m) 2 /\
            Style vn = 0 /\ Column vn = int_add (Column m) 2 /\
            (is_int (Column m + 2) ->
             Column kn = Column m + 2 /\ Column vn = Column m + 2)
    | c0 :: rest =>
        exists c1 n0 n1, rest !! 0%nat = Some c1 /\
          h !! c0 = Some n0 /\ h !! c1 = Some n1 /\
          Style kn = Style n0 /\ Column kn = Column n0 /\
          Style vn = Style n1 /\ Column vn = Column n1
    end.
Proof.
  intros Hm Hcl Hfind H. unfold updateField, updateField_ in H. cbv zeta in H.
  apply bind_Ret in H as (found & h1 & Hf & H).
  rewrite Hfind in Hf. injection Hf as <- <-.
  apply bind_Ret in H as ([k v] & h2 & Ha & H). simpl in H.
  apply (appendNewPair_Ret _ _ _ m) in Ha as [-> -> Hlen Hold Hmap Hnodes]; [|done..].
  destruct Hnodes as (kn & vn & Hkn & Hvn & Hk1 & Hk2 & Hk3 & Hk4 & Hv1 & Hv2 & Hsty).
  set (R := fun x : loc => (S (length h) <= x)%nat).
  assert (Hp : pre R True h2).
  { split.
    - intros x n c Hx Hn Hc. unfold R in Hx.
      assert (x = S (length h)) as -> by (apply lookup_lt_Some in Hn; lia).
      assert (n = vn) as -> by congruence. rewrite Hv2 in Hc. by apply elem_of_nil in Hc.
    - intros x Hx. unfold R. lia.
    - intros _ x n Hx Hn. unfold R in Hx.
      assert (x = S (length h)) as -> by (apply lookup_lt_Some in Hn; lia).
      assert (n = vn) as -> by congruence. by rewrite Hv1. }
  pose proof (updateNode_spec R True fuel fieldValue (S (length h)) h2 h2
                (MI_refl _ _ _ Hp) (le_n _)) as Hs.
  destruct (sat_run _ _ _ _ _ _ _ _ Hs H) as [HMI _].
  assert (Hlt : (mappingNode < length h)%nat) by (by eapply lookup_lt_Some).
  destruct (mi_meta _ _ _ _ HMI _ _ Hvn) as (vn' & Hvn' & Hmeta).
  destruct (mi_col _ _ _ _ HMI I _ _ Hvn) as (vn'' & Hvn'' & Hcol).
  assert (vn'' = vn') as -> by congruence.
  exists (setContent (Content m ++ [length h; S (length h)]) m), kn, vn'.
  split; [|split; [done|split; [|split; [done|]]]].
  - rewrite (mi_frame _ _ _ _ HMI); [done|]. unfold R. lia.
  - rewrite (mi_frame _ _ _ _ HMI); [done|]. unfold R. lia.
  - repeat (split; [done|]). destruct Hmeta as (Hst & _).
    destruct (Content m) as [|c0 rest].
    + destruct Hsty as (Hks & Hkc & Hvs & Hvc).
      assert (Hvc' : Column vn' = int_add (Column m) 2) by congruence.
      split; [done|]. split; [done|]. split; [congruence|]. split; [done|].
      intros Hi. unfold int_add in *. rewrite (wrap_int_id _ Hi) in Hkc, Hvc'. done.
    + destruct Hsty as (c1 & n0 & n1 & ? & ? & ? & ? & ? & ? & ?).
      exists c1, n0, n1. repeat split; congruence.
Qed.

Lemma updateField_new_pair_witness :
  exists m' kn vn,
    snd (updateField 0 1%nat (reflect.mkField "City" "city") (reflect.VString "Gotham")
           sample_person) !! 1%nat = Some m' /\
    Content m' = [2; 3; 4; 5; 6; 7]%nat /\
    snd (updateField 0 1%nat (reflect.mkField "City" "city") (reflect.VString "Gotham")
           sample_person) !! 6%nat = Some kn /\
    snd (updateField 0 1%nat (reflect.mkField "City" "city") (reflect.VString "Gotham")
           sample_person) !! 7%nat = Some vn /\
    Value kn = "city" /\ Column kn = 1 /\ Column vn = 7.
Proof.
  assert (Hcl : forall c : nat, c ∈ [2; 3; 4; 5]%nat -> (c < 6)%nat).
  { intros c Hc. rewrite !elem_of_cons, elem_of_nil in Hc. lia. }
  destruct (updateField_new_pair 0 1%nat (reflect.mkField "City" "city")
              (reflect.VString "Gotham") sample_person _
              (snd (updateField 0 1%nat (reflect.mkField "City" "city")
                      (reflect.VString "Gotham") sample_person))
              eq_refl Hcl eq_refl eq_refl)
    as (m' & kn & vn & H1 & H2 & H3 & H4 & _ & _ & H5 & H6).
  destruct H6 as (c1 & n0 & n1 & Hc1 & Hn0 & Hn1 & _ & Hck & _ & Hcv).
  injection Hc1 as <-. injection Hn0 as <-. injection Hn1 as <-.
  exists m', kn, vn. repeat split; assumption.
Defined.

(** A document indented by four spaces: [top:] / [    x: 1]. *)
Definition newline : string := String "010"%char EmptyString.

Definition sample_indent4_source : string :=
  "top:" +:+ newline +:+ "    x: 1" +:+ newline.

Definition sample_indent4 : heap :=
  [ mkNode DocumentNode 0 "" "" "" None [1%nat] "" "" "" 1 1;
    mkNode MappingNode 0 "!!map" "" "" None [2; 3]%nat "" "" "" 1 1;
    sample_scalar "top" "!!str" 1 1;
    mkNode MappingNode 0 "!!map" "" "" None [4; 5]%nat "" "" "" 2 5;
    sample_scalar "x" "!!str" 2 5;
    sample_scalar "1" "!!int" 2 8 ].

(** A Record with a nested object field [extra] that the document lacks. *)
Definition sample_indent4_value : reflect.Value :=
  reflect.VStruct
    [ (reflect.mkField "Top" "top",
       reflect.VStruct [(reflect.mkField "X" "x", reflect.VInt 1)]);
      (reflect.mkField "Extra" "extra",
       reflect.VStruct [(reflect.mkField "Y" "y", reflect.VInt 2)]) ].

(** C6 as stated fails: the detected indent width is 4, the new nested
    mapping (node 7) has no pair, and its new key (node 8) gets the
    mapping's column plus 2, not plus 4. *)
Lemma new_pair_ignores_detected_indent :
  detectIndentation sample_indent4_source = 4 /\
  exists h' parent key,
    UpdateYAML_nodes 4 0%nat sample_indent4_value sample_indent4 = (Ret tt, h') /\
    h' !! 7%nat = Some parent /\ Content parent = [8; 9]%nat /\
    h' !! 8%nat = Some key /\ Value key = "y" /\
    Column key = Column parent + 2 /\
    Column key <> Column parent + detectIndentation sample_indent4_source.
Proof.
  split; [reflexivity|].
  eexists _, _, _. split; [vm_compute; reflexivity|].
  split; [reflexivity|]. split; [reflexivity|]. split; [reflexivity|].
  split; [reflexivity|]. split; [reflexivity|]. vm_compute. discriminate.
Qed.

(** Every other read of the pointer of [H] in the same store gives the node
    of [H]. *)
Ltac reads_of H :=
  match type of H with
  | ?h !! ?l = Some ?n =>
      repeat match goal with
             | H2 : h !! l = Some ?m |- _ =>
                 assert_fails (constr_eq m n);
                 assert (m = n) by congruence; subst m
             end
  end.

(** ** The children of a tree node *)

Lemma shape_agree h h' t :
  (forall x : loc, x ∈ locs t -> h' !! x = h !! x) -> shape h t -> shape h' t.
Proof.
  induction t as [l kids IH] using tree_ind. intros Ha Hs.
  apply shape_unfold in Hs as [(n & Hn & Hc) Hk]. apply shape_unfold. split.
  - exists n. split; [|done]. rewrite Ha; [done|]. apply (root_in_locs (TNode l kids)).
  - rewrite Forall_forall in IH, Hk. apply Forall_forall. intros k Hin.
    apply IH; auto. intros x Hx. apply Ha. simpl. apply elem_of_cons. right.
    apply elem_of_flat_map_locs. by exists k.
Qed.

Lemma NoDup_flat_map_lookup (kids : list tree) p q t t' (x : loc) :
  NoDup (flat_map locs kids) ->
  kids !! p = Some t -> kids !! q = Some t' -> p <> q ->
  x ∈ locs t -> x ∈ locs t' -> False.
Proof.
  revert p q. induction kids as [|k rest IH]; intros p q Hnd Hp Hq Hne Hx Hx'.
  - done.
  - apply NoDup_flat_map_cons in Hnd as (_ & Hnr & Hdis).
    destruct p as [|p], q as [|q]; simpl in Hp, Hq.
    + done.
    + injection Hp as ->. apply (Hdis x Hx). apply elem_of_flat_map_locs.
      exists t'. split; [by eapply list_elem_of_lookup_2 | done].
    + injection Hq as ->. apply (Hdis x Hx'). apply elem_of_flat_map_locs.
      exists t. split; [by eapply list_elem_of_lookup_2 | done].
    + eapply (IH p q); eauto.
Qed.

Section Kids.

Variable h : heap.
Variable node : loc.
Variable kids : list tree.
Hypothesis Hok : tree_ok h (TNode node kids).

Lemma kids_content : exists n, h !! node = Some n /\ Content n = map root kids.
Proof. destruct Hok as [Hs _]. by apply shape_unfold in Hs as [? _]. Qed.

Lemma kid_shape p t : kids !! p = Some t -> shape h t.
Proof.
intros Hp. destruct Hok as [Hs _]. apply shape_unfold in Hs as [_ Hk].
rewrite Forall_forall in Hk. apply Hk. by eapply list_elem_of_lookup_2.
Qed.

Lemma kid_lt p t (x : loc) : kids !! p = Some t -> x ∈ locs t -> (x < length h)%nat.
Proof.
intros Hp Hx. apply lookup_lt_is_Some. eapply shape_lookup; [|exact Hx].
by eapply kid_shape.
Qed.

Lemma kid_disjoint p q t t' (x : loc) :
kids !! p = Some t -> kids !! q = Some t' -> p <> q ->
x ∈ locs t -> x ∈ locs t' -> False.
Proof.
destruct Hok as [_ Hnd]. simpl in Hnd. apply NoDup_cons in Hnd as [_ Hnd].
by apply NoDup_flat_map_lookup.
Qed.

Lemma kid_not_node p t : kids !! p = Some t -> node ∉ locs t.
Proof.
intros Hp Hin. destruct Hok as [_ Hnd]. simpl in Hnd.
apply NoDup_cons in Hnd as [Hn _]. apply Hn. apply elem_of_flat_map_locs.
exists t. split; [by eapply list_elem_of_lookup_2 | done].
Qed.

Lemma kid_root p t : kids !! p = Some t -> map root kids !! p = Some (root t).
Proof. intros Hp. by rewrite list_lookup_fmap, Hp. Qed.

Lemma kid_of_root p (c : loc) :
map root kids !! p = Some c -> exists t, kids !! p = Some t /\ root t = c.
Proof.
rewrite list_lookup_fmap. destruct (kids !! p) as [t|]; [|done].
intros [= <-]. by exists t.
Qed.

End Kids.

(** ** Mappings: replacement *)

Lemma createOrReusePair_Ret node key originalContent baseIndent (h : heap) k v h' :
  createOrReusePair node key originalContent baseIndent h = (Ret (k, v), h') ->
  (h' = h /\
   exists j kn, originalContent !! (2 * j)%nat = Some k /\
     originalContent !! S (2 * j) = Some v /\ h !! k = Some kn /\ Value kn = key /\
     forall j' k' kn', (j' < j)%nat -> originalContent !! (2 * j')%nat = Some k' ->
                       h !! k' = Some kn' -> Value kn' <> key) \/
  (k = length h /\ v = S (length h) /\ length h' = S (S (length h)) /\
   (forall x : loc, (x < length h)%nat -> h' !! x = h !! x) /\
   (exists kn vn, h' !! k = Some kn /\ h' !! v = Some vn /\ Value kn = key /\
                  Content kn = [] /\ Content vn = [] /\ Kind vn = ZeroKind) /\
   (forall j k' kn', originalContent !! (2 * j)%nat = Some k' ->
                     h !! k' = Some kn' -> Value kn' <> key)).
Proof.
  intros H. unfold createOrReusePair in H.
  apply bind_Ret in H as (found & h1 & Hscan & H).
  apply scanPairs_Ret in Hscan as [-> Hfound].
  destruct found as [[k0 v0]|].
  - apply ret_Ret in H as [[= -> ->] ->]. by left.
  - right. minv H.
    apply bind_Ret in H as ([] & h1 & Hinit & H).
    apply ret_Ret in H as [[= -> ->] ->].
    replace (length (h ++ [setTag "!!str" (setValue key (setKind ScalarNode zeroNode))]))
      with (S (length h)) in * by (rewrite length_app; simpl; lia).
    set (h0 := (h ++ [_]) ++ [zeroNode]) in *.
    assert (Hk0 : h0 !! length h = Some (setTag "!!str" (setValue key (setKind ScalarNode zeroNode))))
      by apply lookup_snoc2_k.
    assert (Hv0 : h0 !! S (length h) = Some zeroNode) by apply lookup_snoc2_v.
    assert (Hl0 : length h0 = S (S (length h))).
    { subst h0. rewrite !length_app. simpl. lia. }
    assert (Hold : forall x : loc, (x < length h)%nat -> h0 !! x = h !! x).
    { intros x Hx. by apply lookup_snoc2_l. }
    assert (Hinit' : exists kn vn,
      h1 = <[S (length h) := vn]> (<[length h := kn]> h0) /\
      Value kn = key /\ Content kn = [] /\ Content vn = [] /\ Kind vn = ZeroKind).
    { destruct (0 <? length originalContent)%nat.
      - apply bind_Ret in Hinit as (lastKey & hx & Hlk & Hinit).
        assert (hx = h0) as ->.
        { destruct (2 <=? length originalContent)%nat; [|done].
          by apply index_Ret in Hlk as [-> _]. }
        clear Hlk. minv Hinit. simp_lookups. same_reads.
        rewrite !list_insert_insert_eq.
        eexists _, _. split; [reflexivity|]. by repeat split.
      - minv Hinit. simp_lookups. same_reads.
        eexists _, _. split; [reflexivity|]. by repeat split. }
    destruct Hinit' as (kn & vn & -> & Hkn1 & Hkn2 & Hvn1 & Hvn2).
    split; [done|]. split; [done|]. split; [by rewrite !length_insert|].
    split; [|split; [|done]].
    + intros x Hx. rewrite !list_lookup_insert_ne by lia. by apply Hold.
    + exists kn, vn. split; [|split; [|done]].
      * rewrite list_lookup_insert_ne by lia. apply list_lookup_insert_eq. lia.
      * apply list_lookup_insert_eq. rewrite length_insert. lia.
Qed.

(** The children list made of pairs. *)
Definition flatten (pairs : list (loc * loc)) : list loc :=
  flat_map (fun kv => [fst kv; snd kv]) pairs.

Lemma flatten_snoc pairs kv : flatten (pairs ++ [kv]) = flatten pairs ++ [fst kv; snd kv].
Proof. unfold flatten. rewrite flat_map_app. simpl. by rewrite ?app_nil_r. Qed.

Lemma flatten_snoc_pair pairs (k v : loc) :
  flatten (pairs ++ [(k, v)]) = flatten pairs ++ [k; v].
Proof. apply flatten_snoc. Qed.

Lemma flatten_lookup pairs i kv :
  pairs !! i = Some kv ->
  flatten pairs !! (2 * i)%nat = Some (fst kv) /\
  flatten pairs !! S (2 * i) = Some (snd kv).
Proof.
  revert i. induction pairs as [|p rest IH]; intros [|i] Hi; try done.
  - by injection Hi as ->.
  - simpl in Hi. replace (2 * S i)%nat with (S (S (2 * i))) by lia. simpl.
    by apply IH.
Qed.

Section MappingLoop.

Variable fuel : nat.
Variable ha : heap.
Variable node : loc.
Variable kids : list tree.
Variable baseIndent : Z.

Hypothesis Hshape : forall p t, kids !! p = Some t -> shape ha t.
Hypothesis Hlt : forall p t (x : loc),
kids !! p = Some t -> x ∈ locs t -> (x < length ha)%nat.
Hypothesis Hdis : forall p q t t' (x : loc),
kids !! p = Some t -> kids !! q = Some t' -> p <> q ->
x ∈ locs t -> x ∈ locs t' -> False.


(** [j] is the first pair of the original children whose key node holds
[key]. *)
Definition first_match (key : string) (j : nat) (k v : loc) : Prop :=
map root kids !! (2 * j)%nat = Some k /\ map root kids !! S (2 * j) = Some v /\
(exists kn, ha !! k = Some kn /\ Value kn = key) /\
forall j' k' kn', (j' < j)%nat -> map root kids !! (2 * j')%nat = Some k' ->
        ha !! k' = Some kn' -> Value kn' <> key.

Definition no_match (key : string) : Prop :=
forall j k' kn', map root kids !! (2 * j)%nat = Some k' ->
       ha !! k' = Some kn' -> Value kn' <> key.

(** The pair the loop produced for an entry. *)
Definition good_pair (hc : heap) (kv : loc * loc) (e : string * reflect.Value) : Prop :=
(fst kv < length hc)%nat /\
(exists kn, hc !! fst kv = Some kn /\ Value kn = fst e) /\
((exists j, first_match (fst e) j (fst kv) (snd kv)) \/
((length ha <= fst kv)%nat /\ snd kv = S (fst kv) /\ no_match (fst e))).





End MappingLoop.

Lemma elem_of_flatten (x : loc) pairs :
  x ∈ flatten pairs <-> exists kv, kv ∈ pairs /\ (x = fst kv \/ x = snd kv).
Proof.
  unfold flatten. rewrite list_elem_of_In, in_flat_map. split.
  - intros ([k v] & Hin & Hx). exists (k, v). split; [by apply list_elem_of_In|].
    simpl in Hx. destruct Hx as [<-|[<-|[]]]; auto.
  - intros ([k v] & Hin & Hx). exists (k, v). split; [by apply list_elem_of_In|].
    simpl in *. destruct Hx as [->| ->]; auto.
Qed.


(** ** The keys of a Mapping merge *)

Section KeysLoop.

Variable fuel : nat.
Variable ha : heap.
Variable node : loc.
Variable kids : list tree.
Variable baseIndent : Z.

Hypothesis Hshape : forall p t, kids !! p = Some t -> shape ha t.
Hypothesis Hlt : forall p t (x : loc),
  kids !! p = Some t -> x ∈ locs t -> (x < length ha)%nat.
Hypothesis Hdis : forall p q t t' (x : loc),
  kids !! p = Some t -> kids !! q = Some t' -> p <> q ->
  x ∈ locs t -> x ∈ locs t' -> False.

(** Where the value merges may write: below the value nodes of the
    original pairs, and in the nodes allocated since, the key nodes of the
    new pairs apart. *)
Definition valueSide (pairs : list (loc * loc)) (x : loc) : Prop :=
  (exists j t, kids !! S (2 * j) = Some t /\ x ∈ locs t) \/
  ((length ha <= x)%nat /\ forall kv, kv ∈ pairs -> x <> fst kv).

Record keys_inv (done : list (string * reflect.Value)) (hc : heap)
    (pairs : list (loc * loc)) : Prop := {
  ki_len : (length ha <= length hc)%nat;
  ki_pre : pre (valueSide pairs) False hc;
  ki_alloc : forall (x : loc) n (c : loc),
    valueSide pairs x -> hc !! x = Some n -> c ∈ Content n -> (c < length hc)%nat;
  ki_keys : forall j t, kids !! (2 * j)%nat = Some t -> hc !! root t = ha !! root t;
  ki_pairs : Forall2 (good_pair ha kids hc) pairs done
}.

Lemma valueSide_lt pairs (x : loc) :
  valueSide pairs x -> (x < length ha)%nat ->
  exists j t, kids !! S (2 * j) = Some t /\ x ∈ locs t.
Proof. intros [H | [H _]] Hx; [done | lia]. Qed.

Lemma key_root_out pairs j t :
  kids !! (2 * j)%nat = Some t -> ~ valueSide pairs (root t).
Proof.
  intros Ht Hv.
  destruct (valueSide_lt _ _ Hv) as (j' & t' & Ht' & Hin).
  - eapply Hlt; [exact Ht | apply root_in_locs].
  - apply (Hdis (2 * j) (S (2 * j')) t t' (root t) Ht Ht'); [lia | apply root_in_locs | done].
Qed.

Lemma valueSide_snoc pairs (k v x : loc) :
  valueSide pairs x -> x <> k -> valueSide (pairs ++ [(k, v)]) x.
Proof.
  intros [H | [H1 H2]] Hx; [by left | right]. split; [done|].
  intros kv [Hkv | Hkv]%elem_of_app; [by apply H2|].
  by apply list_elem_of_singleton in Hkv as ->.
Qed.

Lemma valueSide_less pairs (k v x : loc) :
  valueSide (pairs ++ [(k, v)]) x -> valueSide pairs x /\ ((length ha <= x)%nat -> x <> k).
Proof.
  intros [H | [H1 H2]].
  - split; [by left|]. destruct H as (j & t & Ht & Hx). pose proof (Hlt _ _ _ Ht Hx). lia.
  - split.
    + right. split; [done|]. intros kv Hkv. apply H2. apply elem_of_app. by left.
    + intros _. apply (H2 (k, v)). apply elem_of_app. right. by apply list_elem_of_singleton.
Qed.

Lemma pairs_lt done hc pairs kv :
  Forall2 (good_pair ha kids hc) pairs done -> kv ∈ pairs -> (fst kv < length hc)%nat.
Proof.
  intros H Hin. apply list_elem_of_lookup in Hin as (i & Hi).
  destruct (Forall2_lookup_l _ _ _ _ _ H Hi) as (e & _ & Hg). apply Hg.
Qed.

Lemma pair_out done hc pairs kv :
  Forall2 (good_pair ha kids hc) pairs done -> kv ∈ pairs ->
  ~ valueSide pairs (fst kv).
Proof.
  intros H Hin Hv. pose proof Hin as Hin'.
  apply list_elem_of_lookup in Hin' as (i & Hi).
  destruct (Forall2_lookup_l _ _ _ _ _ H Hi) as (e & _ & (_ & _ & Hg)).
  destruct Hg as [(j & Hk & _) | (Hge & _)].
  - apply kid_of_root in Hk as (t & Ht & Hr). rewrite <- Hr in Hv.
    by apply (key_root_out pairs j t).
  - destruct Hv as [(j & t & Ht & Hx) | [_ Hne]].
    + pose proof (Hlt _ _ _ Ht Hx). lia.
    + by apply (Hne kv).
Qed.

Lemma pairs_frame done hc hc' pairs :
  Forall2 (good_pair ha kids hc) pairs done ->
  (length hc <= length hc')%nat ->
  (forall kv, kv ∈ pairs -> hc' !! fst kv = hc !! fst kv) ->
  Forall2 (good_pair ha kids hc') pairs done.
Proof.
  intros H Hl. induction H as [|kv e pairs done Hg _ IH]; intros Hf; constructor.
  - destruct Hg as (H1 & (kn & Hkn & Hv) & H3). split; [lia|]. split; [|done].
    exists kn. split; [|done]. rewrite Hf; [done|]. apply list_elem_of_here.
  - apply IH. intros kv' Hin. apply Hf. by apply list_elem_of_further.
Qed.

Lemma keys_init : keys_inv [] ha [].
Proof.
  split.
  - done.
  - split.
    + intros x n c [(j & t & Ht & Hx) | [Hge _]] Hn Hc.
      * left. exists j, t. split; [done|].
        by eapply shape_closed; [eapply Hshape| | |].
      * apply lookup_lt_Some in Hn. lia.
    + intros x Hx. right. split; [done|]. by intros kv ?%elem_of_nil.
    + done.
  - intros x n c [(j & t & Ht & Hx) | [Hge _]] Hn Hc.
    + eapply Hlt; [exact Ht|]. by eapply shape_closed; [eapply Hshape| | |].
    + apply lookup_lt_Some in Hn. lia.
  - done.
  - constructor.
Qed.

Lemma keys_step done key elem hc pairs k v hc1 hc2 :
  keys_inv done hc pairs ->
  createOrReusePair node key (map root kids) baseIndent hc = (Ret (k, v), hc1) ->
  updateNode fuel v elem hc1 = (Ret tt, hc2) ->
  keys_inv (done ++ [(key, elem)]) hc2 (pairs ++ [(k, v)]).
Proof.
  intros Hinv Hc Hu.
  pose proof (updateNode_grows _ _ _ _ _ _ Hu) as [_ Hext].
  pose proof (ki_len _ _ _ Hinv) as Hlen.
  apply createOrReusePair_Ret in Hc
    as [(-> & j0 & kn0 & Hk & Hv & Hkn0 & Hkey & Hmin)
       | (-> & -> & Hl1 & Hold & (kn & vn & Hkn & Hvn & Hkey & _ & Hcv & _) & Hno)].
  - (* the pair is an original one *)
    pose proof Hk as Hk'. pose proof Hv as Hv'.
    apply kid_of_root in Hk' as (tk & Htk & Hrk).
    apply kid_of_root in Hv' as (tv & Htv & Hrv).
    assert (HRv : valueSide pairs v).
    { left. exists j0, tv. split; [done|]. rewrite <- Hrv. apply root_in_locs. }
    pose proof (updateNode_spec (valueSide pairs) False fuel elem v hc hc
                  (MI_refl _ _ _ (ki_pre _ _ _ Hinv)) HRv) as Hs.
    destruct (sat_run _ _ _ _ _ _ _ _ Hs Hu) as [HMI _].
    pose proof (mi_len _ _ _ _ HMI) as Hlen2.
    assert (Hkl : (k < length ha)%nat).
    { rewrite <- Hrk. eapply Hlt; [exact Htk | apply root_in_locs]. }
    assert (Hkout : ~ valueSide pairs k).
    { rewrite <- Hrk. by apply (key_root_out pairs j0 tk). }
    assert (Hka : ha !! k = Some kn0).
    { rewrite <- Hrk, <- (ki_keys _ _ _ Hinv j0 tk Htk). by rewrite Hrk. }
    split.
    + lia.
    + destruct (mi_pre _ _ _ _ HMI) as [Pc Pf _]. split.
      * intros x n c Hx Hn Hcn. apply valueSide_less in Hx as [Hx _].
        apply valueSide_snoc; [by apply (Pc x n c)|].
        intros ->. by apply Hkout, (Pc x n k).
      * intros x Hx. apply valueSide_snoc; [by apply Pf | lia].
      * done.
    + intros x n c Hx Hn Hcn. apply valueSide_less in Hx as [Hx _].
      destruct (decide (c < length hc2)%nat) as [|Hge]; [done|]. exfalso.
      destruct (Hext x n c Hn Hcn ltac:(lia)) as (n0 & Hn0 & Hc0).
      pose proof (ki_alloc _ _ _ Hinv x n0 c Hx Hn0 Hc0). lia.
    + intros j t Ht. rewrite (mi_frame _ _ _ _ HMI); [by apply (ki_keys _ _ _ Hinv j t)|].
      by apply (key_root_out pairs j t).
    + apply Forall2_app.
      * apply (pairs_frame done hc); [apply (ki_pairs _ _ _ Hinv) | lia |].
        intros kv Hin. apply (mi_frame _ _ _ _ HMI).
        exact (pair_out done hc pairs kv (ki_pairs _ _ _ Hinv) Hin).
      * constructor; [|constructor]. split; [|split].
        -- simpl. lia.
        -- exists kn0. simpl. split; [|done].
           by rewrite (mi_frame _ _ _ _ HMI).
        -- left. exists j0. repeat split; [done | done | by exists kn0 |].
           intros j' k' kn' Hj Hk'' Hkn'. apply (Hmin j' k' kn' Hj Hk'').
           apply kid_of_root in Hk'' as (t' & Ht' & Hr').
           by rewrite <- Hr', (ki_keys _ _ _ Hinv j' t' Ht'), Hr'.
  - (* the pair is new *)
    set (R := fun x : loc => (S (length hc) <= x)%nat).
    assert (Hp : pre R False hc1).
    { split; [| |done].
      - intros x n c Hx Hn Hcn. unfold R in Hx.
        assert (x = S (length hc)) as -> by (apply lookup_lt_Some in Hn; lia).
        assert (n = vn) as -> by congruence. rewrite Hcv in Hcn.
        by apply elem_of_nil in Hcn.
      - intros x Hx. unfold R. lia. }
    pose proof (updateNode_spec R False fuel elem (S (length hc)) hc1 hc1
                  (MI_refl _ _ _ Hp) (le_n _)) as Hs.
    destruct (sat_run _ _ _ _ _ _ _ _ Hs Hu) as [HMI _].
    assert (Hout : forall (x : loc), (x <= length hc)%nat -> hc2 !! x = hc1 !! x).
    { intros x Hx. apply (mi_frame _ _ _ _ HMI). unfold R. lia. }
    pose proof (mi_len _ _ _ _ HMI) as Hlen2.
    assert (Hout' : forall (x : loc), (x < length hc)%nat -> hc2 !! x = hc !! x).
    { intros x Hx. rewrite Hout by lia. by apply Hold. }
    assert (Hplt : forall kv, kv ∈ pairs ++ [(length hc, S (length hc))] ->
                              (fst kv <= length hc)%nat).
    { intros kv [Hkv | Hkv]%elem_of_app.
      - pose proof (pairs_lt _ _ _ _ (ki_pairs _ _ _ Hinv) Hkv). lia.
      - by apply list_elem_of_singleton in Hkv as ->. }
    assert (Hside : forall x : loc,
              valueSide (pairs ++ [(length hc, S (length hc))]) x ->
              (x <= length hc)%nat -> valueSide pairs x /\ (x < length hc)%nat).
    { intros x Hx Hle. apply valueSide_less in Hx as [Hx Hne]. split; [done|].
      destruct (decide (x < length ha)%nat); [lia|].
      assert (x <> length hc) by (apply Hne; lia). lia. }
    split.
    + lia.
    + split.
      * intros x n c Hx Hn Hcn.
        destruct (decide (x <= length hc)%nat) as [Hle | Hgt].
        -- destruct (Hside x Hx Hle) as [Hx0 Hxl]. rewrite Hout' in Hn by done.
           pose proof (pre_closed _ _ _ (ki_pre _ _ _ Hinv) x n c Hx0 Hn Hcn) as Hc0.
           pose proof (ki_alloc _ _ _ Hinv x n c Hx0 Hn Hcn) as Hcl.
           apply valueSide_snoc; [done | lia].
        -- assert (HRc : R c).
           { apply (pre_closed _ _ _ (mi_pre _ _ _ _ HMI) x n c); [unfold R; lia | done | done]. }
           unfold R in HRc. right. split; [lia|].
           intros kv Hkv. apply Hplt in Hkv. lia.
      * intros x Hx. right. split; [lia|]. intros kv Hkv. apply Hplt in Hkv. lia.
      * done.
    + intros x n c Hx Hn Hcn.
      destruct (decide (c < length hc2)%nat) as [|Hge]; [done|]. exfalso.
      destruct (Hext x n c Hn Hcn ltac:(lia)) as (n1 & Hn1 & Hc1).
      destruct (decide (x <= length hc)%nat) as [Hle | Hgt].
      * destruct (Hside x Hx Hle) as [Hx0 Hxl]. rewrite Hold in Hn1 by done.
        pose proof (ki_alloc _ _ _ Hinv x n1 c Hx0 Hn1 Hc1). lia.
      * assert (x = S (length hc)) as -> by (apply lookup_lt_Some in Hn1; lia).
        assert (n1 = vn) as -> by congruence. rewrite Hcv in Hc1.
        by apply elem_of_nil in Hc1.
    + intros j t Ht. rewrite Hout'; [by apply (ki_keys _ _ _ Hinv j t)|].
      pose proof (Hlt _ _ _ Ht (root_in_locs t)). lia.
    + apply Forall2_app.
      * apply (pairs_frame done hc); [apply (ki_pairs _ _ _ Hinv) | lia |].
        intros kv Hin. apply Hout'. exact (pairs_lt done hc pairs kv (ki_pairs _ _ _ Hinv) Hin).
      * constructor; [|constructor]. split; [|split].
        -- simpl. lia.
        -- exists kn. simpl. split; [|done]. by rewrite Hout.
        -- right. simpl. split; [lia|]. split; [done|]. intros j k' kn' Hk' Hkn'.
           apply (Hno j k' kn' Hk').
           apply kid_of_root in Hk' as (t' & Ht' & Hr').
           by rewrite <- Hr', (ki_keys _ _ _ Hinv j t' Ht'), Hr'.
Qed.

Lemma mappingEntries_keys es :
  forall done hc pairs newContent hb,
  keys_inv done hc pairs ->
  mappingEntries_ (updateNode fuel) false node (map root kids) baseIndent es
    (flatten pairs) hc = (Ret newContent, hb) ->
  exists pairs', newContent = flatten pairs' /\ keys_inv (done ++ es) hb pairs'.
Proof.
  induction es as [|[key elem] rest IH]; intros done hc pairs newContent hb Hinv H.
  - simpl in H. apply ret_Ret in H as [-> ->]. exists pairs.
    by rewrite app_nil_r.
  - simpl in H. apply bind_Ret in H as (key' & hx & Hkey & H).
    apply ret_Ret in Hkey as [-> ->].
    apply bind_Ret in H as ([k v] & hc1 & Hc & H).
    apply bind_Ret in H as ([] & hc2 & Hu & H). apply wrapErr_Ret in Hu.
    simpl in Hu, H. rewrite <- flatten_snoc_pair in H.
    replace (done ++ (key, elem) :: rest) with ((done ++ [(key, elem)]) ++ rest)
      by (by rewrite <- app_assoc).
    apply (IH _ _ _ _ _ (keys_step _ _ _ _ _ _ _ _ _ Hinv Hc Hu) H).
Qed.

End KeysLoop.

(** A Mapping merge, from the store before it to the store after it: the
    invariant of the loop holds for all the entries, and the node's
    children are the pairs of the loop. *)
Lemma updateNode_mapping_pairs fuel node keyKind entries kids (h : heap) h' n :
  tree_ok h (TNode node kids) -> h !! node = Some n ->
  updateNode fuel node (reflect.VMap keyKind entries) h = (Ret tt, h') ->
  exists pairs hb n',
    keys_inv (<[node := setTag "!!map" (setKind MappingNode n)]> h) kids
      entries hb pairs /\
    h' !! node = Some n' /\ Content n' = flatten pairs /\
    (forall x : loc, x <> node -> h' !! x = hb !! x).
Proof.
  intros Hok Hn H.
  destruct (kids_content _ _ _ Hok) as (n0 & Hn0 & Hc).
  assert (n0 = n) as -> by congruence. clear Hn0.
  rewrite updateNode_eq in H. minv H. reads_of Hn.
  apply bind_Ret in H as ([] & h1 & Hm & H).
  unfold updateMapping_ in Hm. minv Hm. reads_of Hn. read_writes.
  rewrite list_insert_insert_eq in Hm.
  set (ha := <[node := setTag "!!map" (setKind MappingNode n)]> h) in *.
  apply bind_Ret in Hm as (baseIndent & h2 & Hb & Hm).
  apply baseIndentOf_Ret in Hb as ->.
  apply bind_Ret in Hm as (newContent & hb & Hl & Hm).
  assert (Hlen : length ha = length h) by (subst ha; by rewrite length_insert).
  assert (Hsame : forall x : loc, x <> node -> ha !! x = h !! x).
  { intros x Hx. subst ha. by rewrite list_lookup_insert_ne. }
  assert (Hshape : forall p t, kids !! p = Some t -> shape ha t).
  { intros p t Hp. eapply shape_agree; [|by eapply kid_shape].
    intros x Hx. apply Hsame. intros ->. by eapply kid_not_node. }
  assert (Hlt : forall p t (x : loc), kids !! p = Some t -> x ∈ locs t ->
                                      (x < length ha)%nat).
  { intros p t x Hp Hx. rewrite Hlen. by eapply kid_lt. }
  rewrite Hc in Hl.
  destruct (mappingEntries_keys fuel ha node kids baseIndent Hlt
              (kid_disjoint _ _ _ Hok) entries [] ha [] newContent hb
              (keys_init ha kids Hshape Hlt) Hl)
    as (pairs & -> & Hinv).
  unfold restore in H. minv Hm. minv H. read_writes.
  exists pairs, hb. eexists. split; [exact Hinv|]. split; [|split].
  - apply list_lookup_insert_eq. rewrite !length_insert. by eapply lookup_lt_Some.
  - done.
  - intros x Hx. by rewrite !list_lookup_insert_ne.
Qed.

(** C3, as the code has it.  After the merge of a map that is nested in the
    merged value, which [updateNode] hands to [updateMapping], into a node
    that is the root of a tree, the node's children are one (key, value)
    pair for each entry of the new map, in the order of the entries, and
    the key node of each pair holds the key of its entry: the keys of the
    children are exactly the keys of the new map.  An original pair whose
    key is not a key of the new map is no longer among the children. *)
Theorem updateNode_mapping_keys fuel node keyKind entries kids (h : heap) h' :
  tree_ok h (TNode node kids) ->
  updateNode fuel node (reflect.VMap keyKind entries) h = (Ret tt, h') ->
  exists n' pairs,
    h' !! node = Some n' /\ Content n' = flatten pairs /\
    Forall2 (fun kv e => exists kn, h' !! fst kv = Some kn /\ Value kn = fst e)
      pairs entries /\
    (forall j tk kn, kids !! (2 * j)%nat = Some tk -> h !! root tk = Some kn ->
       Value kn ∉ map fst entries ->
       (root tk ∉ Content n') /\
       (forall tv, kids !! S (2 * j) = Some tv -> root tv ∉ Content n')).
Proof.
  intros Hok H.
  destruct (kids_content _ _ _ Hok) as (n & Hn & Hc).
  destruct (updateNode_mapping_pairs _ _ _ _ _ _ _ _ Hok Hn H)
    as (pairs & hb & n' & Hinv & Hn' & Hcn & Hout).
  set (ha := <[node := setTag "!!map" (setKind MappingNode n)]> h) in *.
  assert (Hlen : length ha = length h) by (subst ha; by rewrite length_insert).
  assert (Hnode : (node < length h)%nat) by (by eapply lookup_lt_Some).
  assert (Hsame : forall x : loc, x <> node -> ha !! x = h !! x).
  { intros x Hx. subst ha. by rewrite list_lookup_insert_ne. }
  assert (Hkne : forall kv e, good_pair ha kids hb kv e -> fst kv <> node).
  { intros kv e (_ & _ & [(j & Hk & _)|[Hge _]]).
    - apply kid_of_root in Hk as (t & Ht & Hr). intros Heq.
      apply (kid_not_node _ _ _ Hok _ _ Ht). rewrite <- Heq, <- Hr. apply root_in_locs.
    - lia. }
  exists n', pairs. split; [done|]. split; [done|]. split.
  - eapply Forall2_impl; [apply (ki_pairs _ _ _ _ _ Hinv)|].
    intros kv e Hg. pose proof (Hkne kv e Hg) as Hne.
    destruct Hg as (_ & (kn & Hkn & Hv) & _). exists kn. split; [|done].
    by rewrite Hout.
  - intros j tk kn Htk Hkn Hnotin.
    assert (Hrk : root tk <> node).
    { intros Heq. apply (kid_not_node _ _ _ Hok _ _ Htk). rewrite <- Heq.
      apply root_in_locs. }
    assert (Hka : ha !! root tk = Some kn) by (by rewrite Hsame).
    assert (Hpair : forall kv e, kv ∈ pairs -> e ∈ entries -> good_pair ha kids hb kv e ->
              forall q t, kids !! q = Some t -> (q = (2 * j)%nat \/ q = S (2 * j)) ->
              root t <> fst kv /\ root t <> snd kv).
    { intros [k v] e Hkv He (_ & _ & Hg) q t Ht Hq. cbn [fst snd] in *.
      destruct Hg as [(j1 & Hk1 & Hv1 & (kn1 & Hkn1 & Hval1) & _)|[Hge [Hv _]]].
      - apply kid_of_root in Hk1 as (t1 & Ht1 & Hr1).
        apply kid_of_root in Hv1 as (t2 & Ht2 & Hr2).
        assert (Hj : j1 <> j).
        { intros ->. assert (t1 = tk) as -> by congruence.
          rewrite Hr1, Hkn1 in Hka. injection Hka as <-.
          apply Hnotin. rewrite Hval1. apply list_elem_of_fmap. by exists e. }
        split; intros Heq.
        + apply (kid_disjoint _ _ _ Hok q (2 * j1)%nat t t1 (root t) Ht Ht1);
            [lia | apply root_in_locs | rewrite Heq, <- Hr1; apply root_in_locs].
        + apply (kid_disjoint _ _ _ Hok q (S (2 * j1)) t t2 (root t) Ht Ht2);
            [lia | apply root_in_locs | rewrite Heq, <- Hr2; apply root_in_locs].
      - (* a new pair: both nodes are allocated by the merge *)
        pose proof (kid_lt _ _ _ Hok _ _ _ Ht (root_in_locs t)).
        split; lia. }
    assert (Hnot : forall q t, kids !! q = Some t -> (q = (2 * j)%nat \/ q = S (2 * j)) ->
                               root t ∉ Content n').
    { intros q t Ht Hq Hin. rewrite Hcn in Hin.
      apply elem_of_flatten in Hin as (kv & Hkv & Hx).
      destruct (proj1 (list_elem_of_lookup _ _) Hkv) as [i Hi].
      destruct (Forall2_lookup_l _ _ _ _ _ (ki_pairs _ _ _ _ _ Hinv) Hi)
        as (e & He & Hg).
      destruct (Hpair kv e Hkv (list_elem_of_lookup_2 _ _ _ He) Hg q t Ht Hq).
      by destruct Hx. }
    split; [by apply (Hnot (2 * j)%nat tk Htk); left|].
    intros tv Htv. apply (Hnot (S (2 * j)) tv Htv). by right.
Qed.



(** The mapping [CS101: A] / [CS102: B] under node 0. *)
Definition sample_courses : heap :=
  [ mkNode MappingNode 0 "!!map" "" "" None [1; 2; 3; 4]%nat "" "" "" 1 1;
    sample_scalar "CS101" "!!str" 1 1;
    sample_scalar "A" "!!str" 1 8;
    sample_scalar "CS102" "!!str" 2 1;
    sample_scalar "B" "!!str" 2 8 ].

Definition sample_courses_kids : list tree :=
  [TNode 1 []; TNode 2 []; TNode 3 []; TNode 4 []].

Definition sample_courses_new : list (string * reflect.Value) :=
  [ ("CS102", reflect.VString "A+"); ("CS201", reflect.VString "B") ].

Lemma updateNode_mapping_keys_witness :
  exists n' pairs,
    snd (updateNode 0 0%nat (reflect.VMap reflect.String sample_courses_new)
           sample_courses) !! 0%nat = Some n' /\
    Content n' = flatten pairs /\
    Forall2 (fun kv e =>
               exists kn,
                 snd (updateNode 0 0%nat (reflect.VMap reflect.String sample_courses_new)
                        sample_courses) !! fst kv = Some kn /\ Value kn = fst e)
      pairs sample_courses_new /\
    1%nat ∉ Content n'.
Proof.
  destruct (updateNode_mapping_keys 0 0%nat reflect.String sample_courses_new
              sample_courses_kids sample_courses
              (snd (updateNode 0 0%nat (reflect.VMap reflect.String sample_courses_new)
                      sample_courses))
              (tree_okb_ok sample_courses (TNode 0 sample_courses_kids) eq_refl)
              eq_refl)
    as (n' & pairs & H1 & H2 & H3 & H4).
  exists n', pairs. split; [exact H1|]. split; [exact H2|]. split; [exact H3|].
  refine (proj1 (H4 0%nat (TNode 1 []) _ eq_refl eq_refl _)).
  simpl. intros Hin. rewrite !elem_of_cons, elem_of_nil in Hin.
  destruct Hin as [Hin|[Hin|[]]]; discriminate.
Defined.

(** C3 as stated fails: a string-keyed map merged at the top level, by the
    map arm of [updateYamlFromStruct], keeps the pair [CS101: A] although
    [CS101] is no key of the new map; the children afterwards hold the keys
    [CS101], [CS102] and [CS201]. *)
Lemma top_level_map_keeps_old_key :
  ("CS101" ∉ map fst sample_courses_new) /\
  exists h' n',
    updateYamlFromStruct 0 0%nat (reflect.VMap reflect.String sample_courses_new)
      sample_courses = (Ret tt, h') /\
    h' !! 0%nat = Some n' /\ Content n' = [1; 2; 3; 4; 5; 6]%nat /\
    (Value <$> h' !! 1%nat) = Some "CS101" /\
    (Value <$> h' !! 3%nat) = Some "CS102" /\
    (Value <$> h' !! 5%nat) = Some "CS201".
Proof.
  split.
  - simpl. rewrite !elem_of_cons, elem_of_nil. intuition discriminate.
  - eexists _, _. split; [vm_compute; reflexivity|]. by repeat split.
Qed.



(** ** Records: the pairs the struct does not name *)

Section RecordLoop.

Variable fuel : nat.
Variable h : heap.
Variable node : loc.
Variable kids : list tree.
Variable j : nat.
Variable tk tv : tree.
Variable kn : Node.

Hypothesis Hok : tree_ok h (TNode node kids).
Hypothesis Hk : kids !! (2 * j)%nat = Some tk.
Hypothesis Hv : kids !! S (2 * j) = Some tv.
Hypothesis Hkn : h !! root tk = Some kn.

(** The pointers of the pair under watch. *)
Definition spared (x : loc) : Prop := x ∈ locs tk \/ x ∈ locs tv.

(** Where the field merges may write: the other pairs' subtrees and the
pointers allocated since. *)
Definition workspace (x : loc) : Prop :=
(x ∈ flat_map locs kids /\ ~ spared x) \/ (length h <= x)%nat.

Record record_inv (hc : heap) : Prop := {
ri_pre : pre workspace False hc;
ri_len : (length h <= length hc)%nat;
ri_spared : forall x : loc, spared x -> hc !! x = h !! x;
ri_node : exists nc extra,
hc !! node = Some nc /\ Content nc = map root kids ++ extra /\
Forall (fun x : loc => (length h <= x < length hc)%nat) extra
}.

Lemma spared_lt (x : loc) : spared x -> (x < length h)%nat.
Proof.
intros [Hx | Hx].
- exact (kid_lt h node kids Hok _ _ x Hk Hx).
- exact (kid_lt h node kids Hok _ _ x Hv Hx).
Qed.

Lemma spared_not_node (x : loc) : spared x -> x <> node.
Proof.
intros [Hx | Hx] ->.
- exact (kid_not_node h node kids Hok _ _ Hk Hx).
- exact (kid_not_node h node kids Hok _ _ Hv Hx).
Qed.

Lemma spared_not_workspace (x : loc) : spared x -> ~ workspace x.
Proof.
intros Hx [[_ Hn] | Hl]; [done|]. apply spared_lt in Hx. lia.
Qed.

Lemma node_lt : (node < length h)%nat.
Proof.
destruct (kids_content h node kids Hok) as (n & Hn & _). by eapply lookup_lt_Some.
Qed.

Lemma node_not_workspace : ~ workspace node.
Proof.
intros [[Hin _] | Hl].
- destruct Hok as [_ Hnd]. simpl in Hnd. by apply NoDup_cons in Hnd as [Hn _].
- pose proof node_lt. lia.
Qed.

Lemma kid_root_lt (c : loc) : c ∈ map root kids -> (c < length h)%nat.
Proof.
intros Hc. apply list_elem_of_fmap in Hc as (t & -> & Ht).
apply list_elem_of_lookup in Ht as (p & Hp).
eapply (kid_lt h node kids Hok); [exact Hp | apply root_in_locs].
Qed.

Lemma workspace_closed (x : loc) n c :
workspace x -> h !! x = Some n -> c ∈ Content n -> workspace c.
Proof.
intros [[Hx Hns] | Hl] Hn Hc.
- apply elem_of_flat_map_locs in Hx as (t & Ht & Hx).
apply list_elem_of_lookup in Ht as (p & Hp).
assert (Hct : c ∈ locs t).
{ eapply shape_closed; [by eapply (kid_shape h node kids Hok) | exact Hx | exact Hn | exact Hc]. }
left. split.
+ apply elem_of_flat_map_locs. exists t. split; [by eapply list_elem_of_lookup_2 | done].
+ intros [Hc' | Hc'].
* destruct (decide (p = (2 * j)%nat)) as [-> | Hne].
-- assert (t = tk) as -> by congruence. apply Hns. by left.
-- by apply (kid_disjoint h node kids Hok p (2 * j)%nat t tk c Hp Hk).
* destruct (decide (p = S (2 * j))) as [-> | Hne].
-- assert (t = tv) as -> by congruence. apply Hns. by right.
-- by apply (kid_disjoint h node kids Hok p (S (2 * j)) t tv c Hp Hv).
- apply lookup_lt_Some in Hn. lia.
Qed.

Lemma record_inv_init : record_inv h.
Proof.
split.
- split.
+ apply workspace_closed.
+ intros x Hx. by right.
+ done.
- done.
- done.
- destruct (kids_content h node kids Hok) as (n & Hn & Hc).
exists n, []. rewrite app_nil_r. by repeat split.
Qed.

(** A write to the mapping node that keeps its children. *)
Lemma record_inv_retag hc nc nc' :
record_inv hc -> hc !! node = Some nc -> Content nc' = Content nc ->
record_inv (<[node := nc']> hc).
Proof.
intros [Hp Hl Hs (n0 & extra & Hn0 & Hc0 & Hex)] Hnc Hc.
assert (n0 = nc) as -> by congruence.
split.
- split.
+ intros x n c Hx Hn. rewrite list_lookup_insert_ne in Hn.
* exact (pre_closed _ _ _ Hp x n c Hx Hn).
* intros <-. by apply node_not_workspace.
+ intros x Hx. right. rewrite length_insert in Hx. lia.
+ done.
- by rewrite length_insert.
- intros x Hx. rewrite list_lookup_insert_ne; [by apply Hs|].
intros E. by apply (spared_not_node x).
- exists nc', extra. rewrite length_insert. split; [|split; [congruence | done]].
apply list_lookup_insert_eq. by eapply lookup_lt_Some.
Qed.

(** A call that works in the workspace keeps the invariant. *)
Lemma record_inv_call hc hc' :
record_inv hc -> MI workspace False hc hc' -> record_inv hc'.
Proof.
intros [Hp Hl Hs (nc & extra & Hnc & Hc & Hex)] HMI.
pose proof (mi_len _ _ _ _ HMI) as Hlen.
split.
- apply HMI.
- lia.
- intros x Hx. rewrite (mi_frame _ _ _ _ HMI); [by apply Hs|].
by apply spared_not_workspace.
- exists nc, extra. split; [|split; [done|]].
+ rewrite (mi_frame _ _ _ _ HMI); [done | apply node_not_workspace].
+ eapply Forall_impl; [exact Hex|]. simpl. intros x Hx. lia.
Qed.

(** The appended pair is part of the workspace. *)
Lemma record_inv_append hc nc key k v h2 :
record_inv hc -> hc !! node = Some nc ->
newPair hc h2 node nc key k v -> record_inv h2.
Proof.
intros [Hp Hl Hs (n0 & extra & Hn0 & Hc0 & Hex)] Hnc
[-> -> Hlen Hold Hmap (kn' & vn' & Hkn' & Hvn' & _ & _ & _ & Hkc & _ & Hvc & _)].
assert (n0 = nc) as -> by congruence.
split.
- split.
+ intros x n c Hx Hn Hc.
assert (Hxlt : (x < length h2)%nat) by (by eapply lookup_lt_Some).
destruct (decide (x < length hc)%nat) as [Hlt | Hge].
* rewrite Hold in Hn; [by apply (pre_closed _ _ _ Hp x n c)| done |].
intros ->. by apply node_not_workspace.
* destruct (decide (x = length hc)) as [-> | Hne].
-- assert (n = kn') as -> by congruence. rewrite Hkc in Hc.
by apply elem_of_nil in Hc.
-- assert (x = S (length hc)) as -> by lia.
assert (n = vn') as -> by congruence. rewrite Hvc in Hc.
by apply elem_of_nil in Hc.
+ intros x Hx. right. lia.
+ done.
- lia.
- intros x Hx. rewrite Hold; [by apply Hs | |by apply spared_not_node].
apply spared_lt in Hx. lia.
- exists (setContent (Content nc ++ [length hc; S (length hc)]) nc),
(extra ++ [length hc; S (length hc)]).
split; [done|]. split.
+ simpl. by rewrite Hc0, <- app_assoc.
+ apply Forall_app. split.
* eapply Forall_impl; [exact Hex|]. simpl. intros x Hx. lia.
* repeat constructor; lia.
Qed.

Lemma record_children_lt hc nc :
record_inv hc -> hc !! node = Some nc ->
forall c, c ∈ Content nc -> (c < length hc)%nat.
Proof.
intros [Hp Hl Hs (n0 & extra & Hn0 & Hc0 & Hex)] Hnc c Hc.
assert (n0 = nc) as -> by congruence.
rewrite Hc0 in Hc. apply elem_of_app in Hc as [Hc | Hc].
- apply kid_root_lt in Hc. lia.
- rewrite Forall_forall in Hex. apply Hex in Hc. lia.
Qed.

(** The value node [findNodes] returns for another key is in the
workspace. *)
Lemma found_in_workspace hc nc q k v kq key :
record_inv hc -> hc !! node = Some nc ->
Content nc !! (2 * q)%nat = Some k -> Content nc !! S (2 * q) = Some v ->
hc !! k = Some kq -> Value kq = key -> key <> Value kn ->
workspace v.
Proof.
intros [Hp Hl Hs (n0 & extra & Hn0 & Hc0 & Hex)] Hnc Hck Hcv Hkq Hval Hne.
assert (n0 = nc) as -> by congruence.
rewrite Hc0 in Hck, Hcv.
destruct (decide (S (2 * q) < length (map root kids))%nat) as [Hin | Hout].
- rewrite lookup_app_l in Hcv by done. rewrite lookup_app_l in Hck by lia.
apply (kid_of_root kids) in Hcv as (t & Ht & <-).
apply (kid_of_root kids) in Hck as (t' & Ht' & <-).
assert (Hqj : q <> j).
{ intros ->. assert (t' = tk) as -> by congruence.
rewrite Hs in Hkq by (left; apply root_in_locs).
assert (kq = kn) as -> by congruence. by apply Hne. }
left. split.
+ apply elem_of_flat_map_locs. exists t.
split; [by eapply list_elem_of_lookup_2 | apply root_in_locs].
+ intros [Hx | Hx].
* apply (kid_disjoint h node kids Hok (S (2 * q)) (2 * j)%nat t tk (root t) Ht Hk);
[lia | apply root_in_locs | done].
* apply (kid_disjoint h node kids Hok (S (2 * q)) (S (2 * j)) t tv (root t) Ht Hv);
[lia | apply root_in_locs | done].
- rewrite lookup_app_r in Hcv by lia.
apply list_elem_of_lookup_2 in Hcv. rewrite Forall_forall in Hex.
apply Hex in Hcv. right. lia.
Qed.

Lemma updateField_keeps hc fieldType fieldValue hc' :
record_inv hc -> yamlTagOf fieldType <> Value kn ->
updateField fuel node fieldType fieldValue hc = (Ret tt, hc') ->
record_inv hc'.
Proof.
intros Hinv Hne H. unfold updateField, updateField_ in H. cbv zeta in H.
destruct (ri_node _ Hinv) as (nc & extra & Hnc & Hc & Hex).
apply bind_Ret in H as (found & h1 & Hf & H).
apply (findNodes_Ret _ _ _ nc) in Hf as [-> Hfound]; [|done].
apply bind_Ret in H as ([k v] & h2 & Ha & H). cbn [snd] in H.
destruct found as [[k0 v0]|].
- apply ret_Ret in Ha as [[= -> ->] ->].
destruct Hfound as (q & kq & Hck & Hcv & Hkq & Hval & _).
assert (Hw : workspace v0) by (by eapply found_in_workspace).
pose proof (updateNode_spec workspace False fuel fieldValue v0 hc hc
      (MI_refl _ _ _ (ri_pre _ Hinv)) Hw) as Hsat.
destruct (sat_run _ _ _ _ _ _ _ _ Hsat H) as [HMI _].
by eapply record_inv_call.
- apply (appendNewPair_Ret _ _ _ nc) in Ha; [|done|by apply record_children_lt].
assert (Hinv2 : record_inv h2) by (by eapply record_inv_append).
assert (Hw : workspace v).
{ destruct Ha as [_ -> _ _ _ _]. right. pose proof (ri_len _ Hinv). lia. }
pose proof (updateNode_spec workspace False fuel fieldValue v h2 h2
      (MI_refl _ _ _ (ri_pre _ Hinv2)) Hw) as Hsat.
destruct (sat_run _ _ _ _ _ _ _ _ Hsat H) as [HMI _].
by eapply record_inv_call.
Qed.

Lemma structFields_keeps fields hc hc' :
record_inv hc ->
Forall (fun f => yamlTagOf (fst f) <> Value kn) fields ->
structFields_ (updateNode fuel) node fields hc = (Ret tt, hc') ->
record_inv hc'.
Proof.
revert hc. induction fields as [|[fieldType fieldValue] rest IH]; intros hc Hinv Hall H.
- simpl in H. apply ret_Ret in H as [_ ->]. done.
- simpl in H. apply bind_Ret in H as ([] & h1 & Hstep & H).
apply wrapErr_Ret in Hstep. apply Forall_cons in Hall as [Hne Hall].
apply (IH h1); [|done|done]. by eapply updateField_keeps.
Qed.

Lemma record_inv_pair hc :
record_inv hc ->
exists n', hc !! node = Some n' /\
Content n' !! (2 * j)%nat = Some (root tk) /\
Content n' !! S (2 * j) = Some (root tv) /\
forall x : loc, x ∈ locs tk ++ locs tv -> hc !! x = h !! x.
Proof.
intros [Hp Hl Hs (nc & extra & Hnc & Hc & Hex)]. exists nc.
split; [done|]. rewrite Hc. split; [|split].
- apply lookup_app_l_Some. by apply kid_root.
- apply lookup_app_l_Some. by apply kid_root.
- intros x Hx. apply Hs. by apply elem_of_app in Hx.
Qed.

End RecordLoop.

(** C2.  A Record merge into a node that is not a Document (a mapping node
    in particular) never deletes an entry: a (key, value) pair of the
    original node whose key is the resolved name of no field of the record
    is still at its place among the node's children after the merge, and
    no node of the key's or the value's subtree has been written. *)
Theorem updateYamlFromStruct_keeps_pairs fuel node fields kids (h : heap) h' n j tk tv kn :
  tree_ok h (TNode node kids) ->
  h !! node = Some n -> Kind n <> DocumentNode ->
  kids !! (2 * j)%nat = Some tk -> kids !! S (2 * j) = Some tv ->
  h !! root tk = Some kn ->
  Value kn ∉ map (fun f => yamlTagOf (fst f)) fields ->
  updateYamlFromStruct fuel node (reflect.VStruct fields) h = (Ret tt, h') ->
  exists n', h' !! node = Some n' /\
    Content n' !! (2 * j)%nat = Some (root tk) /\
    Content n' !! S (2 * j) = Some (root tv) /\
    forall x : loc, x ∈ locs tk ++ locs tv -> h' !! x = h !! x.
Proof.
  intros Hok Hn Hkind Hk Hv Hkn Hfresh H.
  unfold updateYamlFromStruct, updateYamlFromStruct_ in H. cbv zeta in H.
  rewrite (bind_run _ _ _ _ _ (documentChild_other fuel node h n Hn Hkind)) in H.
  destruct (ensureMapping_run node h n Hn) as (m' & Hrun & _ & Hc & _).
  rewrite (bind_run _ _ _ _ _ Hrun) in H. simpl in H.
  assert (Hinv : record_inv h node kids tk tv h') ; [|by apply (record_inv_pair _ _ _ j) in Hinv].
  eapply (structFields_keeps fuel h node kids j tk tv kn); [done..| | |exact H].
  - eapply (record_inv_retag h node kids j tk tv); eauto.
    by apply (record_inv_init h node kids j tk tv).
  - apply Forall_forall. intros f Hf E. apply Hfresh. rewrite <- E.
    apply list_elem_of_fmap. by exists f.
Qed.

(** A record that names [CS102] and a new field, merged into the mapping
    [CS101: A] / [CS102: B]. *)
Definition sample_courses_record : list (reflect.StructField * reflect.Value) :=
  [ (reflect.mkField "Second" "CS102", reflect.VString "A+");
    (reflect.mkField "Room" "", reflect.VInt 5) ].

Lemma updateYamlFromStruct_keeps_pairs_witness :
  exists n',
    snd (updateYamlFromStruct 0 0%nat (reflect.VStruct sample_courses_record)
           sample_courses) !! 0%nat = Some n' /\
    Content n' !! 0%nat = Some 1%nat /\ Content n' !! 1%nat = Some 2%nat /\
    snd (updateYamlFromStruct 0 0%nat (reflect.VStruct sample_courses_record)
           sample_courses) !! 2%nat = sample_courses !! 2%nat.
Proof.
  destruct (updateYamlFromStruct_keeps_pairs 0 0%nat sample_courses_record
              sample_courses_kids sample_courses
              (snd (updateYamlFromStruct 0 0%nat (reflect.VStruct sample_courses_record)
                      sample_courses))
              _ 0%nat (TNode 1 []) (TNode 2 []) _
              (tree_okb_ok sample_courses (TNode 0 sample_courses_kids) eq_refl)
              eq_refl ltac:(simpl; discriminate) eq_refl eq_refl eq_refl
              ltac:(simpl; rewrite !elem_of_cons, elem_of_nil; intuition discriminate)
              eq_refl)
    as (n' & H1 & H2 & H3 & H4).
  exists n'. split; [exact H1|]. split; [exact H2|]. split; [exact H3|].
  apply H4. simpl. rewrite !elem_of_cons. tauto.
Defined.

(** * Further properties of the engine *)

(** ** The detected indent width *)

(** The test [len(line) == 0 || line[0] != ' '] of [detectIndentation],
    negated. *)
Definition beginsWithSpace (line : string) : bool :=
  match line with
  | String ch _ => Ascii.eqb ch " "%char
  | EmptyString => false
  end.

Lemma leadingSpaces_nonneg line : 0 <= leadingSpaces line.
Proof.
  induction line as [|ch rest IH]; simpl; [lia|].
  destruct (Ascii.eqb ch " "%char); lia.
Qed.

Lemma leadingSpaces_begins line : beginsWithSpace line = true -> 0 < leadingSpaces line.
Proof.
  destruct line as [|ch rest]; simpl; [done|]. intros ->.
  pose proof (leadingSpaces_nonneg rest). lia.
Qed.

(** One turn of the loop over the lines. *)
Lemma detectIndentation_lines_cons line rest :
  detectIndentation_lines (line :: rest) =
  if beginsWithSpace line && (0 <? leadingSpaces line)
  then leadingSpaces line else detectIndentation_lines rest.
Proof.
  destruct line as [|ch tl]; [done|].
  cbn [detectIndentation_lines beginsWithSpace].
  by destruct (Ascii.eqb ch " "%char).
Qed.

Lemma detectIndentation_lines_skip before rest :
  Forall (fun l => beginsWithSpace l = false) before ->
  detectIndentation_lines (before ++ rest) = detectIndentation_lines rest.
Proof.
  induction 1 as [|line before Hl _ IH]; [done|].
  rewrite <- app_comm_cons, detectIndentation_lines_cons. by rewrite Hl.
Qed.

(** X1. The indent width [detectIndentation] hands to the encoder is
    always at least 1, whatever the text. *)
Theorem detectIndentation_positive content : 0 < detectIndentation content.
Proof.
  unfold detectIndentation.
  induction (bytes_Split content) as [|line rest IH]; [done|].
  rewrite detectIndentation_lines_cons.
  destruct (beginsWithSpace line); [|done].
  destruct (0 <? leadingSpaces line) eqn:E; [|done].
  by apply Z.ltb_lt in E.
Qed.

(** X2. The indent width is the number of leading spaces of the first line
    that begins with a space, whatever the lines after it are: lines that
    are empty or begin with another character (a tab included) are passed
    over. *)
Theorem detectIndentation_first_indented content before line after :
  bytes_Split content = before ++ line :: after ->
  Forall (fun l => beginsWithSpace l = false) before ->
  beginsWithSpace line = true ->
  detectIndentation content = leadingSpaces line.
Proof.
  intros Hsplit Hbefore Hline. unfold detectIndentation.
  rewrite Hsplit, detectIndentation_lines_skip by done.
  rewrite detectIndentation_lines_cons, Hline.
  apply leadingSpaces_begins, Z.ltb_lt in Hline. by rewrite Hline.
Qed.

Lemma detectIndentation_first_indented_witness :
  detectIndentation sample_indent4_source = leadingSpaces "    x: 1".
Proof.
  apply (detectIndentation_first_indented sample_indent4_source ["top:"] "    x: 1" [""]).
  - reflexivity.
  - repeat constructor.
  - reflexivity.
Defined.

(** X3. A text none of whose lines begins with a space has the default
    indent width 2. *)
Theorem detectIndentation_default content :
  Forall (fun l => beginsWithSpace l = false) (bytes_Split content) ->
  detectIndentation content = 2.
Proof.
  intros H. unfold detectIndentation.
  rewrite <- (app_nil_r (bytes_Split content)).
  by rewrite detectIndentation_lines_skip.
Qed.

Lemma detectIndentation_default_witness :
  detectIndentation ("a: 1" +:+ newline +:+ "b: 2") = 2.
Proof.
  apply detectIndentation_default. vm_compute. repeat constructor.
Defined.

(** ** What no merge writes *)

(** The layout fields of a node that the encoder reads besides the
    comments. *)
Definition layout (n : Node) : Z * Z * string * option loc :=
  (Style n, Line n, Anchor n, Alias n).

Lemma MI_keeps_layout R C (h h' : heap) (x : loc) n :
  MI R C h h' -> h !! x = Some n ->
  exists n', h' !! x = Some n' /\ layout n' = layout n.
Proof.
  intros H Hx. destruct (mi_meta _ _ _ _ H x n Hx) as (n' & Hn' & Hm).
  exists n'. split; [done|]. unfold layout.
  destruct Hm as (-> & _ & _ & _ & -> & -> & ->). done.
Qed.

(** X4. Whatever value is merged and however the merge ends (normally, with
    an error or in a panic), every node that was in the store keeps its
    style, its line, its anchor and its alias: this holds for
    [updateNode], for [updateYamlFromStruct] and for the node stage of
    [UpdateYAML]. *)
Theorem merge_keeps_layout fuel node value (h : heap) (x : loc) n :
  h !! x = Some n ->
  (exists n', snd (updateNode fuel node value h) !! x = Some n' /\
              layout n' = layout n) /\
  (exists n', snd (updateYamlFromStruct fuel node value h) !! x = Some n' /\
              layout n' = layout n) /\
  (exists n', snd (UpdateYAML_nodes fuel node value h) !! x = Some n' /\
              layout n' = layout n).
Proof.
  intros Hx.
  assert (Hp : pre (fun _ => True) False h) by (by apply pre_all).
  pose proof (MI_refl _ _ _ Hp) as H0.
  split; [|split].
  - pose proof (updateNode_spec (fun _ => True) False fuel value node h h H0 I) as Hs.
    destruct (updateNode fuel node value h) as [r h'] eqn:E.
    destruct (sat_run _ _ _ _ _ _ _ _ Hs E) as [Hs' _].
    by apply (MI_keeps_layout _ _ _ _ _ _ Hs').
  - pose proof (updateYamlFromStruct_spec_any (fun _ => True) fuel node value h h H0 I) as Hs.
    destruct (updateYamlFromStruct fuel node value h) as [r h'] eqn:E.
    destruct (sat_run _ _ _ _ _ _ _ _ Hs E) as [Hs' _].
    by apply (MI_keeps_layout _ _ _ _ _ _ Hs').
  - pose proof (UpdateYAML_nodes_spec (fun _ => True) fuel node value h h H0 I) as Hs.
    destruct (UpdateYAML_nodes fuel node value h) as [r h'] eqn:E.
    destruct (sat_run _ _ _ _ _ _ _ _ Hs E) as [Hs' _].
    by apply (MI_keeps_layout _ _ _ _ _ _ Hs').
Qed.

Lemma merge_keeps_layout_witness :
  exists n', snd (UpdateYAML_nodes 3 0%nat sample_person_value sample_person) !! 3%nat
             = Some n' /\
             layout n' = (0, 1, "", None).
Proof.
  exact (proj2 (proj2 (merge_keeps_layout 3 0%nat sample_person_value sample_person
                         3%nat _ eq_refl))).
Defined.

(** ** Stores without a Document node *)

(** No node of the store is a Document node: the store of a value node and
    what is below it in a parsed document. *)
Definition noDocument (h : heap) : Prop :=
  forall (x : loc) n, h !! x = Some n -> Kind n <> DocumentNode.

Definition noDocumentb (h : heap) : bool :=
  forallb (fun n => negb (NodeKind_eqb (Kind n) DocumentNode)) h.

Lemma noDocumentb_ok h : noDocumentb h = true -> noDocument h.
Proof.
  unfold noDocumentb. rewrite forallb_forall. intros H x n Hx Hk.
  apply list_elem_of_lookup_2, list_elem_of_In, H in Hx. by rewrite Hk in Hx.
Qed.

Lemma updateNode_MI_noDocument fuel node value (h : heap) :
  noDocument h ->
  MI (fun _ => True) True h (snd (updateNode fuel node value h)) /\
  match fst (updateNode fuel node value h) with
  | Ret _ | Panic _ => True
  | Err _ | Diverge => False
  end.
Proof.
  intros Hnd.
  assert (Hp : pre (fun _ => True) True h) by (apply pre_all; intros _; exact Hnd).
  pose proof (updateNode_spec (fun _ => True) True fuel value node h h
                (MI_refl _ _ _ Hp) I) as Hs.
  destruct (updateNode fuel node value h) as [r h'] eqn:E.
  destruct (sat_run _ _ _ _ _ _ _ _ Hs E) as [HMI Hr].
  split; [done|]. simpl. destruct r; auto.
Qed.

(** X5. In a store without a Document node, a merge by [updateNode] of any
    value into any node leaves the column of every node that was in the
    store as it was, however the merge ends. *)
Theorem updateNode_keeps_columns fuel node value (h : heap) (x : loc) n :
  noDocument h -> h !! x = Some n ->
  exists n', snd (updateNode fuel node value h) !! x = Some n' /\
             Column n' = Column n.
Proof.
  intros Hnd Hx. destruct (updateNode_MI_noDocument fuel node value h Hnd) as [HMI _].
  exact (mi_col _ _ _ _ HMI I x n Hx).
Qed.

Lemma updateNode_keeps_columns_witness :
  exists n',
    snd (updateNode 0 0%nat (reflect.VMap reflect.String sample_courses_new)
           sample_courses) !! 4%nat = Some n' /\
    Column n' = 8.
Proof.
  exact (updateNode_keeps_columns 0 0%nat (reflect.VMap reflect.String sample_courses_new)
           sample_courses 4%nat _ (noDocumentb_ok sample_courses eq_refl) eq_refl).
Defined.



(** ** Looking a key up *)

Lemma scanPairs_pair key (k v : loc) rest (h : heap) kn :
  h !! k = Some kn ->
  scanPairs key (k :: v :: rest) h =
  if String.eqb (Value kn) key then (Ret (Some (k, v)), h) else scanPairs key rest h.
Proof.
  intros Hk. cbn [scanPairs]. rewrite (bind_run _ _ _ _ _ (deref_run _ _ _ Hk)).
  by destruct (String.eqb (Value kn) key).
Qed.

Lemma scanPairs_last key (k : loc) (h : heap) kn :
  h !! k = Some kn ->
  scanPairs key [k] h =
  if String.eqb (Value kn) key then (Panic "index out of range", h) else (Ret None, h).
Proof.
  intros Hk. cbn [scanPairs]. rewrite (bind_run _ _ _ _ _ (deref_run _ _ _ Hk)).
  by destruct (String.eqb (Value kn) key).
Qed.

(** What the scan answers on a list of whole pairs. *)
Definition scan_answer (key : string) (pairs : list (loc * loc)) (h : heap)
    (o : option (loc * loc)) : Prop :=
  match o with
  | Some kv =>
      exists j kn, pairs !! j = Some kv /\ h !! fst kv = Some kn /\ Value kn = key /\
        forall j' kv' kn', (j' < j)%nat -> pairs !! j' = Some kv' ->
                           h !! fst kv' = Some kn' -> Value kn' <> key
  | None =>
      forall kv kn, kv ∈ pairs -> h !! fst kv = Some kn -> Value kn <> key
  end.

Lemma scanPairs_flatten key pairs (h : heap) :
  (forall kv, kv ∈ pairs -> is_Some (h !! fst kv)) ->
  exists o, scanPairs key (flatten pairs) h = (Ret o, h) /\ scan_answer key pairs h o.
Proof.
  induction pairs as [|[k v] rest IH]; intros Hall.
  - exists None. split; [done|]. intros kv kn Hin. by apply elem_of_nil in Hin.
  - destruct (Hall (k, v)) as [kn Hkn]; [apply list_elem_of_here|].
    cbn [fst] in Hkn.
    change (flatten ((k, v) :: rest)) with (k :: v :: flatten rest).
    rewrite (scanPairs_pair key k v _ h kn Hkn).
    destruct (String.eqb (Value kn) key) eqn:E.
    + exists (Some (k, v)). split; [done|]. exists 0%nat, kn.
      apply String.eqb_eq in E. repeat split; try done. intros j' kv' kn' Hj. lia.
    + apply String.eqb_neq in E.
      destruct IH as (o & Hrun & Hans).
      { intros kv Hin. apply Hall. by apply list_elem_of_further. }
      exists o. split; [done|]. destruct o as [kv|]; simpl in *.
      * destruct Hans as (j & kn0 & Hj & Hk0 & Hv0 & Hmin).
        exists (S j), kn0. repeat split; try done.
        intros [|j'] kv' kn' Hlt Hkv' Hkn'.
        -- injection Hkv' as <-. cbn [fst] in Hkn'. congruence.
        -- apply (Hmin j' kv' kn'); [lia | done | done].
      * intros kv kn0 Hin Hk0. apply elem_of_cons in Hin as [-> | Hin].
        -- cbn [fst] in Hk0. congruence.
        -- by apply (Hans kv kn0).
Qed.

(** X7. On a mapping node whose children are whole (key, value) pairs with
    every key node allocated, [findNodes] returns without writing to the
    store; it answers with the first pair whose key node holds the key, or
    with not-found when no key node holds it. *)
Theorem findNodes_first_match mappingNode key (h : heap) m pairs :
  h !! mappingNode = Some m -> Content m = flatten pairs ->
  (forall kv, kv ∈ pairs -> is_Some (h !! fst kv)) ->
  exists o, findNodes mappingNode key h = (Ret o, h) /\ scan_answer key pairs h o.
Proof.
  intros Hm Hc Hall. unfold findNodes.
  rewrite (bind_run _ _ _ _ _ (deref_run _ _ _ Hm)), Hc.
  by apply scanPairs_flatten.
Qed.

Lemma findNodes_first_match_witness :
  exists o, findNodes 0%nat "CS102" sample_courses = (Ret o, sample_courses) /\
            scan_answer "CS102" [(1, 2); (3, 4)]%nat sample_courses o.
Proof.
  apply (findNodes_first_match 0%nat "CS102" sample_courses _ [(1, 2); (3, 4)]%nat
           eq_refl eq_refl).
  intros kv Hin. rewrite !elem_of_cons, elem_of_nil in Hin.
  destruct Hin as [-> | [-> | []]]; by eexists.
Defined.

(** X8. On a mapping node with an odd number of children, [findNodes]
    panics with an index out of range when the key is held by the last
    child and by no key node before it: the value [Content[i+1]] is read
    past the end. *)
Theorem findNodes_odd_panics mappingNode key (h : heap) m pairs (k : loc) kn :
  h !! mappingNode = Some m -> Content m = flatten pairs ++ [k] ->
  (forall kv, kv ∈ pairs -> exists n, h !! fst kv = Some n /\ Value n <> key) ->
  h !! k = Some kn -> Value kn = key ->
  findNodes mappingNode key h = (Panic "index out of range", h).
Proof.
  intros Hm Hc Hall Hk Hv. unfold findNodes.
  rewrite (bind_run _ _ _ _ _ (deref_run _ _ _ Hm)), Hc. clear Hm Hc.
  induction pairs as [|[k0 v0] rest IH].
  - change (flatten [] ++ [k]) with [k]. rewrite (scanPairs_last key k h kn Hk).
    apply String.eqb_eq in Hv. by rewrite Hv.
  - destruct (Hall (k0, v0)) as (n0 & Hn0 & Hne); [apply list_elem_of_here|].
    cbn [fst] in Hn0.
    change (flatten ((k0, v0) :: rest) ++ [k]) with (k0 :: v0 :: (flatten rest ++ [k])).
    rewrite (scanPairs_pair key k0 v0 _ h n0 Hn0).
    apply String.eqb_neq in Hne. rewrite Hne. apply IH.
    intros kv Hin. apply Hall. by apply list_elem_of_further.
Qed.

(** The children [CS101, A, CS102] of a mapping node cut short. *)
Definition sample_odd : heap :=
  [ mkNode MappingNode 0 "!!map" "" "" None [1; 2; 3]%nat "" "" "" 1 1;
    sample_scalar "CS101" "!!str" 1 1;
    sample_scalar "A" "!!str" 1 8;
    sample_scalar "CS102" "!!str" 2 1 ].

Lemma findNodes_odd_panics_witness :
  findNodes 0%nat "CS102" sample_odd = (Panic "index out of range", sample_odd).
Proof.
  apply (findNodes_odd_panics 0%nat "CS102" sample_odd _ [(1, 2)]%nat 3%nat
           (sample_scalar "CS102" "!!str" 2 1) eq_refl eq_refl);
    [|reflexivity|reflexivity].
  intros kv Hin. rewrite !elem_of_cons, elem_of_nil in Hin.
  destruct Hin as [-> | []]. eexists. split; [reflexivity|]. simpl. discriminate.
Defined.

(** ** Running a computation forwards *)

Lemma bind_bind {A B D} (m : M A) (k1 : A -> M B) (k2 : B -> M D) h :
  bind (bind m k1) k2 h = bind m (fun a => bind (k1 a) k2) h.
Proof. unfold bind. by destruct (m h) as [[a|e|p|] h1]. Qed.

Lemma bind_deref {B} (l : loc) (k : Node -> M B) (h : heap) n :
  h !! l = Some n -> bind (deref l) k h = k n h.
Proof. intros H. apply bind_run. by apply deref_run. Qed.

Lemma bind_modify {B} (l : loc) f (k : unit -> M B) (h : heap) n :
  h !! l = Some n -> bind (modify l f) k h = k tt (<[l := f n]> h).
Proof. intros H. apply bind_run. by apply modify_run. Qed.

Lemma bind_index {B} (s : list loc) i (k : loc -> M B) (h : heap) x :
  s !! i = Some x -> bind (index s i) k h = k x h.
Proof. intros H. apply bind_run. by apply index_run. Qed.

Lemma bind_alloc {B} n (k : loc -> M B) (h : heap) :
  bind (alloc n) k h = k (length h) (h ++ [n]).
Proof. done. Qed.

Lemma bind_ret {A B} (a : A) (k : A -> M B) (h : heap) : bind (ret a) k h = k a h.
Proof. done. Qed.

Lemma bind_Panic {A B} (m : M A) (k : A -> M B) h p h' :
  m h = (Panic p, h') -> bind m k h = (Panic p, h').
Proof. unfold bind. by intros ->. Qed.

Lemma wrapErr_Panic {A} pre_ (m : M A) h p h' :
  m h = (Panic p, h') -> wrapErr pre_ m h = (Panic p, h').
Proof. unfold wrapErr. by intros ->. Qed.

(** Reads of a store built by writes and allocations. *)
Ltac lookup_tac :=
  repeat first
    [ rewrite list_lookup_insert_ne by lia
    | rewrite list_lookup_insert_eq
        by (rewrite ?length_insert, ?length_app; cbn [length]; lia)
    | rewrite lookup_app_l by (rewrite ?length_insert, ?length_app; cbn [length]; lia)
    | rewrite lookup_app_r by (rewrite ?length_insert, ?length_app; cbn [length]; lia) ];
  rewrite ?length_insert, ?length_app, ?Nat.sub_diag; cbn [length];
  first [ eassumption | reflexivity
        | match goal with
          | |- [_] !! ?i = _ => by replace i with 0%nat by lia
          end ].

Ltac mrun_step :=
  rewrite ?bind_bind;
  first [ rewrite bind_alloc
        | rewrite bind_ret
        | erewrite bind_deref by lookup_tac
        | erewrite bind_modify by lookup_tac
        | erewrite bind_index by reflexivity ];
  cbv beta zeta.
Ltac mrun := repeat mrun_step.

(** ** Nodes with a single child *)

Lemma appendNewPair_single mappingNode key (h : heap) m (c : loc) cn :
  h !! mappingNode = Some m -> Content m = [c] -> h !! c = Some cn ->
  exists h', appendNewPair mappingNode key h = (Panic "index out of range", h').
Proof.
  intros Hm Hc Hcn.
  assert (Hlm : (mappingNode < length h)%nat) by (by eapply lookup_lt_Some).
  assert (Hlc : (c < length h)%nat) by (by eapply lookup_lt_Some).
  unfold appendNewPair. mrun. rewrite Hc. cbn [length Nat.ltb Nat.leb]. mrun.
  eexists. apply bind_Panic. reflexivity.
Qed.

(** X9. A Record merge into a node that is not a Document and has exactly
    one child panics with an index out of range unless that child holds the
    key of the record's first field: the key is not found, and the new
    pair takes its value style from [Content[1]]. *)
Theorem updateYamlFromStruct_single_child_panics fuel node fieldType fieldValue rest
    (h : heap) n (c : loc) cn :
  h !! node = Some n -> Kind n <> DocumentNode -> Content n = [c] ->
  c <> node -> h !! c = Some cn -> Value cn <> yamlTagOf fieldType ->
  fst (updateYamlFromStruct fuel node
         (reflect.VStruct ((fieldType, fieldValue) :: rest)) h)
  = Panic "index out of range".
Proof.
  intros Hn Hkind Hc Hne Hcn Hval.
  unfold updateYamlFromStruct, updateYamlFromStruct_. cbv zeta.
  rewrite (bind_run _ _ _ _ _ (documentChild_other fuel node h n Hn Hkind)).
  destruct (ensureMapping_run node h n Hn) as (m' & Hrun & _ & Hc' & _).
  rewrite (bind_run _ _ _ _ _ Hrun). rewrite Hc in Hc'.
  set (h1 := <[node := m']> h).
  assert (Hm1 : h1 !! node = Some m').
  { apply list_lookup_insert_eq. by eapply lookup_lt_Some. }
  assert (Hc1 : h1 !! c = Some cn) by (subst h1; by rewrite list_lookup_insert_ne).
  cbn [reflect.Indirect mergeByKind_ structFields_].
  destruct (appendNewPair_single node (yamlTagOf fieldType) h1 m' c cn Hm1 Hc' Hc1)
    as (h2 & Happ).
  erewrite bind_Panic; [done|]. apply wrapErr_Panic.
  unfold updateField_. cbv zeta. unfold findNodes.
  rewrite bind_bind. rewrite (bind_deref _ _ _ _ Hm1). rewrite Hc'.
  erewrite bind_run; [|rewrite (scanPairs_last _ c h1 cn Hc1);
                       apply String.eqb_neq in Hval; by rewrite Hval].
  apply bind_Panic. exact Happ.
Qed.

(** The one-element sequence [[reading]] under node 0. *)
Definition sample_single : heap :=
  [ mkNode SequenceNode 0 "!!seq" "" "" None [1%nat] "" "" "" 1 1;
    sample_scalar "reading" "!!str" 1 3 ].

Lemma updateYamlFromStruct_single_child_panics_witness :
  fst (updateYamlFromStruct 0 0%nat
         (reflect.VStruct [(reflect.mkField "City" "city", reflect.VString "Gotham")])
         sample_single)
  = Panic "index out of range".
Proof.
  eapply (updateYamlFromStruct_single_child_panics 0 0%nat
            (reflect.mkField "City" "city") (reflect.VString "Gotham") []
            sample_single _ 1%nat);
    [reflexivity | discriminate | reflexivity | lia | reflexivity | discriminate].
Defined.

(** X10. A Mapping merge of a map with at least one entry into a node with
    exactly one child panics with an index out of range unless that child
    holds the key of the first entry: the new pair takes its key style from
    [originalContent[len-2]]. *)
Theorem updateNode_mapping_single_child_panics fuel node keyKind key elem rest
    (h : heap) n (c : loc) cn :
  h !! node = Some n -> Content n = [c] ->
  c <> node -> h !! c = Some cn -> Value cn <> key ->
  fst (updateNode fuel node (reflect.VMap keyKind ((key, elem) :: rest)) h)
  = Panic "index out of range".
Proof.
  intros Hn Hc Hne Hcn Hval.
  assert (Hlm : (node < length h)%nat) by (by eapply lookup_lt_Some).
  assert (Hlc : (c < length h)%nat) by (by eapply lookup_lt_Some).
  rewrite updateNode_eq. rewrite (bind_deref _ _ _ _ Hn). cbv zeta.
  unfold updateMapping_. mrun. rewrite Hc.
  unfold baseIndentOf. cbn [length Nat.ltb Nat.leb]. mrun.
  cbn [mappingEntries_]. unfold keyText. cbv iota. rewrite !bind_bind, bind_ret.
  unfold createOrReusePair. rewrite !bind_bind.
  erewrite bind_run;
    [|erewrite scanPairs_last by lookup_tac;
      apply String.eqb_neq in Hval; by rewrite Hval].
  mrun. cbn [length Nat.ltb Nat.leb]. reflexivity.
Qed.

Lemma updateNode_mapping_single_child_panics_witness :
  fst (updateNode 0 0%nat
         (reflect.VMap reflect.String [("CS101", reflect.VString "A")]) sample_single)
  = Panic "index out of range".
Proof.
  eapply (updateNode_mapping_single_child_panics 0 0%nat reflect.String "CS101"
            (reflect.VString "A") [] sample_single _ 1%nat);
    [reflexivity | reflexivity | lia | reflexivity | discriminate].
Defined.

(** ** The nodes a Sequence merge adds *)

(** Style, column and line: what a new node takes from its neighbours. *)
Definition attrs (n : Node) : Z * Z * Z := (Style n, Column n, Line n).

Lemma MI_attrs (h h' : heap) (x : loc) n :
  MI (fun _ => True) True h h' -> h !! x = Some n ->
  exists n', h' !! x = Some n' /\ attrs n' = attrs n.
Proof.
  intros H Hx.
  destruct (mi_meta _ _ _ _ H x n Hx) as (n' & Hn' & Hm).
  destruct (mi_col _ _ _ _ H I x n Hx) as (n'' & Hn'' & Hc).
  assert (n'' = n') as -> by congruence.
  exists n'. split; [done|]. unfold attrs.
  destruct Hm as (-> & _ & _ & _ & -> & _). by rewrite Hc.
Qed.

Lemma MI_retag (h : heap) (node : loc) n kind tag :
  noDocument h -> h !! node = Some n -> kind <> DocumentNode ->
  MI (fun _ => True) True h (<[node := setTag tag (setKind kind n)]> h).
Proof.
  intros Hnd Hn Hk.
  assert (Hp : pre (fun _ => True) True h) by (apply pre_all; intros _; exact Hnd).
  apply (MI_modify _ _ h h node n); [by apply MI_refl | done |].
  repeat split; auto.
Qed.

Lemma insert_snoc (h : heap) a b : <[length h := b]> (h ++ [a]) = h ++ [b].
Proof. rewrite insert_app_r_alt by lia. by rewrite Nat.sub_diag. Qed.

Lemma createOrReuseNode_reuse node i originalContent baseIndent (h : heap) (x : loc) :
  originalContent !! i = Some x ->
  createOrReuseNode node i originalContent baseIndent h = (Ret x, h).
Proof. unfold createOrReuseNode. by intros ->. Qed.

(** The node made for an index past the original children. *)
Lemma createOrReuseNode_past node i originalContent baseIndent (h : heap) :
  originalContent !! i = None ->
  match last originalContent with
  | Some l =>
      forall ln, h !! l = Some ln ->
        createOrReuseNode node i originalContent baseIndent h =
        (Ret (length h),
         h ++ [setLine (Line ln) (setColumn (Column ln) (setStyle (Style ln) zeroNode))])
  | None =>
      forall n, h !! node = Some n ->
        createOrReuseNode node i originalContent baseIndent h =
        (Ret (length h), h ++ [setColumn (int_add (Column n) baseIndent) zeroNode])
  end.
Proof.
  intros Hi. unfold createOrReuseNode. rewrite Hi.
  destruct (last originalContent) as [l|] eqn:El.
  - intros ln Hl.
    assert (Hll : (l < length h)%nat) by (by eapply lookup_lt_Some).
    assert (Hpos : (0 <? length originalContent)%nat = true).
    { apply Nat.ltb_lt. destruct originalContent; [done | simpl; lia]. }
    rewrite Hpos. rewrite last_lookup in El.
    replace (Init.Nat.pred (length originalContent))
      with (length originalContent - 1)%nat in El by lia.
    rewrite bind_alloc, !bind_bind, (bind_index _ _ _ _ _ El).
    mrun. unfold ret. by rewrite !list_insert_insert_eq, insert_snoc.
  - intros n Hn.
    assert (Hln : (node < length h)%nat) by (by eapply lookup_lt_Some).
    apply last_None in El. subst originalContent. cbn [length Nat.ltb Nat.leb].
    mrun. unfold ret. by rewrite insert_snoc.
Qed.

Section SequenceNew.

Variable fuel : nat.
Variable node : loc.
Variable originalContent : list loc.
Variable baseIndent : Z.
Variable h0 : heap.
Variable target : Z * Z * Z.

(** [c] was made by the loop, with the attributes [target]. *)
Definition made (hc : heap) (c : loc) : Prop :=
(length h0 <= c)%nat /\ exists cn, hc !! c = Some cn /\ attrs cn = target.

Hypothesis Hcreate : forall i (h1 : heap),
MI (fun _ => True) True h0 h1 -> originalContent !! i = None ->
exists en,
createOrReuseNode node i originalContent baseIndent h1 = (Ret (length h1), h1 ++ [en]) /\
Content en = [] /\ Kind en <> DocumentNode /\ attrs en = target.

Lemma made_MI hc hc' c :
MI (fun _ => True) True hc hc' -> made hc c -> made hc' c.
Proof.
intros H [Hc (cn & Hcn & Ha)]. split; [done|].
destruct (MI_attrs _ _ _ _ H Hcn) as (cn' & Hcn' & Ha').
exists cn'. split; [done | congruence].
Qed.

Lemma updateNode_MI_from elemNode e (hc h2 : heap) :
MI (fun _ => True) True h0 hc ->
updateNode fuel elemNode e hc = (Ret tt, h2) ->
MI (fun _ => True) True h0 h2 /\ MI (fun _ => True) True hc h2.
Proof.
intros H Hu. split.
- pose proof (updateNode_spec (fun _ => True) True fuel e elemNode h0 hc H I) as Hs.
by destruct (sat_run _ _ _ _ _ _ _ _ Hs Hu).
- pose proof (updateNode_spec (fun _ => True) True fuel e elemNode hc hc
        (MI_refl _ _ _ (mi_pre _ _ _ _ H)) I) as Hs.
by destruct (sat_run _ _ _ _ _ _ _ _ Hs Hu).
Qed.

Lemma sequenceElems_made es :
forall i acc (hc : heap) newContent h',
MI (fun _ => True) True h0 hc -> length acc = i ->
(forall p c, acc !! p = Some c -> (length originalContent <= p)%nat -> made hc c) ->
sequenceElems_ (updateNode fuel) node originalContent baseIndent i es acc hc
= (Ret newContent, h') ->
MI (fun _ => True) True h0 h' /\
forall p c, newContent !! p = Some c -> (length originalContent <= p)%nat -> made h' c.
Proof.
induction es as [|e rest IH]; intros i acc hc newContent h' HMI Hlen Hacc H; simpl in H.
- apply ret_Ret in H as [-> ->]. by split.
- apply bind_Ret in H as (elemNode & h1 & Hc & H).
apply bind_Ret in H as ([] & h2 & Hu & H). apply wrapErr_Ret in Hu.
destruct (originalContent !! i) as [x|] eqn:Hi.
+ rewrite (createOrReuseNode_reuse _ _ _ _ _ _ Hi) in Hc. injection Hc as <- <-.
destruct (updateNode_MI_from _ _ _ _ HMI Hu) as [HMI2 Hstep].
apply (IH (S i) (acc ++ [x]) h2 newContent h' HMI2); [| |exact H].
* rewrite length_app. simpl. lia.
* intros p c Hp Hge. apply lookup_lt_Some in Hi.
apply lookup_app_Some in Hp as [Hp | [Hp1 Hp2]].
-- apply (made_MI hc); [done|]. by apply (Hacc p c).
-- apply list_lookup_singleton_Some in Hp2 as [Hp2 _]. lia.
+ destruct (Hcreate i hc HMI Hi) as (en & Hrun & Hce & Hke & Hae).
rewrite Hrun in Hc. injection Hc as <- <-.
assert (HMI1 : MI (fun _ => True) True h0 (hc ++ [en])).
{ apply MI_alloc; [done | | done]. by intros c _. }
assert (Hstep0 : MI (fun _ => True) True hc (hc ++ [en])).
{ apply MI_alloc; [apply MI_refl; apply HMI | | done]. by intros c _. }
destruct (updateNode_MI_from _ _ _ _ HMI1 Hu) as [HMI2 Hstep].
apply (IH (S i) (acc ++ [length hc]) h2 newContent h' HMI2); [| |exact H].
* rewrite length_app. simpl. lia.
* intros p c Hp Hge.
apply lookup_app_Some in Hp as [Hp | [Hp1 Hp2]].
-- apply (made_MI (hc ++ [en])); [done|]. apply (made_MI hc); [done|].
 by apply (Hacc p c).
-- apply list_lookup_singleton_Some in Hp2 as [_ <-].
 apply (made_MI (hc ++ [en])); [done|]. split.
 ++ apply HMI.
 ++ exists en. split; [|done]. rewrite lookup_app_r by lia.
    by rewrite Nat.sub_diag.
Qed.

End SequenceNew.

(** A Sequence merge, given what the loop makes past the original
    children. *)
Lemma updateNode_sequence_made fuel node elems (h : heap) n h' target :
  noDocument h -> h !! node = Some n ->
  (forall baseIndent i (h1 : heap),
     MI (fun _ => True) True h h1 ->
     (Content n = [] -> baseIndent = 2) -> Content n !! i = None ->
     exists en,
       createOrReuseNode node i (Content n) baseIndent h1
       = (Ret (length h1), h1 ++ [en]) /\
       Content en = [] /\ Kind en <> DocumentNode /\ attrs en = target) ->
  updateNode fuel node (reflect.VSlice elems) h = (Ret tt, h') ->
  exists n', h' !! node = Some n' /\
    forall p c, Content n' !! p = Some c -> (length (Content n) <= p)%nat ->
      exists cn, h' !! c = Some cn /\ attrs cn = target.
Proof.
  intros Hnd Hn Hcreate H.
  assert (Hlt : (node < length h)%nat) by (by eapply lookup_lt_Some).
  rewrite updateNode_eq in H. minv H. reads_of Hn.
  apply bind_Ret in H as ([] & h1 & Hs & H).
  unfold updateSequence_ in Hs. minv Hs. reads_of Hn. read_writes.
  rewrite list_insert_insert_eq in Hs.
  set (ha := <[node := setTag "!!seq" (setKind SequenceNode n)]> h) in *.
  assert (HMIa : MI (fun _ => True) True h ha) by (by apply MI_retag).
  apply bind_Ret in Hs as (baseIndent & h2 & Hb & Hs).
  assert (Hb2 : Content n = [] -> baseIndent = 2).
  { intros E. rewrite E in Hb. by apply ret_Ret in Hb as [-> _]. }
  apply baseIndentOf_Ret in Hb as ->.
  apply bind_Ret in Hs as (newContent & h3 & Hl & Hs).
  destruct (sequenceElems_made fuel node (Content n) baseIndent ha target) with
    (es := elems) (i := 0%nat) (acc := @nil loc) (hc := ha) (newContent := newContent)
    (h' := h3) as [HMI3 Hmade].
  { intros i h1' HMI1 Hi. apply Hcreate; [|done|done].
    by apply (MI_trans _ _ h ha h1'). }
  { apply MI_refl. apply HMIa. }
  { done. }
  { by intros p c Hp. }
  { exact Hl. }
  unfold restore in H. minv Hs. minv H. read_writes.
  eexists. split.
  - apply list_lookup_insert_eq. rewrite !length_insert. by eapply lookup_lt_Some.
  - cbn [Content setColumn setStyle setContent]. intros p c Hp Hge.
    destruct (Hmade p c Hp Hge) as [Hc (cn & Hcn & Ha)].
    exists cn. split; [|done]. subst ha. rewrite length_insert in Hc.
    rewrite !list_lookup_insert_ne by lia. done.
Qed.

(** X11. In a store without a Document node, a Sequence merge that has more
    elements than the node has children gives each added element node the
    style, the column and the line of the last original child. *)
Theorem updateNode_sequence_appended fuel node elems (h : heap) n (l : loc) ln h' :
  noDocument h -> h !! node = Some n ->
  last (Content n) = Some l -> h !! l = Some ln ->
  updateNode fuel node (reflect.VSlice elems) h = (Ret tt, h') ->
  exists n', h' !! node = Some n' /\
    forall p c, Content n' !! p = Some c -> (length (Content n) <= p)%nat ->
      exists cn, h' !! c = Some cn /\
        Style cn = Style ln /\ Column cn = Column ln /\ Line cn = Line ln.
Proof.
  intros Hnd Hn Hlast Hl H.
  destruct (updateNode_sequence_made fuel node elems h n h' (attrs ln) Hnd Hn) as
    (n' & Hn' & Hnew); [|exact H|].
  - intros baseIndent i h1 HMI _ Hi.
    destruct (MI_attrs _ _ _ _ HMI Hl) as (ln1 & Hl1 & Ha).
    pose proof (createOrReuseNode_past node i (Content n) baseIndent h1 Hi) as Hrun.
    rewrite Hlast in Hrun. eexists. split; [exact (Hrun ln1 Hl1)|].
    repeat split; [done|]. exact Ha.
  - exists n'. split; [done|]. intros p c Hp Hge.
    destruct (Hnew p c Hp Hge) as (cn & Hcn & [= H1 H2 H3]). by exists cn.
Qed.

Lemma updateNode_sequence_appended_witness :
  exists n',
    snd (updateNode 0 0%nat
           (reflect.VSlice [reflect.VString "a"; reflect.VString "b"; reflect.VString "c"])
           sample_seq) !! 0%nat = Some n' /\
    forall p c, Content n' !! p = Some c -> (2 <= p)%nat ->
      exists cn,
        snd (updateNode 0 0%nat
               (reflect.VSlice [reflect.VString "a"; reflect.VString "b";
                                reflect.VString "c"])
               sample_seq) !! c = Some cn /\
        Style cn = 0 /\ Column cn = 3 /\ Line cn = 2.
Proof.
  exact (updateNode_sequence_appended 0 0%nat
           [reflect.VString "a"; reflect.VString "b"; reflect.VString "c"]
           sample_seq _ 2%nat _ _
           (noDocumentb_ok sample_seq eq_refl) eq_refl eq_refl eq_refl eq_refl).
Defined.

(** X12. In a store without a Document node, a Sequence merge into a node
    without children gives every element node the node's column plus 2 in
    the arithmetic of [int], which is the exact sum when that fits an
    [int], with style and line zero. *)
Theorem updateNode_sequence_filled fuel node elems (h : heap) n h' :
  noDocument h -> h !! node = Some n -> Content n = [] ->
  updateNode fuel node (reflect.VSlice elems) h = (Ret tt, h') ->
  exists n', h' !! node = Some n' /\
    forall c, c ∈ Content n' ->
      exists cn, h' !! c = Some cn /\
        Style cn = 0 /\ Column cn = int_add (Column n) 2 /\
        (is_int (Column n + 2) -> Column cn = Column n + 2) /\ Line cn = 0.
Proof.
  intros Hnd Hn Hempty H.
  destruct (updateNode_sequence_made fuel node elems h n h'
              (0, int_add (Column n) 2, 0) Hnd Hn)
    as (n' & Hn' & Hnew); [|exact H|].
  - intros baseIndent i h1 HMI Hb Hi. rewrite (Hb Hempty).
    destruct (MI_attrs _ _ _ _ HMI Hn) as (n1 & Hn1 & [= _ Hcol _]).
    pose proof (createOrReuseNode_past node i (Content n) 2 h1 Hi) as Hrun.
    rewrite Hempty in Hrun. simpl in Hrun.
    rewrite Hempty. eexists. split; [exact (Hrun n1 Hn1)|].
    repeat split; [done|]. unfold attrs. simpl. by rewrite Hcol.
  - exists n'. split; [done|]. intros c Hin.
    apply list_elem_of_lookup in Hin as (p & Hp).
    destruct (Hnew p c Hp) as (cn & Hcn & [= H1 H2 H3]).
    { rewrite Hempty. simpl. lia. }
    exists cn. repeat split; try done.
    intros Hi. rewrite H2. by apply wrap_int_id.
Qed.

Lemma updateNode_sequence_filled_witness :
  exists n',
    snd (updateNode 0 0%nat (reflect.VSlice [reflect.VInt 1; reflect.VInt 2])
           [sample_scalar "" "!!null" 1 9]) !! 0%nat = Some n' /\
    forall c, c ∈ Content n' ->
      exists cn,
        snd (updateNode 0 0%nat (reflect.VSlice [reflect.VInt 1; reflect.VInt 2])
               [sample_scalar "" "!!null" 1 9]) !! c = Some cn /\
        Style cn = 0 /\ Column cn = 9 + 2 /\ Line cn = 0.
Proof.
  destruct (updateNode_sequence_filled 0 0%nat [reflect.VInt 1; reflect.VInt 2]
              [sample_scalar "" "!!null" 1 9] _ _
              (noDocumentb_ok [sample_scalar "" "!!null" 1 9] eq_refl)
              eq_refl eq_refl eq_refl) as (n' & Hn' & Hall).
  exists n'. split; [exact Hn'|]. intros c Hc.
  destruct (Hall c Hc) as (cn & Hcn & Hs & _ & Hex & Hl).
  exists cn. split; [exact Hcn|]. split; [exact Hs|]. split; [|exact Hl].
  apply Hex. unfold is_int, int_min, int_max. simpl. lia.
Defined.

(** ** Top-level maps: the pairs the map does not name *)

Lemma mapKeys_keeps fuel (h : heap) node kids j tk tv kn entries :
  tree_ok h (TNode node kids) ->
  kids !! (2 * j)%nat = Some tk -> kids !! S (2 * j) = Some tv ->
  h !! root tk = Some kn ->
  forall hc hc',
    record_inv h node kids tk tv hc ->
    Forall (fun e : string * reflect.Value => fst e <> Value kn) entries ->
    mapKeys_ (updateNode fuel) node entries hc = (Ret tt, hc') ->
    record_inv h node kids tk tv hc'.
Proof.
  intros Hok Hk Hv Hkn.
  induction entries as [|[key elem] rest IH]; intros hc hc' Hinv Hall H.
  - simpl in H. by apply ret_Ret in H as [_ ->].
  - simpl in H. apply Forall_cons in Hall as [Hne Hall]. cbn [fst] in Hne.
    apply bind_Ret in H as (found & h1 & Hf & H).
    apply bind_Ret in H as (kv & h2 & Ha & H).
    apply bind_Ret in H as ([] & h3 & Hu & H). apply wrapErr_Ret in Hu.
    apply (IH h3 hc'); [|done|done].
    apply (updateField_keeps fuel h node kids j tk tv kn Hok Hk Hv Hkn hc
             (reflect.mkField key key) elem h3 Hinv).
    + unfold yamlTagOf. simpl. by destruct (String.eqb key "").
    + unfold updateField, updateField_. cbv zeta.
      assert (Ht : yamlTagOf (reflect.mkField key key) = key).
      { unfold yamlTagOf. simpl. by destruct (String.eqb key ""). }
      rewrite Ht. rewrite (bind_run _ _ _ _ _ Hf). by rewrite (bind_run _ _ _ _ _ Ha).
Qed.

(** X13. A merge of a map with string keys by [updateYamlFromStruct] into a
    node that is not a Document only adds and updates, unlike the merge of
    a map nested in a value: a (key, value) pair of the node whose key is
    not a key of the map is still at its place among the children after
    the merge, and no node of the key's or the value's subtree has been
    written. *)
Theorem updateYamlFromStruct_map_keeps_pairs fuel node entries kids (h : heap) h'
    n j tk tv kn :
  tree_ok h (TNode node kids) ->
  h !! node = Some n -> Kind n <> DocumentNode ->
  kids !! (2 * j)%nat = Some tk -> kids !! S (2 * j) = Some tv ->
  h !! root tk = Some kn ->
  Value kn ∉ map fst entries ->
  updateYamlFromStruct fuel node (reflect.VMap reflect.String entries) h = (Ret tt, h') ->
  exists n', h' !! node = Some n' /\
    Content n' !! (2 * j)%nat = Some (root tk) /\
    Content n' !! S (2 * j) = Some (root tv) /\
    forall x : loc, x ∈ locs tk ++ locs tv -> h' !! x = h !! x.
Proof.
  intros Hok Hn Hkind Hk Hv Hkn Hfresh H.
  unfold updateYamlFromStruct, updateYamlFromStruct_ in H. cbv zeta in H.
  rewrite (bind_run _ _ _ _ _ (documentChild_other fuel node h n Hn Hkind)) in H.
  destruct (ensureMapping_run node h n Hn) as (m' & Hrun & _ & Hc & _).
  rewrite (bind_run _ _ _ _ _ Hrun) in H. simpl in H.
  assert (Hinv : record_inv h node kids tk tv h');
    [|by apply (record_inv_pair _ _ _ j) in Hinv].
  eapply (mapKeys_keeps fuel h node kids j tk tv kn entries Hok Hk Hv Hkn); [| |exact H].
  - eapply (record_inv_retag h node kids j tk tv); eauto.
    by apply (record_inv_init h node kids j tk tv).
  - apply Forall_forall. intros e He E. apply Hfresh. rewrite <- E.
    apply list_elem_of_fmap. by exists e.
Qed.

Lemma updateYamlFromStruct_map_keeps_pairs_witness :
  exists n',
    snd (updateYamlFromStruct 0 0%nat (reflect.VMap reflect.String sample_courses_new)
           sample_courses) !! 0%nat = Some n' /\
    Content n' !! 0%nat = Some 1%nat /\ Content n' !! 1%nat = Some 2%nat /\
    snd (updateYamlFromStruct 0 0%nat (reflect.VMap reflect.String sample_courses_new)
           sample_courses) !! 2%nat = sample_courses !! 2%nat.
Proof.
  destruct (updateYamlFromStruct_map_keeps_pairs 0 0%nat sample_courses_new
              sample_courses_kids sample_courses
              (snd (updateYamlFromStruct 0 0%nat
                      (reflect.VMap reflect.String sample_courses_new) sample_courses))
              _ 0%nat (TNode 1 []) (TNode 2 []) _
              (tree_okb_ok sample_courses (TNode 0 sample_courses_kids) eq_refl)
              eq_refl ltac:(simpl; discriminate) eq_refl eq_refl eq_refl
              ltac:(simpl; rewrite !elem_of_cons, elem_of_nil; intuition discriminate)
              eq_refl)
    as (n' & H1 & H2 & H3 & H4).
  exists n'. split; [exact H1|]. split; [exact H2|]. split; [exact H3|].
  apply H4. simpl. rewrite !elem_of_cons. tauto.
Defined.

(** ** Scalars *)

(** The values [updateNode] writes as a scalar: the kinds that are not an
    interface, a struct, a slice, an array or a map; a pointer is one of
    them.  Of the values read from an unexported field, which have the
    read-only flag, only the integers, floats, bools and strings are among
    them: for the others [updateNode] calls [Interface()], which panics. *)
Definition leaf (v : reflect.Value) : bool :=
  match v with
  | reflect.VInt _ | reflect.VFloat _ | reflect.VBool _ | reflect.VString _
  | reflect.VOther _ _ | reflect.VPtr _ _ => true
  | reflect.VReadOnly (reflect.VInt _ | reflect.VFloat _ | reflect.VBool _
                       | reflect.VString _) => true
  | _ => false
  end.

Lemma updateNode_leaf_run fuel node v :
  leaf v = true ->
  exists tag text, forall (h : heap) n,
    h !! node = Some n ->
    updateNode fuel node v h =
    (Ret tt, <[node := setValue text (setTag tag (setKind ScalarNode n))]> h).
Proof.
  intros Hleaf.
  assert (Hgen : forall tag text (h : heap) n, h !! node = Some n ->
            bind (setScalar node tag text)
              (fun _ => restore node (Style n) (Column n)) h =
            (Ret tt, <[node := setValue text (setTag tag (setKind ScalarNode n))]> h)).
  { intros tag text h n Hn.
    rewrite (bind_run _ _ _ _ _ (setScalar_run _ _ _ _ _ Hn)).
    rewrite (restore_run _ _ _ _ _ (lookup_insert_same _ _ _ _ Hn)).
    rewrite list_insert_insert_eq. by destruct n. }
  destruct v as [| | | | |i|text|b|s|kind text| |v]; try discriminate;
    [eexists _, _; intros h n Hn; rewrite updateNode_eq, (bind_deref _ _ _ _ Hn);
     cbv zeta; apply Hgen; exact Hn ..|].
  destruct v as [| | | | |i|text|b|s|kind text| |v]; try discriminate;
    eexists _, _; intros h n Hn; rewrite updateNode_eq, (bind_deref _ _ _ _ Hn);
    cbv zeta; rewrite updateNodeRO_eq, (bind_deref _ _ _ _ Hn);
    cbv zeta; apply Hgen; exact Hn.
Qed.

(** X14. Scalar merges overwrite each other: merging a scalar value (an
    integer, a float, a bool or a string, or a pointer or a value of
    another plain kind that was not read from an unexported field) into a
    node and then a second one leaves the store that merging the second one
    alone leaves; merging the same scalar twice is merging it once. *)
Theorem updateNode_leaf_overwrite fuel node a b (h : heap) n :
  leaf a = true -> leaf b = true -> h !! node = Some n ->
  exists h1, updateNode fuel node a h = (Ret tt, h1) /\
             updateNode fuel node b h1 = updateNode fuel node b h.
Proof.
  intros Ha Hb Hn.
  destruct (updateNode_leaf_run fuel node a Ha) as (ta & xa & Hra).
  destruct (updateNode_leaf_run fuel node b Hb) as (tb & xb & Hrb).
  eexists. split; [by apply Hra|].
  rewrite (Hrb _ _ (lookup_insert_same _ _ _ _ Hn)), (Hrb _ _ Hn).
  rewrite list_insert_insert_eq. by destruct n.
Qed.

Lemma updateNode_leaf_overwrite_witness :
  exists h1,
    updateNode 0 3%nat (reflect.VString "Bob") sample_person = (Ret tt, h1) /\
    updateNode 0 3%nat (reflect.VInt 7) h1 = updateNode 0 3%nat (reflect.VInt 7) sample_person.
Proof.
  exact (updateNode_leaf_overwrite 0 3%nat (reflect.VString "Bob") (reflect.VInt 7)
           sample_person _ eq_refl eq_refl eq_refl).
Defined.

(** ** The errors of [UpdateYAML] *)

Lemma resetRootColumns_no_error root (h : heap) e h' :
  resetRootColumns root h <> (Err e, h').
Proof.
  unfold resetRootColumns, bind, modify, deref, index, ret, panic.
  destruct (h !! root) as [r|]; [|done].
  destruct (<[root := setColumn 0 r]> h !! root) as [r'|]; [|done].
  destruct (0 <? length (Content r'))%nat; [|done].
  destruct (Content r' !! 0%nat) as [c0|]; [|done].
  by destruct (<[root := setColumn 0 r]> h !! c0).
Qed.

(** X15. Every error [UpdateYAML] returns is wrapped by the stage it comes
    from: it is the parser's error after [failed to parse YAML: ], the
    merge's error after [failed to update YAML: ] (the encoder is then not
    run), or the encoder's error after [failed to encode YAML: ]. *)
Theorem UpdateYAML_error_stage fuel
    (yaml_Unmarshal : string -> list Node * nat + string)
    (yaml_Encode : Z -> list Node -> nat -> string + string) content newData e :
  UpdateYAML fuel yaml_Unmarshal yaml_Encode content newData = Err e ->
  (exists m, yaml_Unmarshal content = inr m /\ e = "failed to parse YAML: " +:+ m) \/
  (exists h root m h',
     yaml_Unmarshal content = inl (h, root) /\
     updateYamlFromStruct fuel root newData h = (Err m, h') /\
     e = "failed to update YAML: " +:+ m) \/
  (exists h root h' m,
     yaml_Unmarshal content = inl (h, root) /\
     UpdateYAML_nodes fuel root newData h = (Ret tt, h') /\
     yaml_Encode (detectIndentation content) h' root = inr m /\
     e = "failed to encode YAML: " +:+ m).
Proof.
  unfold UpdateYAML. cbv zeta.
  destruct (yaml_Unmarshal content) as [[h root]|m] eqn:EU.
  - destruct (UpdateYAML_nodes fuel root newData h) as [r h'] eqn:EN.
    destruct r as [[]|e'|p|]; try discriminate.
    + destruct (yaml_Encode (detectIndentation content) h' root) as [text|m] eqn:EE;
        [discriminate|].
      intros [= <-]. right. right. by exists h, root, h', m.
    + intros [= ->]. right. left.
      unfold UpdateYAML_nodes, bind, wrapErr in EN.
      destruct (updateYamlFromStruct fuel root newData h) as [[[]|m|p|] h1] eqn:EM.
      * by apply resetRootColumns_no_error in EN.
      * injection EN as <- <-. by exists h, root, m, h1.
      * discriminate.
      * discriminate.
  - intros [= <-]. left. by exists m.
Qed.

(** A parser that answers with the document of [sample_person], and an
    encoder that answers with the empty text. *)
Definition sample_parser (content : string) : list Node * nat + string :=
  inl (sample_person, 0%nat).

Definition sample_encoder (indent : Z) (h : list Node) (root : nat) : string + string :=
  inl "".

Lemma UpdateYAML_error_stage_witness :
  exists h root m h',
    sample_parser "" = inl (h, root) /\
    updateYamlFromStruct 3 root (reflect.VInt 1) h = (Err m, h') /\
    "failed to update YAML: data must be a struct, pointer to struct, or map[string]interface{}"
    = "failed to update YAML: " +:+ m.
Proof.
  destruct (UpdateYAML_error_stage 3 sample_parser sample_encoder "" (reflect.VInt 1)
              _ eq_refl)
    as [(m & Hm & _) | [H | (h & root & h' & m & Hu & Hn & _)]].
  - discriminate.
  - exact H.
  - injection Hu as <- <-. vm_compute in Hn. discriminate.
Defined.

(** ** The rest of the document *)

(** X16. A merge writes only below its target: when the target is the root
    of a tree of nodes in the store, every node of the store outside that
    tree is left exactly as it was, whatever the value and however the
    merge ends.  This holds for [updateNode], for [updateYamlFromStruct]
    and for the node stage of [UpdateYAML]. *)
Theorem merge_frame fuel t value (h : heap) (x : loc) :
  shape h t -> x ∉ locs t -> (x < length h)%nat ->
  snd (updateNode fuel (root t) value h) !! x = h !! x /\
  snd (updateYamlFromStruct fuel (root t) value h) !! x = h !! x /\
  snd (UpdateYAML_nodes fuel (root t) value h) !! x = h !! x.
Proof.
  intros Hs Hx Hlt.
  assert (Hp : pre (region h t) False h) by (by apply pre_region).
  pose proof (MI_refl _ _ _ Hp) as H0.
  assert (Hroot : region h t (root t)) by (left; apply root_in_locs).
  assert (Hout : ~ region h t x) by (intros [?|?]; [done | lia]).
  split; [|split].
  - pose proof (updateNode_spec (region h t) False fuel value (root t) h h H0 Hroot) as Hsat.
    destruct (updateNode fuel (root t) value h) as [r h'] eqn:E.
    destruct (sat_run _ _ _ _ _ _ _ _ Hsat E) as [HMI _].
    by apply (mi_frame _ _ _ _ HMI).
  - pose proof (updateYamlFromStruct_spec_any (region h t) fuel (root t) value h h H0 Hroot)
      as Hsat.
    destruct (updateYamlFromStruct fuel (root t) value h) as [r h'] eqn:E.
    destruct (sat_run _ _ _ _ _ _ _ _ Hsat E) as [HMI _].
    by apply (mi_frame _ _ _ _ HMI).
  - pose proof (UpdateYAML_nodes_spec (region h t) fuel (root t) value h h H0 Hroot)
      as Hsat.
    destruct (UpdateYAML_nodes fuel (root t) value h) as [r h'] eqn:E.
    destruct (sat_run _ _ _ _ _ _ _ _ Hsat E) as [HMI _].
    by apply (mi_frame _ _ _ _ HMI).
Qed.

Lemma merge_frame_witness :
  snd (updateNode 0 3%nat (reflect.VInt 7) sample_person) !! 5%nat = sample_person !! 5%nat.
Proof.
  apply (merge_frame 0 (TNode 3 []) (reflect.VInt 7) sample_person 5%nat).
  - by apply shapeb_shape.
  - simpl. rewrite elem_of_cons, elem_of_nil. lia.
  - simpl. lia.
Defined.

(** ** The node of a Sequence merge *)

Section SequenceNode.

Variable fuel : nat.
Variable h : heap.
Variable node : loc.
Variable kids : list tree.

Hypothesis Hok : tree_ok h (TNode node kids).

(** Where the element merges write: below the children, and in the nodes
allocated since. *)
Definition below (x : loc) : Prop :=
x ∈ flat_map locs kids \/ (length h <= x)%nat.

Lemma node_not_below : ~ below node.
Proof.
intros [Hin | Hl].
- destruct Hok as [_ Hnd]. simpl in Hnd. by apply NoDup_cons in Hnd as [Hn _].
- destruct (kids_content h node kids Hok) as (n & Hn & _).
apply lookup_lt_Some in Hn. lia.
Qed.

Lemma child_below (c : loc) : c ∈ map root kids -> below c.
Proof.
intros Hc. apply list_elem_of_fmap in Hc as (t & -> & Ht). left.
apply elem_of_flat_map_locs. exists t. split; [done | apply root_in_locs].
Qed.

Lemma pre_below n1 : pre below False (<[node := n1]> h).
Proof.
split.
- intros x n c Hx Hn Hc.
rewrite list_lookup_insert_ne in Hn by (intros <-; by apply node_not_below).
destruct Hx as [Hx | Hx].
+ apply elem_of_flat_map_locs in Hx as (t & Ht & Hx).
apply list_elem_of_lookup in Ht as (p & Hp). left.
apply elem_of_flat_map_locs. exists t.
split; [by eapply list_elem_of_lookup_2|].
eapply shape_closed; [by eapply (kid_shape h node kids Hok) | exact Hx | exact Hn | exact Hc].
+ apply lookup_lt_Some in Hn. lia.
- intros x Hx. right. by rewrite length_insert in Hx.
- done.
Qed.

Lemma sequenceElems_below n1 baseIndent es :
forall i acc (hc : heap) newContent h3,
MI below False (<[node := n1]> h) hc ->
sequenceElems_ (updateNode fuel) node (map root kids) baseIndent i es acc hc
= (Ret newContent, h3) ->
MI below False (<[node := n1]> h) h3.
Proof.
set (ha := <[node := n1]> h).
assert (Hla : length ha = length h) by (subst ha; by rewrite length_insert).
induction es as [|e rest IH]; intros i acc hc newContent h3 HMI H; simpl in H.
- by apply ret_Ret in H as [_ ->].
- apply bind_Ret in H as (elemNode & h1 & Hc & H).
apply bind_Ret in H as ([] & h2 & Hu & H). apply wrapErr_Ret in Hu.
apply (IH (S i) (acc ++ [elemNode]) h2 newContent h3); [|exact H].
assert (Hstep : MI below False ha h1 /\ below elemNode).
{ destruct (map root kids !! i) as [x|] eqn:Hi.
- rewrite (createOrReuseNode_reuse _ _ _ _ _ _ Hi) in Hc. injection Hc as <- <-.
split; [done|]. apply child_below. by eapply list_elem_of_lookup_2.
- pose proof (createOrReuseNode_past node i (map root kids) baseIndent hc Hi) as Hrun.
destruct (last (map root kids)) as [l|] eqn:El.
+ assert (Hl : l ∈ map root kids).
  { rewrite last_lookup in El. by eapply list_elem_of_lookup_2. }
  assert (is_Some (ha !! l)) as [ln0 Hln0].
  { apply lookup_lt_is_Some. rewrite Hla.
    apply list_elem_of_fmap in Hl as (t & -> & Ht).
    apply list_elem_of_lookup in Ht as (p & Hp).
    eapply (kid_lt h node kids Hok); [exact Hp | apply root_in_locs]. }
  destruct (mi_meta _ _ _ _ HMI l ln0 Hln0) as (ln & Hln & _).
  rewrite (Hrun ln Hln) in Hc. injection Hc as <- <-.
  split; [|right; pose proof (mi_len _ _ _ _ HMI); lia].
  apply MI_alloc; [done | | done]. by intros c ?%elem_of_nil.
+ assert (Hn1 : hc !! node = Some n1).
  { rewrite (mi_frame _ _ _ _ HMI) by apply node_not_below.
    subst ha. apply list_lookup_insert_eq.
    destruct (kids_content h node kids Hok) as (n & Hn & _).
    by eapply lookup_lt_Some. }
  rewrite (Hrun n1 Hn1) in Hc. injection Hc as <- <-.
  split; [|right; pose proof (mi_len _ _ _ _ HMI); lia].
  apply MI_alloc; [done | | done]. by intros c ?%elem_of_nil. }
destruct Hstep as [HMI1 Hbelow].
pose proof (updateNode_spec below False fuel e elemNode ha h1 HMI1 Hbelow) as Hs.
by destruct (sat_run _ _ _ _ _ _ _ _ Hs Hu).
Qed.

End SequenceNode.

(** X17. After a Sequence merge into a node that is the root of a tree, the
    node is the node it was with kind Sequence, tag [!!seq] and the new
    children: its value text, style, column, line, comments, anchor and
    alias are those it had, whatever its kind was. *)
Theorem updateNode_sequence_node fuel node elems kids (h : heap) n h' :
  tree_ok h (TNode node kids) -> h !! node = Some n ->
  updateNode fuel node (reflect.VSlice elems) h = (Ret tt, h') ->
  exists newContent,
    h' !! node =
    Some (setContent newContent (setTag "!!seq" (setKind SequenceNode n))).
Proof.
  intros Hok Hn H.
  destruct (kids_content _ _ _ Hok) as (n0 & Hn0 & Hc).
  assert (n0 = n) as -> by congruence. clear Hn0.
  assert (Hlt : (node < length h)%nat) by (by eapply lookup_lt_Some).
  rewrite updateNode_eq in H. minv H. reads_of Hn.
  apply bind_Ret in H as ([] & h1 & Hs & H).
  unfold updateSequence_ in Hs. minv Hs. reads_of Hn. read_writes.
  rewrite list_insert_insert_eq in Hs.
  set (n1 := setTag "!!seq" (setKind SequenceNode n)) in *.
  apply bind_Ret in Hs as (baseIndent & h2 & Hb & Hs).
  apply baseIndentOf_Ret in Hb as ->.
  apply bind_Ret in Hs as (newContent & h3 & Hl & Hs).
  rewrite Hc in Hl.
  pose proof (sequenceElems_below fuel h node kids Hok n1 baseIndent elems 0%nat []
                _ newContent h3
                (MI_refl _ _ _ (pre_below h node kids Hok n1)) Hl) as HMI.
  assert (Hn3 : h3 !! node = Some n1).
  { rewrite (mi_frame _ _ _ _ HMI) by (by apply (node_not_below h node kids)).
    by apply list_lookup_insert_eq. }
  unfold restore in H. minv Hs. minv H. read_writes. reads_of Hn3.
  exists newContent.
  rewrite list_lookup_insert_eq by (rewrite !length_insert; by eapply lookup_lt_Some).
  by f_equal.
Qed.

Lemma updateNode_sequence_node_witness :
  exists newContent,
    snd (updateNode 0 3%nat (reflect.VSlice [reflect.VInt 1]) sample_person) !! 3%nat =
    Some (setContent newContent
            (setTag "!!seq"
               (setKind SequenceNode
                  (mkNode ScalarNode 0 "!!str" "Bob" "" None [] "" "# nickname" "" 1 7)))).
Proof.
  exact (updateNode_sequence_node 0 3%nat [reflect.VInt 1] [] sample_person _
           _ (tree_okb_ok sample_person (TNode 3 []) eq_refl) eq_refl eq_refl).
Defined.

(** ** Flat records: merging twice *)

(** The tag and the text [updateNode] writes for a scalar value. *)
Definition scalarOf (v : reflect.Value) : string * string :=
  match v with
  | reflect.VInt i => ("!!int", fmt_d i)
  | reflect.VFloat text => ("!!float", text)
  | reflect.VBool b => ("!!bool", fmt_bool b)
  | reflect.VString s => ("!!str", s)
  | reflect.VPtr _ text | reflect.VOther _ text => ("!!str", text)
  | reflect.VReadOnly (reflect.VInt i) => ("!!int", fmt_d i)
  | reflect.VReadOnly (reflect.VFloat text) => ("!!float", text)
  | reflect.VReadOnly (reflect.VBool b) => ("!!bool", fmt_bool b)
  | reflect.VReadOnly (reflect.VString s) => ("!!str", s)
  | _ => ("", "")
  end.

Definition written (v : reflect.Value) (n : Node) : Node :=
  setValue (snd (scalarOf v)) (setTag (fst (scalarOf v)) (setKind ScalarNode n)).

Lemma updateNode_leaf_written fuel node v (h : heap) n :
  leaf v = true -> h !! node = Some n ->
  updateNode fuel node v h = (Ret tt, <[node := written v n]> h).
Proof.
  intros Hleaf Hn. rewrite updateNode_eq, (bind_deref _ _ _ _ Hn). cbv zeta.
  assert (Hgen : forall tag text,
            bind (setScalar node tag text)
              (fun _ => restore node (Style n) (Column n)) h =
            (Ret tt, <[node := setValue text (setTag tag (setKind ScalarNode n))]> h)).
  { intros tag text.
    rewrite (bind_run _ _ _ _ _ (setScalar_run _ _ _ _ _ Hn)).
    rewrite (restore_run _ _ _ _ _ (lookup_insert_same _ _ _ _ Hn)).
    rewrite list_insert_insert_eq. by destruct n. }
  destruct v as [| | | | |i|text|b|s|kind text| |v]; try discriminate;
    [apply Hgen ..|].
  rewrite updateNodeRO_eq, (bind_deref _ _ _ _ Hn). cbv zeta.
  destruct v as [| | | | |i|text|b|s|kind text| |v]; try discriminate; apply Hgen.
Qed.

Lemma written_written v n : written v (written v n) = written v n.
Proof. by destruct n. Qed.

Lemma ensureMapping_id mappingNode (h : heap) m :
  h !! mappingNode = Some m -> Kind m = MappingNode ->
  ensureMapping mappingNode h = (Ret tt, h).
Proof.
  intros Hm Hk. unfold ensureMapping. rewrite (bind_deref _ _ _ _ Hm).
  by rewrite Hk.
Qed.

(** The new pair on a mapping whose children are whole pairs. *)
Lemma appendNewPair_returns mappingNode key (h : heap) m pairs :
  h !! mappingNode = Some m -> Content m = flatten pairs ->
  (forall c, c ∈ flatten pairs -> is_Some (h !! c)) ->
  exists h2, appendNewPair mappingNode key h = (Ret (length h, S (length h)), h2).
Proof.
  intros Hm Hc Hall.
  assert (Hlm : (mappingNode < length h)%nat) by (by eapply lookup_lt_Some).
  unfold appendNewPair. rewrite !bind_alloc.
  replace (length (h ++ [setValue key (setTag "!!str" (setKind ScalarNode zeroNode))]))
    with (S (length h)) by (rewrite length_app; simpl; lia).
  erewrite bind_deref by lookup_tac. rewrite Hc.
  destruct pairs as [|[c0 c1] rest].
  - cbn [flatten flat_map length Nat.ltb Nat.leb]. mrun. unfold ret. by eexists.
  - destruct (Hall c0) as [n0 Hn0]; [simpl; rewrite !elem_of_cons; auto|].
    destruct (Hall c1) as [n1 Hn1]; [simpl; rewrite !elem_of_cons; auto|].
    assert (Hl0 : (c0 < length h)%nat) by (by eapply lookup_lt_Some).
    assert (Hl1 : (c1 < length h)%nat) by (by eapply lookup_lt_Some).
    change (flatten ((c0, c1) :: rest)) with (c0 :: c1 :: flatten rest).
    cbn [length Nat.ltb Nat.leb]. mrun. unfold ret. by eexists.
Qed.

Lemma flatten_elem pairs j (k v : loc) :
  pairs !! j = Some (k, v) -> k ∈ flatten pairs /\ v ∈ flatten pairs.
Proof.
  intros Hj. destruct (flatten_lookup pairs j (k, v) Hj) as [H1 H2].
  split; by eapply list_elem_of_lookup_2.
Qed.

(** In a list of pairs without repetition, a key is no value, and a value
    belongs to one pair. *)
Lemma flatten_key_value pairs j j' (k v k' v' : loc) :
  NoDup (flatten pairs) ->
  pairs !! j = Some (k, v) -> pairs !! j' = Some (k', v') ->
  k' <> v /\ (v' = v -> j' = j).
Proof.
  intros Hnd Hj Hj'.
  destruct (flatten_lookup pairs j (k, v) Hj) as [H1 H2].
  destruct (flatten_lookup pairs j' (k', v') Hj') as [H1' H2'].
  cbn [fst snd] in *. split.
  - intros ->. pose proof (NoDup_lookup _ _ _ _ Hnd H1' H2). lia.
  - intros ->. pose proof (NoDup_lookup _ _ _ _ Hnd H2' H2). lia.
Qed.

Lemma scan_answer_unique key pairs (h : heap) o1 o2 :
  scan_answer key pairs h o1 -> scan_answer key pairs h o2 -> o1 = o2.
Proof.
  destruct o1 as [kv1|], o2 as [kv2|]; simpl; try done.
  - intros (j1 & kn1 & Hj1 & Hk1 & Hv1 & Hm1) (j2 & kn2 & Hj2 & Hk2 & Hv2 & Hm2).
    destruct (Nat.lt_trichotomy j1 j2) as [Hlt | [-> | Hlt]].
    + by destruct (Hm2 j1 kv1 kn1 Hlt Hj1 Hk1).
    + congruence.
    + by destruct (Hm1 j2 kv2 kn2 Hlt Hj2 Hk2).
  - intros (j1 & kn1 & Hj1 & Hk1 & Hv1 & _) Hnone. exfalso.
    apply (Hnone kv1 kn1); [by eapply list_elem_of_lookup_2 | done | done].
  - intros Hnone (j2 & kn2 & Hj2 & Hk2 & Hv2 & _). exfalso.
    apply (Hnone kv2 kn2); [by eapply list_elem_of_lookup_2 | done | done].
Qed.

Section FlatRecord.

Variable fuel : nat.
Variable node : loc.

(** The mapping node [node] has the pairs [pairs] as its children, all
allocated, no pointer twice. *)
Record paired (h : heap) (pairs : list (loc * loc)) : Prop := {
pd_node : exists m, h !! node = Some m /\ Kind m = MappingNode /\
              Content m = flatten pairs;
pd_nodup : NoDup (node :: flatten pairs);
pd_alloc : forall c, c ∈ flatten pairs -> is_Some (h !! c)
}.

(** The field has its pair, and the value node of the pair holds the
field's value already. *)
Definition settled (h : heap) (pairs : list (loc * loc))
(f : reflect.StructField * reflect.Value) : Prop :=
exists k v vn,
scan_answer (yamlTagOf (fst f)) pairs h (Some (k, v)) /\
h !! v = Some vn /\ written (snd f) vn = vn.

Lemma paired_keys h pairs :
paired h pairs -> forall kv, kv ∈ pairs -> is_Some (h !! fst kv).
Proof.
intros Hp [k v] Hin. apply list_elem_of_lookup in Hin as (j & Hj).
apply (pd_alloc _ _ Hp). by apply (flatten_elem pairs j k v).
Qed.

Lemma findNodes_answer h pairs key o :
paired h pairs -> scan_answer key pairs h o ->
findNodes node key h = (Ret o, h).
Proof.
intros Hp Ho. destruct (pd_node _ _ Hp) as (m & Hm & _ & Hc).
unfold findNodes. rewrite (bind_deref _ _ _ _ Hm), Hc.
destruct (scanPairs_flatten key pairs h (paired_keys h pairs Hp)) as (o' & Hrun & Ho').
by rewrite (scan_answer_unique _ _ _ _ _ Ho Ho').
Qed.

Lemma settled_fix h pairs f :
paired h pairs -> leaf (snd f) = true -> settled h pairs f ->
updateField fuel node (fst f) (snd f) h = (Ret tt, h).
Proof.
intros Hp Hleaf (k & v & vn & Hans & Hv & Hw).
unfold updateField, updateField_. cbv zeta.
rewrite (bind_run _ _ _ _ _ (findNodes_answer _ _ _ _ Hp Hans)), bind_ret.
cbn [snd]. rewrite (updateNode_leaf_written _ _ _ _ _ Hleaf Hv), Hw.
by rewrite list_insert_id.
Qed.

Lemma scan_answer_agree key pairs (h h1 : heap) pairs1 o :
(forall j kv, pairs !! j = Some kv ->
        pairs1 !! j = Some kv /\ h1 !! fst kv = h !! fst kv) ->
scan_answer key pairs h (Some o) -> scan_answer key pairs1 h1 (Some o).
Proof.
intros Hag (j & kn & Hj & Hk & Hv & Hmin).
destruct (Hag j o Hj) as [Hj1 Hk1].
exists j, kn. split; [done|]. split; [by rewrite Hk1|]. split; [done|].
intros j' kv' kn' Hlt Hj' Hkn'.
assert (is_Some (pairs !! j')) as [kv0 Hkv0].
{ apply lookup_lt_is_Some. apply lookup_lt_Some in Hj. lia. }
destruct (Hag j' kv0 Hkv0) as [Hj1' Hk1'].
assert (kv' = kv0) as -> by congruence.
apply (Hmin j' kv0 kn'); [done | done | by rewrite <- Hk1'].
Qed.

Lemma updateField_flat h pairs fieldType fieldValue :
paired h pairs -> leaf fieldValue = true ->
exists h1 pairs1,
updateField fuel node fieldType fieldValue h = (Ret tt, h1) /\
paired h1 pairs1 /\
settled h1 pairs1 (fieldType, fieldValue) /\
forall f, yamlTagOf (fst f) <> yamlTagOf fieldType ->
        settled h pairs f -> settled h1 pairs1 f.
Proof.
intros Hp Hleaf.
destruct (pd_node _ _ Hp) as (m & Hm & Hkind & Hc).
pose proof (pd_nodup _ _ Hp) as Hnd. apply NoDup_cons in Hnd as [Hnode Hnd].
assert (Hlm : (node < length h)%nat) by (by eapply lookup_lt_Some).
destruct (scanPairs_flatten (yamlTagOf fieldType) pairs h (paired_keys h pairs Hp))
as (o & _ & Hans).
pose proof (findNodes_answer _ _ _ _ Hp Hans) as Hfind.
unfold updateField, updateField_. cbv zeta.
rewrite (bind_run _ _ _ _ _ Hfind).
destruct o as [[k v]|].
- rewrite bind_ret. cbn [snd].
pose proof Hans as (j & kn & Hj & Hk & Hval & Hmin).
destruct (flatten_elem pairs j k v Hj) as [Hkin Hvin].
destruct (pd_alloc _ _ Hp v Hvin) as [nv Hnv].
rewrite (updateNode_leaf_written _ _ _ _ _ Hleaf Hnv).
set (h1 := <[v := written fieldValue nv]> h).
assert (Hkeys : forall j' kv, pairs !! j' = Some kv ->
                pairs !! j' = Some kv /\ h1 !! fst kv = h !! fst kv).
{ intros j' [k' v'] Hj'. split; [done|]. subst h1.
destruct (flatten_key_value pairs j j' k v k' v' Hnd Hj Hj') as [Hne _].
by rewrite list_lookup_insert_ne. }
exists h1, pairs. split; [done|]. split; [|split].
+ split.
* exists m. split; [|done]. subst h1.
  rewrite list_lookup_insert_ne; [done|]. intros <-. done.
* by apply NoDup_cons.
* intros c Hin. apply lookup_lt_is_Some. subst h1. rewrite length_insert.
  apply lookup_lt_is_Some. by apply (pd_alloc _ _ Hp).
+ exists k, v, (written fieldValue nv). split; [|split].
* by apply (scan_answer_agree _ pairs h).
* subst h1. apply list_lookup_insert_eq. by eapply lookup_lt_Some.
* apply written_written.
+ intros f Hne (k' & v' & vn' & Hans' & Hv' & Hw').
exists k', v', vn'. split; [|split; [|done]].
* by apply (scan_answer_agree _ pairs h).
* subst h1. rewrite list_lookup_insert_ne; [done|]. intros <-.
  destruct Hans' as (j' & kn' & Hj' & Hk' & Hval' & _). cbn [fst] in *.
  destruct (flatten_key_value pairs j j' k v k' v Hnd Hj Hj') as [_ Heq].
  rewrite (Heq eq_refl) in Hj'. congruence.
- destruct (appendNewPair_returns node (yamlTagOf fieldType) h m pairs Hm Hc
          (pd_alloc _ _ Hp)) as (h2 & Hrun).
rewrite (bind_run _ _ _ _ _ Hrun). cbn [snd].
assert (Hold : forall c, c ∈ flatten pairs -> (c < length h)%nat).
{ intros c Hin. apply lookup_lt_is_Some. by apply (pd_alloc _ _ Hp). }
destruct (appendNewPair_Ret node (yamlTagOf fieldType) h m (length h) (S (length h))
        h2 Hm) as
[_ _ Hlen Hsame Hmap (kn & vn & Hkn & Hvn & _ & _ & Hkval & _)];
[by rewrite Hc | exact Hrun |].
rewrite (updateNode_leaf_written _ _ _ _ _ Hleaf Hvn).
set (h1 := <[S (length h) := written fieldValue vn]> h2).
assert (Hsame1 : forall c, c ∈ flatten pairs -> h1 !! c = h !! c).
{ intros c Hin. pose proof (Hold c Hin). subst h1.
rewrite list_lookup_insert_ne by lia. apply Hsame; [done|].
intros ->. done. }
assert (Hkeys : forall j' kv, pairs !! j' = Some kv ->
                (pairs ++ [(length h, S (length h))]) !! j' = Some kv /\
                h1 !! fst kv = h !! fst kv).
{ intros j' [k' v'] Hj'. split; [by apply lookup_app_l_Some|].
apply Hsame1. by apply (flatten_elem pairs j' k' v'). }
exists h1, (pairs ++ [(length h, S (length h))]).
split; [done|]. split; [|split].
+ split.
* exists (setContent (Content m ++ [length h; S (length h)]) m).
  split; [|split; [done|]].
  -- subst h1. by rewrite list_lookup_insert_ne by lia.
  -- simpl. by rewrite Hc, flatten_snoc_pair.
* rewrite flatten_snoc_pair.
  change (node :: flatten pairs ++ [length h; S (length h)])
    with ((node :: flatten pairs) ++ [length h; S (length h)]).
  apply NoDup_app. split; [by apply NoDup_cons|]. split.
  -- intros x Hx Hx'. rewrite !elem_of_cons, elem_of_nil in Hx'.
     apply elem_of_cons in Hx as [-> | Hx]; [lia|].
     apply Hold in Hx. lia.
  -- apply NoDup_cons. split; [|apply NoDup_singleton].
     rewrite list_elem_of_singleton. lia.
* intros c Hin. apply lookup_lt_is_Some. subst h1. rewrite length_insert, Hlen.
  rewrite flatten_snoc_pair in Hin. apply elem_of_app in Hin as [Hin | Hin].
  -- apply Hold in Hin. lia.
  -- rewrite !elem_of_cons, elem_of_nil in Hin. lia.
+ exists (length h), (S (length h)), (written fieldValue vn). split; [|split].
* exists (length pairs), kn. split; [|split; [|split]].
  -- by apply list_lookup_middle.
  -- cbn [fst]. subst h1. by rewrite list_lookup_insert_ne by lia.
  -- done.
  -- intros j' kv' kn' Hlt Hj' Hkn'.
     rewrite lookup_app_l in Hj' by done.
     destruct (Hkeys j' kv' Hj') as [_ Hk1]. rewrite Hk1 in Hkn'.
     apply (Hans kv' kn'); [by eapply list_elem_of_lookup_2 | done].
* subst h1. apply list_lookup_insert_eq. rewrite Hlen. lia.
* apply written_written.
+ intros f Hne (k' & v' & vn' & Hans' & Hv' & Hw').
exists k', v', vn'. split; [|split; [|done]].
* by apply (scan_answer_agree _ pairs h).
* destruct Hans' as (j' & kn' & Hj' & _).
  rewrite Hsame1; [done|]. by apply (flatten_elem pairs j' k' v').
Qed.

Lemma structFields_flat rest :
forall done h pairs,
paired h pairs ->
Forall (fun f => leaf (snd f) = true) rest ->
NoDup (map (fun f => yamlTagOf (fst f)) (done ++ rest)) ->
(forall f, f ∈ done -> settled h pairs f) ->
exists h1 pairs1,
structFields_ (updateNode fuel) node rest h = (Ret tt, h1) /\
paired h1 pairs1 /\
forall f, f ∈ done ++ rest -> settled h1 pairs1 f.
Proof.
induction rest as [|[fieldType fieldValue] rest IH]; intros done h pairs Hp Hleaf Hnd Hdone.
- exists h, pairs. split; [done|]. split; [done|]. by rewrite app_nil_r.
- apply Forall_cons in Hleaf as [Hl Hleaf]. cbn [snd] in Hl.
destruct (updateField_flat h pairs fieldType fieldValue Hp Hl)
as (h1 & pairs1 & Hrun & Hp1 & Hset & Hkeep).
replace (done ++ (fieldType, fieldValue) :: rest)
with ((done ++ [(fieldType, fieldValue)]) ++ rest) in * by (by rewrite <- app_assoc).
destruct (IH (done ++ [(fieldType, fieldValue)]) h1 pairs1 Hp1 Hleaf Hnd)
as (h2 & pairs2 & Hrun2 & Hp2 & Hall).
{ intros f [Hf | Hf]%elem_of_app.
- apply Hkeep; [|by apply Hdone].
  rewrite !fmap_app in Hnd. apply NoDup_app in Hnd as (Hnd & _ & _).
  apply NoDup_app in Hnd as (_ & Hnd & _).
  intros E. apply (Hnd (yamlTagOf (fst f))).
  + apply list_elem_of_fmap. by exists f.
  + rewrite E. simpl. apply list_elem_of_here.
- apply list_elem_of_singleton in Hf as ->. done. }
exists h2, pairs2. split; [|done].
cbn [structFields_].
rewrite (bind_run _ _ _ _ _ (wrapErr_run _ _ _ _ _ Hrun)). exact Hrun2.
Qed.

Lemma structFields_settled fields :
forall h pairs,
paired h pairs ->
Forall (fun f => leaf (snd f) = true) fields ->
(forall f, f ∈ fields -> settled h pairs f) ->
structFields_ (updateNode fuel) node fields h = (Ret tt, h).
Proof.
induction fields as [|[fieldType fieldValue] rest IH]; intros h pairs Hp Hleaf Hall.
- done.
- apply Forall_cons in Hleaf as [Hl Hleaf]. cbn [structFields_].
pose proof (settled_fix h pairs (fieldType, fieldValue) Hp Hl
            (Hall _ (list_elem_of_here _ _))) as Hrun.
rewrite (bind_run _ _ _ _ _ (wrapErr_run _ _ _ _ _ Hrun)).
apply (IH h pairs); [done | done |].
intros f Hf. apply Hall. by apply list_elem_of_further.
Qed.

End FlatRecord.

(** X18. Merging a flat record twice is merging it once.  On a node that
    is not a Document and whose children are whole (key, value) pairs, all
    allocated and no pointer twice, a Record merge whose fields have
    distinct keys and scalar values (integers, floats, bools and strings,
    and pointers and values of other plain kinds in exported fields)
    returns normally, and merging the same record again into the store it
    leaves returns normally and changes nothing. *)
Theorem updateYamlFromStruct_flat_idempotent fuel node fields (h : heap) n pairs :
  h !! node = Some n -> Kind n <> DocumentNode ->
  Content n = flatten pairs -> NoDup (node :: flatten pairs) ->
  (forall c, c ∈ flatten pairs -> is_Some (h !! c)) ->
  NoDup (map (fun f => yamlTagOf (fst f)) fields) ->
  Forall (fun f => leaf (snd f) = true) fields ->
  exists h1,
    updateYamlFromStruct fuel node (reflect.VStruct fields) h = (Ret tt, h1) /\
    updateYamlFromStruct fuel node (reflect.VStruct fields) h1 = (Ret tt, h1).
Proof.
  intros Hn Hkind Hc Hnd Hall Htags Hleaf.
  destruct (ensureMapping_run node h n Hn) as (m' & Hrun & Hk' & Hc' & _).
  assert (Hp : paired node (<[node := m']> h) pairs).
  { split.
    - exists m'. split; [|split; [done | congruence]].
      apply list_lookup_insert_eq. by eapply lookup_lt_Some.
    - done.
    - intros c Hin. apply lookup_lt_is_Some. rewrite length_insert.
      apply lookup_lt_is_Some. by apply Hall. }
  destruct (structFields_flat fuel node fields [] _ pairs Hp Hleaf Htags)
    as (h1 & pairs1 & Hrun1 & Hp1 & Hset).
  { intros f Hf. by apply elem_of_nil in Hf. }
  exists h1. split.
  - unfold updateYamlFromStruct, updateYamlFromStruct_. cbv zeta.
    rewrite (bind_run _ _ _ _ _ (documentChild_other fuel node h n Hn Hkind)).
    rewrite (bind_run _ _ _ _ _ Hrun). exact Hrun1.
  - destruct (pd_node _ _ _ Hp1) as (m1 & Hm1 & Hk1 & _).
    unfold updateYamlFromStruct, updateYamlFromStruct_. cbv zeta.
    rewrite (bind_run _ _ _ _ _ (documentChild_other fuel node h1 m1 Hm1
                                   ltac:(rewrite Hk1; discriminate))).
    rewrite (bind_run _ _ _ _ _ (ensureMapping_id node h1 m1 Hm1 Hk1)).
    by apply (structFields_settled fuel node fields h1 pairs1).
Qed.

Lemma updateYamlFromStruct_flat_idempotent_witness :
  exists h1,
    updateYamlFromStruct 0 0%nat (reflect.VStruct sample_courses_record) sample_courses
    = (Ret tt, h1) /\
    updateYamlFromStruct 0 0%nat (reflect.VStruct sample_courses_record) h1 = (Ret tt, h1).
Proof.
  apply (updateYamlFromStruct_flat_idempotent 0 0%nat sample_courses_record
           sample_courses _ [(1, 2); (3, 4)]%nat eq_refl).
  - discriminate.
  - reflexivity.
  - apply (bool_decide_eq_true_1 (NoDup [0; 1; 2; 3; 4]%nat)). reflexivity.
  - intros c Hin. simpl in Hin. rewrite !elem_of_cons, elem_of_nil in Hin.
    destruct Hin as [-> | [-> | [-> | [-> | []]]]]; by eexists.
  - simpl. repeat (apply NoDup_cons_2 || apply NoDup_nil_2);
      rewrite ?elem_of_cons, ?elem_of_nil; intuition discriminate.
  - repeat constructor.
Defined.

(** ** The pairs a Mapping merge adds *)

Lemma insert2_k (h : heap) a b x :
  <[length h := x]> ((h ++ [a]) ++ [b]) = (h ++ [x]) ++ [b].
Proof.
  rewrite insert_app_l by (rewrite length_app; simpl; lia).
  by rewrite insert_snoc.
Qed.

Lemma insert2_v (h : heap) a b x :
  <[S (length h) := x]> ((h ++ [a]) ++ [b]) = (h ++ [a]) ++ [x].
Proof.
  replace (S (length h)) with (length (h ++ [a])) by (rewrite length_app; simpl; lia).
  apply insert_snoc.
Qed.

Lemma createOrReusePair_cases node key originalContent baseIndent (h : heap) k v h2 :
  createOrReusePair node key originalContent baseIndent h = (Ret (k, v), h2) ->
  (h2 = h /\ k ∈ originalContent /\ v ∈ originalContent) \/
  scanPairs key originalContent h = (Ret None, h).
Proof.
  intros H. unfold createOrReusePair in H.
  apply bind_Ret in H as (found & hx & Hscan & H).
  pose proof Hscan as Hs. apply scanPairs_Ret in Hs as [-> Hfound].
  destruct found as [[k0 v0]|]; [|by right].
  apply ret_Ret in H as [[= -> ->] ->]. left. split; [done|].
  destruct Hfound as (j & kn & H1 & H2 & _).
  split; by eapply list_elem_of_lookup_2.
Qed.

(** The pair made for a key that no original key node holds. *)
Lemma createOrReusePair_none node key originalContent baseIndent (h : heap) :
  scanPairs key originalContent h = (Ret None, h) ->
  (forall init (lk lv : loc) nk nv,
     originalContent = init ++ [lk; lv] ->
     h !! lk = Some nk -> h !! lv = Some nv ->
     createOrReusePair node key originalContent baseIndent h =
     (Ret (length h, S (length h)),
      (h ++ [setLine (Line nk) (setColumn (Column nk) (setStyle (Style nk)
               (setTag "!!str" (setValue key (setKind ScalarNode zeroNode)))))])
        ++ [setLine (Line nv) (setColumn (Column nv) (setStyle (Style nv) zeroNode))])) /\
  (forall n,
     originalContent = [] -> h !! node = Some n ->
     createOrReusePair node key originalContent baseIndent h =
     (Ret (length h, S (length h)),
      (h ++ [setColumn (int_add (Column n) baseIndent)
               (setTag "!!str" (setValue key (setKind ScalarNode zeroNode)))])
        ++ [setColumn (int_add (Column n) baseIndent) zeroNode])).
Proof.
  intros Hscan. split.
  - intros init lk lv nk nv -> Hlk Hlv.
    assert (Hl1 : (lk < length h)%nat) by (by eapply lookup_lt_Some).
    assert (Hl2 : (lv < length h)%nat) by (by eapply lookup_lt_Some).
    unfold createOrReusePair. rewrite (bind_run _ _ _ _ _ Hscan).
    rewrite !bind_alloc.
    replace (length (h ++ [setTag "!!str" (setValue key (setKind ScalarNode zeroNode))]))
      with (S (length h)) by (rewrite length_app; simpl; lia).
    assert (E0 : (0 <? length (init ++ [lk; lv]))%nat = true).
    { apply Nat.ltb_lt. rewrite length_app. simpl. lia. }
    assert (E2 : (2 <=? length (init ++ [lk; lv]))%nat = true).
    { apply Nat.leb_le. rewrite length_app. simpl. lia. }
    assert (Ek : (init ++ [lk; lv]) !! (length (init ++ [lk; lv]) - 2)%nat = Some lk).
    { rewrite length_app. simpl.
      replace (length init + 2 - 2)%nat with (length init + 0)%nat by lia.
      by rewrite lookup_app_r, Nat.add_comm, Nat.add_sub by lia. }
    assert (Ev : (init ++ [lk; lv]) !! (length (init ++ [lk; lv]) - 1)%nat = Some lv).
    { rewrite length_app. simpl.
      replace (length init + 2 - 1)%nat with (length init + 1)%nat by lia.
      by rewrite lookup_app_r, Nat.add_comm, Nat.add_sub by lia. }
    rewrite E0, E2. rewrite !bind_bind, (bind_index _ _ _ _ _ Ek).
    rewrite !bind_bind, (bind_index _ _ _ _ _ Ev).
    mrun. unfold ret. f_equal.
    rewrite !list_insert_insert_eq.
    by rewrite insert2_k, insert2_v.
  - intros n -> Hn.
    assert (Hl : (node < length h)%nat) by (by eapply lookup_lt_Some).
    unfold createOrReusePair. rewrite (bind_run _ _ _ _ _ Hscan).
    rewrite !bind_alloc.
    replace (length (h ++ [setTag "!!str" (setValue key (setKind ScalarNode zeroNode))]))
      with (S (length h)) by (rewrite length_app; simpl; lia).
    cbn [length Nat.ltb Nat.leb]. mrun. unfold ret. f_equal.
    by rewrite insert2_k, insert2_v.
Qed.

Section MappingNew.

Variable fuel : nat.
Variable node : loc.
Variable originalContent : list loc.
Variable baseIndent : Z.
Variable h0 : heap.
Variable forKey forValue : Z * Z * Z.

Hypothesis Hcreate : forall key (h1 : heap),
MI (fun _ => True) True h0 h1 ->
scanPairs key originalContent h1 = (Ret None, h1) ->
exists kn vn,
createOrReusePair node key originalContent baseIndent h1 =
(Ret (length h1, S (length h1)), (h1 ++ [kn]) ++ [vn]) /\
Content kn = [] /\ Content vn = [] /\
Kind kn <> DocumentNode /\ Kind vn <> DocumentNode /\
attrs kn = forKey /\ attrs vn = forValue.

(** The attributes for the child at position [p]: keys at the even
positions, values at the odd ones. *)
Definition side (p : nat) : Z * Z * Z := if Nat.even p then forKey else forValue.

Definition reused_or_made (hc : heap) (p : nat) (c : loc) : Prop :=
c ∈ originalContent \/ made h0 (side p) hc c.

Lemma reused_or_made_MI hc hc' p c :
MI (fun _ => True) True hc hc' -> reused_or_made hc p c -> reused_or_made hc' p c.
Proof.
intros H [Hc | Hc]; [by left | right]. by apply (made_MI h0 (side p) hc).
Qed.

Lemma mappingEntries_made es :
forall acc (hc : heap) newContent h',
MI (fun _ => True) True h0 hc -> Nat.even (length acc) = true ->
(forall p c, acc !! p = Some c -> reused_or_made hc p c) ->
mappingEntries_ (updateNode fuel) false node originalContent baseIndent es acc hc
= (Ret newContent, h') ->
MI (fun _ => True) True h0 h' /\
forall p c, newContent !! p = Some c -> reused_or_made h' p c.
Proof.
induction es as [|[key elem] rest IH]; intros acc hc newContent h' HMI Hev Hacc H;
simpl in H.
- apply ret_Ret in H as [-> ->]. by split.
- apply bind_Ret in H as (key' & hx & Hkey & H). apply ret_Ret in Hkey as [-> ->].
apply bind_Ret in H as ([k v] & h1 & Hc & H).
apply bind_Ret in H as ([] & h2 & Hu & H). apply wrapErr_Ret in Hu.
cbn [fst snd] in Hu, H.
assert (Hev2 : Nat.even (length (acc ++ [k; v])) = true).
{ rewrite length_app. simpl. rewrite Nat.add_comm. by simpl. }
assert (Hodd : Nat.even (S (length acc)) = false).
{ rewrite Nat.even_succ, <- Nat.negb_even. by rewrite Hev. }
destruct (createOrReusePair_cases _ _ _ _ _ _ _ _ Hc) as [(-> & Hk & Hv) | Hscan].
+ destruct (updateNode_MI_from fuel h0 _ _ _ _ HMI Hu) as [HMI2 Hstep].
apply (IH (acc ++ [k; v]) h2 newContent h' HMI2 Hev2); [|exact H].
intros p c Hp. apply lookup_app_Some in Hp as [Hp | [Hp1 Hp2]].
* apply (reused_or_made_MI hc); [done|]. by apply Hacc.
* left. apply list_elem_of_lookup_2 in Hp2.
  rewrite !elem_of_cons, elem_of_nil in Hp2. by destruct Hp2 as [-> | [-> | []]].
+ destruct (Hcreate key hc HMI Hscan)
  as (kn & vn & Hrun & Hck & Hcv & Hkk & Hkv & Hak & Hav).
rewrite Hrun in Hc. injection Hc as <- <- <-.
assert (Hstep0 : MI (fun _ => True) True hc ((hc ++ [kn]) ++ [vn])).
{ apply MI_alloc; [apply MI_alloc; [apply MI_refl; apply HMI | |done] | |done];
    by intros c _. }
assert (HMI1 : MI (fun _ => True) True h0 ((hc ++ [kn]) ++ [vn])).
{ by apply (MI_trans _ _ h0 hc). }
destruct (updateNode_MI_from fuel h0 _ _ _ _ HMI1 Hu) as [HMI2 Hstep].
apply (IH (acc ++ [length hc; S (length hc)]) h2 newContent h' HMI2 Hev2);
  [|exact H].
pose proof (mi_len _ _ _ _ HMI) as Hlen.
intros p c Hp. apply lookup_app_Some in Hp as [Hp | [Hp1 Hp2]].
* apply (reused_or_made_MI ((hc ++ [kn]) ++ [vn])); [done|].
  apply (reused_or_made_MI hc); [done|]. by apply Hacc.
* right. apply (made_MI h0 _ ((hc ++ [kn]) ++ [vn])); [done|].
  destruct (p - length acc)%nat as [|[|q]] eqn:Ep; simpl in Hp2; [| |done].
  -- injection Hp2 as <-. assert (p = length acc) as -> by lia.
     unfold side. rewrite Hev. split; [lia|]. exists kn.
     split; [apply lookup_snoc2_k | done].
  -- injection Hp2 as <-. assert (p = S (length acc)) as -> by lia.
     unfold side. rewrite Hodd. split; [lia|]. exists vn.
     split; [apply lookup_snoc2_v | done].
Qed.

End MappingNew.

(** A Mapping merge, given what the loop makes for the keys it does not
    find. *)
Lemma updateNode_mapping_made fuel node keyKind entries (h : heap) n h' forKey forValue :
  noDocument h -> h !! node = Some n ->
  (forall baseIndent key (h1 : heap),
     MI (fun _ => True) True h h1 ->
     (Content n = [] -> baseIndent = 2) ->
     scanPairs key (Content n) h1 = (Ret None, h1) ->
     exists kn vn,
       createOrReusePair node key (Content n) baseIndent h1 =
       (Ret (length h1, S (length h1)), (h1 ++ [kn]) ++ [vn]) /\
       Content kn = [] /\ Content vn = [] /\
       Kind kn <> DocumentNode /\ Kind vn <> DocumentNode /\
       attrs kn = forKey /\ attrs vn = forValue) ->
  updateNode fuel node (reflect.VMap keyKind entries) h = (Ret tt, h') ->
  exists n', h' !! node = Some n' /\
    forall p c, Content n' !! p = Some c ->
      c ∈ Content n \/
      ((length h <= c)%nat /\
       exists cn, h' !! c = Some cn /\
                  attrs cn = if Nat.even p then forKey else forValue).
Proof.
  intros Hnd Hn Hcreate H.
  assert (Hlt : (node < length h)%nat) by (by eapply lookup_lt_Some).
  rewrite updateNode_eq in H. minv H. reads_of Hn.
  apply bind_Ret in H as ([] & h1 & Hs & H).
  unfold updateMapping_ in Hs. minv Hs. reads_of Hn. read_writes.
  rewrite list_insert_insert_eq in Hs.
  set (ha := <[node := setTag "!!map" (setKind MappingNode n)]> h) in *.
  assert (HMIa : MI (fun _ => True) True h ha) by (by apply MI_retag).
  apply bind_Ret in Hs as (baseIndent & h2 & Hb & Hs).
  assert (Hb2 : Content n = [] -> baseIndent = 2).
  { intros E. rewrite E in Hb. by apply ret_Ret in Hb as [-> _]. }
  apply baseIndentOf_Ret in Hb as ->.
  apply bind_Ret in Hs as (newContent & h3 & Hl & Hs).
  destruct (mappingEntries_made fuel node (Content n) baseIndent ha forKey forValue) with
    (es := entries) (acc := @nil loc) (hc := ha) (newContent := newContent)
    (h' := h3) as [HMI3 Hmade].
  { intros key h1' HMI1 Hscan. apply Hcreate; [|done|done].
    by apply (MI_trans _ _ h ha h1'). }
  { apply MI_refl. apply HMIa. }
  { done. }
  { by intros p c Hp. }
  { exact Hl. }
  unfold restore in H. minv Hs. minv H. read_writes.
  eexists. split.
  - apply list_lookup_insert_eq. rewrite !length_insert. by eapply lookup_lt_Some.
  - cbn [Content setColumn setStyle setContent]. intros p c Hp.
    destruct (Hmade p c Hp) as [Hc | [Hc (cn & Hcn & Ha)]]; [by left | right].
    subst ha. rewrite length_insert in Hc. split; [done|].
    exists cn. split; [|done]. by rewrite !list_lookup_insert_ne by lia.
Qed.

(** X19. In a store without a Document node, a Mapping merge into a node
    with allocated children gives the key node and the value node of each
    pair it adds the style, the column and the line of the key node and
    the value node of the last original pair (a Record merge takes them
    from the first pair, and no line). *)
Theorem updateNode_mapping_appended fuel node keyKind entries (h : heap) n
    init (lk lv : loc) nk nv h' :
  noDocument h -> h !! node = Some n ->
  Content n = init ++ [lk; lv] ->
  (forall c, c ∈ Content n -> is_Some (h !! c)) ->
  h !! lk = Some nk -> h !! lv = Some nv ->
  updateNode fuel node (reflect.VMap keyKind entries) h = (Ret tt, h') ->
  exists n', h' !! node = Some n' /\
    forall p c, Content n' !! p = Some c -> (length h <= c)%nat ->
      exists cn, h' !! c = Some cn /\
                 attrs cn = attrs (if Nat.even p then nk else nv).
Proof.
  intros Hnd Hn Hc Hall Hlk Hlv H.
  destruct (updateNode_mapping_made fuel node keyKind entries h n h' (attrs nk) (attrs nv)
              Hnd Hn) as (n' & Hn' & Hnew); [|exact H|].
  - intros baseIndent key h1 HMI _ Hscan.
    destruct (MI_attrs _ _ _ _ HMI Hlk) as (nk1 & Hlk1 & Hak).
    destruct (MI_attrs _ _ _ _ HMI Hlv) as (nv1 & Hlv1 & Hav).
    destruct (createOrReusePair_none node key (Content n) baseIndent h1 Hscan)
      as [Hrun _].
    eexists _, _. split; [exact (Hrun init lk lv nk1 nv1 Hc Hlk1 Hlv1)|].
    repeat split; try done.
  - exists n'. split; [done|]. intros p c Hp Hge.
    destruct (Hnew p c Hp) as [Hin | [_ (cn & Hcn & Ha)]].
    + destruct (Hall c Hin) as [? Hx]. apply lookup_lt_Some in Hx. lia.
    + exists cn. split; [done|]. by destruct (Nat.even p).
Qed.

Lemma updateNode_mapping_appended_witness :
  exists n',
    snd (updateNode 0 0%nat (reflect.VMap reflect.String sample_courses_new)
           sample_courses) !! 0%nat = Some n' /\
    forall p c, Content n' !! p = Some c -> (5 <= c)%nat ->
      exists cn,
        snd (updateNode 0 0%nat (reflect.VMap reflect.String sample_courses_new)
               sample_courses) !! c = Some cn /\
        attrs cn = attrs (if Nat.even p then sample_scalar "CS102" "!!str" 2 1
                          else sample_scalar "B" "!!str" 2 8).
Proof.
  apply (updateNode_mapping_appended 0 0%nat reflect.String sample_courses_new
           sample_courses _ [1; 2]%nat 3%nat 4%nat _ _ _
           (noDocumentb_ok sample_courses eq_refl) eq_refl eq_refl).
  - intros c Hin. simpl in Hin. rewrite !elem_of_cons, elem_of_nil in Hin.
    destruct Hin as [-> | [-> | [-> | [-> | []]]]]; by eexists.
  - reflexivity.
  - reflexivity.
  - reflexivity.
Defined.

(** X20. In a store without a Document node, a Mapping merge into a node
    without children gives every key node and every value node the node's
    column plus 2 in the arithmetic of [int], which is the exact sum when
    that fits an [int], with style and line zero. *)
Theorem updateNode_mapping_filled fuel node keyKind entries (h : heap) n h' :
  noDocument h -> h !! node = Some n -> Content n = [] ->
  updateNode fuel node (reflect.VMap keyKind entries) h = (Ret tt, h') ->
  exists n', h' !! node = Some n' /\
    forall c, c ∈ Content n' ->
      exists cn, h' !! c = Some cn /\
        Style cn = 0 /\ Column cn = int_add (Column n) 2 /\
        (is_int (Column n + 2) -> Column cn = Column n + 2) /\ Line cn = 0.
Proof.
  intros Hnd Hn Hempty H.
  destruct (updateNode_mapping_made fuel node keyKind entries h n h'
              (0, int_add (Column n) 2, 0) (0, int_add (Column n) 2, 0) Hnd Hn)
    as (n' & Hn' & Hnew); [|exact H|].
  - intros baseIndent key h1 HMI Hb Hscan. rewrite (Hb Hempty).
    destruct (MI_attrs _ _ _ _ HMI Hn) as (n1 & Hn1 & [= _ Hcol _]).
    destruct (createOrReusePair_none node key (Content n) 2 h1 Hscan) as [_ Hrun].
    eexists _, _. split; [exact (Hrun n1 Hempty Hn1)|].
    repeat split; try done; unfold attrs; simpl; by rewrite Hcol.
  - exists n'. split; [done|]. intros c Hin.
    apply list_elem_of_lookup in Hin as (p & Hp).
    destruct (Hnew p c Hp) as [Hin | [_ (cn & Hcn & Ha)]].
    + rewrite Hempty in Hin. by apply elem_of_nil in Hin.
    + exists cn. split; [done|].
      assert (Hat : attrs cn = (0, int_add (Column n) 2, 0))
        by (by destruct (Nat.even p)).
      injection Hat as H1 H2 H3. repeat split; try done.
      intros Hi. rewrite H2. by apply wrap_int_id.
Qed.

Lemma updateNode_mapping_filled_witness :
  exists n',
    snd (updateNode 0 0%nat (reflect.VMap reflect.String sample_courses_new)
           [sample_scalar "" "!!null" 1 9]) !! 0%nat = Some n' /\
    forall c, c ∈ Content n' ->
      exists cn,
        snd (updateNode 0 0%nat (reflect.VMap reflect.String sample_courses_new)
               [sample_scalar "" "!!null" 1 9]) !! c = Some cn /\
        Style cn = 0 /\ Column cn = 9 + 2 /\ Line cn = 0.
Proof.
  destruct (updateNode_mapping_filled 0 0%nat reflect.String sample_courses_new
              [sample_scalar "" "!!null" 1 9] _ _
              (noDocumentb_ok [sample_scalar "" "!!null" 1 9] eq_refl)
              eq_refl eq_refl eq_refl) as (n' & Hn' & Hall).
  exists n'. split; [exact Hn'|]. intros c Hc.
  destruct (Hall c Hc) as (cn & Hcn & Hs & _ & Hex & Hl).
  exists cn. split; [exact Hcn|]. split; [exact Hs|]. split; [|exact Hl].
  apply Hex. unfold is_int, int_min, int_max. simpl. lia.
Defined.

(** ** The order of the keys *)

Section KeyOrder.

Variable fuel : nat.
Variable h : heap.
Variable node : loc.
Variable kids : list tree.

Hypothesis Hok : tree_ok h (TNode node kids).

(** The store [hc] of a merge into [node] under way: the children of
[node] are the original ones followed by nodes made since. *)
Record order_inv (hc : heap) : Prop := {
oi_pre : pre (below h kids) False hc;
oi_len : (length h <= length hc)%nat;
oi_node : exists nc extra,
hc !! node = Some nc /\ Content nc = map root kids ++ extra /\
Forall (fun x : loc => (length h <= x < length hc)%nat) extra
}.

Lemma order_inv_start n1 :
(exists n, h !! node = Some n /\ Content n1 = Content n) ->
order_inv (<[node := n1]> h).
Proof.
intros (n & Hn & Hc).
destruct (kids_content h node kids Hok) as (n0 & Hn0 & Hc0).
assert (n0 = n) as -> by congruence.
split.
- by apply pre_below.
- by rewrite length_insert.
- exists n1, []. rewrite app_nil_r. split; [|split; [congruence | done]].
apply list_lookup_insert_eq. by eapply lookup_lt_Some.
Qed.

Lemma order_inv_call hc hc' :
order_inv hc -> MI (below h kids) False hc hc' -> order_inv hc'.
Proof.
intros [Hp Hl (nc & extra & Hnc & Hc & Hex)] HMI.
pose proof (mi_len _ _ _ _ HMI) as Hlen.
split.
- apply HMI.
- lia.
- exists nc, extra. split; [|split; [done|]].
+ rewrite (mi_frame _ _ _ _ HMI); [done | by apply (node_not_below h node kids)].
+ eapply Forall_impl; [exact Hex|]. simpl. intros x Hx. lia.
Qed.

Lemma order_children hc nc (c : loc) :
order_inv hc -> hc !! node = Some nc -> c ∈ Content nc ->
(c < length hc)%nat /\ below h kids c.
Proof.
intros [Hp Hl (n0 & extra & Hn0 & Hc0 & Hex)] Hnc Hc.
assert (n0 = nc) as -> by congruence.
rewrite Hc0 in Hc. apply elem_of_app in Hc as [Hc | Hc].
- split; [|by apply child_below].
apply list_elem_of_fmap in Hc as (t & -> & Ht).
apply list_elem_of_lookup in Ht as (p & Hp').
pose proof (kid_lt h node kids Hok p t (root t) Hp' (root_in_locs t)). lia.
- rewrite Forall_forall in Hex. apply Hex in Hc. split; [lia | right; lia].
Qed.

Lemma order_inv_append hc nc key k v h2 :
order_inv hc -> hc !! node = Some nc ->
newPair hc h2 node nc key k v -> order_inv h2.
Proof.
intros [Hp Hl (n0 & extra & Hn0 & Hc0 & Hex)] Hnc
[-> -> Hlen Hold Hmap (kn' & vn' & Hkn' & Hvn' & _ & _ & _ & Hkc & _ & Hvc & _)].
assert (n0 = nc) as -> by congruence.
split.
- split.
+ intros x n c Hx Hn Hc.
  assert (Hxlt : (x < length h2)%nat) by (by eapply lookup_lt_Some).
  destruct (decide (x < length hc)%nat) as [Hlt | Hge].
  * rewrite Hold in Hn; [exact (pre_closed _ _ _ Hp x n c Hx Hn Hc) | done |].
    intros ->. by apply (node_not_below h node kids).
  * destruct (decide (x = length hc)) as [-> | Hne].
    -- assert (n = kn') as -> by congruence. rewrite Hkc in Hc.
       by apply elem_of_nil in Hc.
    -- assert (x = S (length hc)) as -> by lia.
       assert (n = vn') as -> by congruence. rewrite Hvc in Hc.
       by apply elem_of_nil in Hc.
+ intros x Hx. right. lia.
+ done.
- lia.
- exists (setContent (Content nc ++ [length hc; S (length hc)]) nc),
  (extra ++ [length hc; S (length hc)]).
split; [done|]. split.
+ simpl. by rewrite Hc0, <- app_assoc.
+ apply Forall_app. split.
  * eapply Forall_impl; [exact Hex|]. simpl. intros x Hx. lia.
  * repeat constructor; lia.
Qed.

Lemma updateField_order hc fieldType fieldValue hc' :
order_inv hc ->
updateField fuel node fieldType fieldValue hc = (Ret tt, hc') ->
order_inv hc'.
Proof.
intros Hinv H. unfold updateField, updateField_ in H. cbv zeta in H.
destruct (oi_node _ Hinv) as (nc & extra & Hnc & Hc & Hex).
apply bind_Ret in H as (found & h1 & Hf & H).
apply (findNodes_Ret _ _ _ nc) in Hf as [-> Hfound]; [|done].
apply bind_Ret in H as ([k v] & h2 & Ha & H). cbn [snd] in H.
destruct found as [[k0 v0]|].
- apply ret_Ret in Ha as [[= -> ->] ->].
destruct Hfound as (q & kq & _ & Hcv & _).
assert (Hw : below h kids v0).
{ apply (order_children hc nc v0 Hinv Hnc). by eapply list_elem_of_lookup_2. }
pose proof (updateNode_spec (below h kids) False fuel fieldValue v0 hc hc
              (MI_refl _ _ _ (oi_pre _ Hinv)) Hw) as Hsat.
destruct (sat_run _ _ _ _ _ _ _ _ Hsat H) as [HMI _].
by eapply order_inv_call.
- apply (appendNewPair_Ret _ _ _ nc) in Ha;
  [|done|intros c Hc'; by apply (order_children hc nc c Hinv Hnc)].
assert (Hinv2 : order_inv h2) by (by eapply order_inv_append).
assert (Hw : below h kids v).
{ destruct Ha as [_ -> _ _ _ _]. right. pose proof (oi_len _ Hinv). lia. }
pose proof (updateNode_spec (below h kids) False fuel fieldValue v h2 h2
              (MI_refl _ _ _ (oi_pre _ Hinv2)) Hw) as Hsat.
destruct (sat_run _ _ _ _ _ _ _ _ Hsat H) as [HMI _].
by eapply order_inv_call.
Qed.

Lemma structFields_order fields :
forall hc hc', order_inv hc ->
structFields_ (updateNode fuel) node fields hc = (Ret tt, hc') -> order_inv hc'.
Proof.
induction fields as [|[fieldType fieldValue] rest IH]; intros hc hc' Hinv H.
- simpl in H. by apply ret_Ret in H as [_ ->].
- simpl in H. apply bind_Ret in H as ([] & h1 & Hstep & H).
apply wrapErr_Ret in Hstep. apply (IH h1); [|done]. by eapply updateField_order.
Qed.

Lemma mapKeys_order entries :
forall hc hc', order_inv hc ->
mapKeys_ (updateNode fuel) node entries hc = (Ret tt, hc') -> order_inv hc'.
Proof.
induction entries as [|[key elem] rest IH]; intros hc hc' Hinv H.
- simpl in H. by apply ret_Ret in H as [_ ->].
- simpl in H.
apply bind_Ret in H as (found & h1 & Hf & H).
apply bind_Ret in H as (kv & h2 & Ha & H).
apply bind_Ret in H as ([] & h3 & Hu & H). apply wrapErr_Ret in Hu.
apply (IH h3 hc'); [|done].
apply (updateField_order hc (reflect.mkField key key) elem h3 Hinv).
unfold updateField, updateField_. cbv zeta.
assert (Ht : yamlTagOf (reflect.mkField key key) = key).
{ unfold yamlTagOf. simpl. by destruct (String.eqb key ""). }
rewrite Ht. rewrite (bind_run _ _ _ _ _ Hf). by rewrite (bind_run _ _ _ _ _ Ha).
Qed.

End KeyOrder.

(** X21. A merge by [updateYamlFromStruct] of a record, or of a map with
    string keys, into a node that is not a Document and is the root of a
    tree keeps the order of the keys: the children of the node after the
    merge are its original children, in their original order, followed by
    the nodes of the new pairs, which the merge allocated. *)
Theorem updateYamlFromStruct_keeps_order fuel node data kids (h : heap) h' n :
  tree_ok h (TNode node kids) ->
  h !! node = Some n -> Kind n <> DocumentNode ->
  (exists fields, data = reflect.VStruct fields) \/
  (exists entries, data = reflect.VMap reflect.String entries) ->
  updateYamlFromStruct fuel node data h = (Ret tt, h') ->
  exists n' extra,
    h' !! node = Some n' /\ Content n' = Content n ++ extra /\
    Forall (fun x : loc => (length h <= x < length h')%nat) extra.
Proof.
  intros Hok Hn Hkind Hdata H.
  destruct (kids_content _ _ _ Hok) as (n0 & Hn0 & Hc0).
  assert (n0 = n) as -> by congruence. clear Hn0.
  unfold updateYamlFromStruct, updateYamlFromStruct_ in H. cbv zeta in H.
  rewrite (bind_run _ _ _ _ _ (documentChild_other fuel node h n Hn Hkind)) in H.
  destruct (ensureMapping_run node h n Hn) as (m' & Hrun & _ & Hc & _).
  rewrite (bind_run _ _ _ _ _ Hrun) in H.
  assert (Hstart : order_inv h node kids (<[node := m']> h)).
  { apply (order_inv_start h node kids Hok). by exists n. }
  assert (Hinv : order_inv h node kids h').
  { destruct Hdata as [[fields ->] | [entries ->]]; simpl in H.
    - by apply (structFields_order fuel h node kids Hok fields _ _ Hstart).
    - by apply (mapKeys_order fuel h node kids Hok entries _ _ Hstart). }
  destruct Hinv as [_ _ (n' & extra & Hn' & Hc' & Hex)].
  exists n', extra. by rewrite Hc0.
Qed.

Lemma updateYamlFromStruct_keeps_order_witness :
  exists n' extra,
    snd (updateYamlFromStruct 0 0%nat (reflect.VStruct sample_courses_record)
           sample_courses) !! 0%nat = Some n' /\
    Content n' = [1; 2; 3; 4]%nat ++ extra /\
    Forall (fun x : loc =>
              (5 <= x < length (snd (updateYamlFromStruct 0 0%nat
                                       (reflect.VStruct sample_courses_record)
                                       sample_courses)))%nat) extra.
Proof.
  exact (updateYamlFromStruct_keeps_order 0 0%nat (reflect.VStruct sample_courses_record)
           sample_courses_kids sample_courses _ _
           (tree_okb_ok sample_courses (TNode 0 sample_courses_kids) eq_refl)
           eq_refl ltac:(simpl; discriminate)
           (or_introl (ex_intro _ sample_courses_record eq_refl)) eq_refl).
Defined.

Lemma resetRootColumns_links root_ (h3 : heap) h' :
  resetRootColumns root_ h3 = (Ret tt, h') -> same_links h3 h'.
Proof.
  intros H. unfold resetRootColumns in H. minv H. read_writes.
  assert (Hstep : same_links h3 (<[root_ := setColumn 0 n]> h3)).
  { apply same_links_insert with (n := n); [done | done | by left]. }
  destruct (0 <? length (Content (setColumn 0 n)))%nat.
  - minv H. eapply same_links_trans; [exact Hstep|].
    apply same_links_insert with (n := n0); [done | done | by left].
  - apply ret_Ret in H as [_ ->]. exact Hstep.
Qed.

(** X22. [UpdateYAML] keeps the order of the keys of the document: when
    the root is a Document node over a tree whose top node has the children
    [kids], a merge of a record or of a map with string keys that returns
    normally leaves that node with its original children, in their original
    order, followed by the nodes of the new pairs, which the merge
    allocated. *)
Theorem UpdateYAML_nodes_keeps_order fuel root_ (c : loc) kids data (h : heap) r m h' :
  tree_ok h (TNode root_ [TNode c kids]) ->
  h !! root_ = Some r -> Kind r = DocumentNode -> h !! c = Some m ->
  (exists fields, data = reflect.VStruct fields) \/
  (exists entries, data = reflect.VMap reflect.String entries) ->
  UpdateYAML_nodes fuel root_ data h = (Ret tt, h') ->
  exists m' extra,
    h' !! c = Some m' /\ Content m' = Content m ++ extra /\
    Forall (fun x : loc => (length h <= x < length h')%nat) extra.
Proof.
  intros Hok Hr Hk Hm Hdata Hrun.
  unfold UpdateYAML_nodes in Hrun.
  apply bind_Ret in Hrun as ([] & h3 & Hu & Hreset). apply wrapErr_Ret in Hu.
  unfold updateYamlFromStruct, updateYamlFromStruct_ in Hu. cbv zeta in Hu.
  apply bind_Ret in Hu as (c' & h1 & Hd & Hu).
  pose proof (documentChild_doc fuel root_ (TNode c kids) h r m Hok Hr Hk Hm) as Hdoc.
  rewrite Hd in Hdoc. destruct Hdoc as [-> (L & O & Hun & Hum & Hux)].
  cbn [root] in *.
  pose proof (Hum m Hm) as Hm1.
  destruct (ensureMapping_run c h1 _ Hm1) as (m2 & He & Hk2 & Hc2 & _).
  rewrite (bind_run _ _ _ _ _ He) in Hu.
  set (h2 := <[c := m2]> h1) in *.
  assert (Hsub : tree_ok h (TNode c kids)).
  { split.
    - by apply (kid_shape h root_ [TNode c kids] Hok 0%nat).
    - destruct Hok as [_ Hnd]. simpl in Hnd. rewrite app_nil_r in Hnd.
      by apply NoDup_cons in Hnd as [_ Hnd]. }
  assert (Hne : root_ <> c).
  { intros ->. apply (kid_not_node h c [TNode c kids] Hok 0%nat (TNode c kids) eq_refl).
    apply (root_in_locs (TNode c kids)). }
  assert (Hlinks : same_links h h2).
  { split; [subst h2; by rewrite length_insert|].
    intros x n Hn. destruct (decide (x = c)) as [-> | Hxc].
    - assert (n = m) as -> by congruence. exists m2. split; [|split].
      + subst h2. apply list_lookup_insert_eq. by eapply lookup_lt_Some.
      + by rewrite Hc2.
      + right. by rewrite Hk2.
    - subst h2. rewrite list_lookup_insert_ne by done.
      destruct (decide (x = root_)) as [-> | Hxr].
      + rewrite (Hun n Hn). eexists. split; [done|]. simpl. auto.
      + destruct (decide (x ∈ locs (TNode c kids))) as [Hin | Hout].
        * rewrite (Hux x n Hin Hxc Hn). eexists. split; [done|]. simpl. auto.
        * rewrite (O x Hxr Hout). exists n. auto. }
  assert (Hok2 : tree_ok h2 (TNode c kids)).
  { destruct Hsub as [Hs Hnd]. split; [by eapply same_links_shape | done]. }
  assert (Hm2 : h2 !! c = Some m2).
  { subst h2. apply list_lookup_insert_eq. by eapply lookup_lt_Some. }
  assert (Hstart : order_inv h2 c kids h2).
  { pose proof (order_inv_start h2 c kids Hok2 m2 (ex_intro _ m2 (conj Hm2 eq_refl)))
      as Hs. by rewrite (list_insert_id h2 c m2 Hm2) in Hs. }
  assert (Hinv : order_inv h2 c kids h3).
  { destruct Hdata as [[fields ->] | [entries ->]]; simpl in Hu.
    - by apply (structFields_order fuel h2 c kids Hok2 fields _ _ Hstart).
    - by apply (mapKeys_order fuel h2 c kids Hok2 entries _ _ Hstart). }
  destruct Hinv as [_ _ (n3 & extra & Hn3 & Hc3 & Hex)].
  destruct (resetRootColumns_links _ _ _ Hreset) as [Hlen' Hl'].
  destruct (Hl' c n3 Hn3) as (m' & Hm' & Hcm' & _).
  destruct (kids_content _ _ _ Hsub) as (m0 & Hm0 & Hc0).
  assert (m0 = m) as -> by congruence.
  exists m', extra. split; [done|]. split; [congruence|].
  destruct Hlinks as [Hlen2 _]. rewrite Hlen', <- Hlen2. exact Hex.
Qed.

Lemma UpdateYAML_nodes_keeps_order_witness :
  exists m' extra,
    snd (UpdateYAML_nodes 3 0%nat sample_person_value sample_person) !! 1%nat = Some m' /\
    Content m' = [2; 3; 4; 5]%nat ++ extra /\
    Forall (fun x : loc =>
              (6 <= x < length (snd (UpdateYAML_nodes 3 0%nat sample_person_value
                                       sample_person)))%nat) extra.
Proof.
  exact (UpdateYAML_nodes_keeps_order 3 0%nat 1%nat
           [TNode 2 []; TNode 3 []; TNode 4 []; TNode 5 []]
           sample_person_value sample_person _ _ _
           (tree_okb_ok sample_person sample_person_tree eq_refl)
           eq_refl eq_refl eq_refl
           (or_introl (ex_intro _ _ eq_refl)) eq_refl).
Defined.
